(** * code-rag-mcp: resumable indexing pipeline and search-result deduplication

    A shallow embedding of the Go package [rag] -- the [Indexer] with
    [chunkFile] and [ReindexFiles], the progress record [IndexingState],
    the [IncrementalIndexer] of [incremental_indexer.go] and the
    de-duplication of [vectordb.go] -- together with the properties of its
    specification.

    Conventions of the embedding.
    - Go [int] values are mathematical integers ([Z]) or, for slice indices
      and lengths, naturals; every arithmetic expression of the modelled code
      stays inside the 64-bit range (see [parseRangeKey_bounds]).
    - A Go [error] is [option string]: [None] is [nil], [Some msg] carries
      [err.Error()].
    - Calls to the outside world (file reads, the embedding service, the
      vector store, the state file, the cancellation signal) are recorded in
      a trace of [Event]s; their outcomes come from an environment of
      oracles that may depend on everything that happened before.
    - Time stamps and log lines are left out: no control flow reads them. *)

From Stdlib Require Import ZArith QArith Ascii String List Bool Lia Sorted Permutation.
From Stdlib Require Import DecimalString DecimalZ.
From stdpp Require Import base decidable option list sorting gmap strings.
From Equations Require Import Equations.


Set Default Proof Using "Type".
Set Warnings "-register-all".

(* ===================================================================== *)
(** ** The pieces of Go's standard library that the package relies on     *)
(* ===================================================================== *)

Module GoStrings.

(** [len(s)] of a slice, and the slice expression [l[i:j]]. *)
Definition slice {A} (l : list A) (i j : nat) : list A :=
  firstn (j - i) (skipn i l).

(** Every byte of [s] satisfies [p]. *)
Fixpoint all_bytes (p : ascii -> bool) (s : string) : bool :=
  match s with
  | EmptyString => true
  | String c s' => p c && all_bytes p s'
  end.

Definition byte_isnt (c : ascii) : ascii -> bool := fun x => negb (Ascii.eqb x c).

(** [strings.Split(s, sep)] for a one-byte separator: the pieces between
    the separators, [[s]] when there is none (also for the empty [s]). *)
Fixpoint Split (s : string) (sep : ascii) : list string :=
  match s with
  | EmptyString => [EmptyString]
  | String c s' =>
      if Ascii.eqb c sep then EmptyString :: Split s' sep
      else match Split s' sep with
           | [] => [String c EmptyString]
           | piece :: rest => String c piece :: rest
           end
  end.

(** [strings.Join(elems, sep)] for a one-byte separator. *)
Fixpoint Join (elems : list string) (sep : ascii) : string :=
  match elems with
  | [] => EmptyString
  | [e] => e
  | e :: ((_ :: _) as rest) => e +:+ String sep (Join rest sep)
  end.

(** [strings.HasPrefix(s, prefix)]. *)
Definition HasPrefix (s prefix : string) : bool := String.prefix prefix s.

(** [fmt.Sprintf("%d", n)]. *)
Definition Itoa (n : Z) : string := NilEmpty.string_of_int (Z.to_int n).

Definition isDigit (c : ascii) : bool :=
  (48 <=? nat_of_ascii c)%nat && (nat_of_ascii c <=? 57)%nat.

Definition minInt : Z := - 2 ^ 63.
Definition maxInt : Z := 2 ^ 63 - 1.

(** [strconv.Atoi]: an optional sign, then one or more decimal digits;
    anything else is a syntax error, a value outside [int] a range
    error. *)
Definition Atoi (s : string) : option Z :=
  match s with
  | EmptyString => None
  | String c s' =>
      let neg := Ascii.eqb c "-" in
      let digits := if neg || Ascii.eqb c "+" then s' else s in
      match NilZero.uint_of_string digits with
      | None => None
      | Some d =>
          let n := Z.of_uint d in
          let v := if neg then (- n)%Z else n in
          if (minInt <=? v)%Z && (v <=? maxInt)%Z then Some v else None
      end
  end.

(** [filepath.Ext]: the suffix of the last path element that starts at
    its last dot, or the empty string. *)
Fixpoint Ext (path : string) : string :=
  match path with
  | EmptyString => EmptyString
  | String c rest =>
      if all_bytes (fun x => negb (Ascii.eqb x "." || Ascii.eqb x "/")) rest
      then (if Ascii.eqb c "." then path else EmptyString)
      else Ext rest
  end.

(** [filepath.Join(dir, name)] for a clean [dir] and a plain [name]. *)
Definition JoinPath (dir name : string) : string := dir +:+ String "/" name.

(** [unicode.IsSpace] read off the UTF-8 bytes at the head of [s]:
    the number of bytes of the white-space rune that starts [s], or [0]
    when [s] does not start with one. The white-space runes are
    U+0009..U+000D, U+0020, U+0085, U+00A0, U+1680, U+2000..U+200A,
    U+2028, U+2029, U+202F, U+205F and U+3000. *)
Definition space_rune_width (s : string) : nat :=
  match s with
  | EmptyString => 0
  | String c0 rest =>
      let b0 := nat_of_ascii c0 in
      if ((9 <=? b0) && (b0 <=? 13)) || (b0 =? 32) then 1
      else
        match rest with
        | EmptyString => 0
        | String c1 rest1 =>
            let b1 := nat_of_ascii c1 in
            if (b0 =? 194) && ((b1 =? 133) || (b1 =? 160)) then 2
            else
              match rest1 with
              | EmptyString => 0
              | String c2 _ =>
                  let b2 := nat_of_ascii c2 in
                  if (b0 =? 225) && (b1 =? 154) && (b2 =? 128) then 3
                  else if (b0 =? 226) && (b1 =? 128)
                          && (((128 <=? b2) && (b2 <=? 138))
                              || (b2 =? 168) || (b2 =? 169) || (b2 =? 175))
                  then 3
                  else if (b0 =? 226) && (b1 =? 129) && (b2 =? 159) then 3
                  else if (b0 =? 227) && (b1 =? 128) && (b2 =? 128) then 3
                  else 0
              end
        end
  end.

(** [s] is a sequence of white-space runes; [skip] counts the bytes of the
    current rune that are still to be passed over. *)
Fixpoint only_space (skip : nat) (s : string) : bool :=
  match s with
  | EmptyString => true
  | String _ s' =>
      match skip with
      | S k => only_space k s'
      | O =>
          match space_rune_width s with
          | O => false
          | S k => only_space k s'
          end
      end
  end.

(** [strings.TrimSpace(s) == ""]. *)
Definition TrimSpace_is_empty (s : string) : bool := only_space 0 s.

(** [strings.Count(s, sep)] for a one-byte separator. *)
Fixpoint countByte (s : string) (sep : ascii) : nat :=
  match s with
  | EmptyString => 0
  | String c s' => (if Ascii.eqb c sep then 1 else 0) + countByte s' sep
  end.

End GoStrings.

(* ===================================================================== *)
(** ** [vectordb.go]: de-duplication of search hits                       *)
(* ===================================================================== *)

Module Dedup.
Import GoStrings.

(** [SearchResult]. The score is a [float32] that the de-duplication never
    reads; it is carried as a rational. *)
Record SearchResult := mkSearchResult {
  ID : string;
  Score : Q;
  FilePath : string;
  Content : string;
  LineStart : Z;
  LineEnd : Z;
  Language : string
}.

(** [fmt.Sprintf("%s:%d-%d", result.FilePath, result.LineStart, result.LineEnd)] *)
Definition rangeKey (filePath : string) (lineStart lineEnd : Z) : string :=
  filePath +:+ String ":" (Itoa lineStart +:+ String "-" (Itoa lineEnd)).

Definition keyOf (result : SearchResult) : string :=
  rangeKey (FilePath result) (LineStart result) (LineEnd result).

(** [parseRangeKey]: [nil] is [None]; the slice [[]int{0, start, end}] is a
    triple whose first slot is the constant placeholder of the source. *)
Definition parseRangeKey (key : string) : option (Z * Z * Z) :=
  match Split key ":" with
  | [_; range] =>
      match Split range "-" with
      | [startText; endText] =>
          match Atoi startText, Atoi endText with
          | Some start, Some end_ => Some (0%Z, start, end_)
          | _, _ => None
          end
      | _ => None
      end
  | _ => None
  end.

(** [isOverlapping]. The two comparisons of the source are made in
    [float64]; conversion of an integer below [2^53] and multiplication by
    [0.5] are exact, so on line numbers they are the comparisons
    [2 * overlap > range] written here. *)
Definition isOverlapping (key1 key2 : string) : bool :=
  match parseRangeKey key1, parseRangeKey key2 with
  | Some (file1, start1, end1), Some (file2, start2, end2) =>
      if negb (file1 =? file2)%Z then false
      else
        let overlapStart := Z.max start1 start2 in
        let overlapEnd := Z.min end1 end2 in
        if (overlapStart >=? overlapEnd)%Z then false
        else
          let overlap := (overlapEnd - overlapStart)%Z in
          let range1 := (end1 - start1)%Z in
          let range2 := (end2 - start2)%Z in
          (range1 <? 2 * overlap)%Z || (range2 <? 2 * overlap)%Z
  | _, _ => false
  end.

(** The body of the loop of [deduplicateResults]: [seen] is the key set of
    the Go map, [unique] the slice of hits kept so far. Ranging over the
    map looks for any overlapping key, in whatever order. *)
Definition dedupStep (acc : gset string * list SearchResult)
    (result : SearchResult) : gset string * list SearchResult :=
  let '(seen, unique) := acc in
  let key := keyOf result in
  let isDuplicate :=
    existsb (fun existingKey => isOverlapping existingKey key) (elements seen) in
  if isDuplicate then (seen, unique)
  else ({[ key ]} ∪ seen, unique ++ [result]).

Definition deduplicateResults (results : list SearchResult) : list SearchResult :=
  if (length results =? 0)%nat then results
  else snd (fold_left dedupStep results (∅, [])).

(** The hits that the loop appends to [unique] when it starts with the
    keys [seen]; [dedup_loop] relates it to the loop. *)
Fixpoint keptFrom (seen : gset string) (results : list SearchResult)
    : list SearchResult :=
  match results with
  | [] => []
  | result :: rest =>
      if existsb (fun existingKey => isOverlapping existingKey (keyOf result))
                 (elements seen)
      then keptFrom seen rest
      else result :: keptFrom ({[ keyOf result ]} ∪ seen) rest
  end.

Definition noColon (filePath : string) : bool :=
  all_bytes (byte_isnt ":") filePath.

(** The keys in the map [seen] once the loop has gone through [results]
    from the keys [seen]. *)
Definition seenAfter (seen : gset string) (results : list SearchResult)
    : gset string :=
  fst (fold_left dedupStep results (seen, [])).

(** The line numbers are natural numbers of [int]: what [parseRangeKey]
    reads back from a key. *)
Definition parsable (filePath : string) (lineStart lineEnd : Z) : bool :=
  noColon filePath
  && (0 <=? lineStart)%Z && (lineStart <=? maxInt)%Z
  && (0 <=? lineEnd)%Z && (lineEnd <=? maxInt)%Z.

(** The test that the loop makes between a key of the map and the key of
    the current hit, on the hits themselves. *)
Definition overlaps (kept result : SearchResult) : bool :=
  isOverlapping (keyOf kept) (keyOf result).

Definition sameKey (key : string) (result : SearchResult) : bool :=
  String.eqb (keyOf result) key.

End Dedup.

(* ===================================================================== *)
(** ** [IndexingState]: the persisted progress record                     *)
(* ===================================================================== *)

Module State.

(** [IndexingState] without its lock and its three time stamps. *)
Record IndexingState := mkState {
  RootPath : string;
  TotalFiles : Z;
  IndexedFiles : Z;
  TotalChunks : Z;
  ProcessedFiles : gmap string bool;
  FailedFiles : gmap string string;
  Status : string
}.

Definition NewIndexingState (rootPath : string) : IndexingState :=
  {| RootPath := rootPath;
     TotalFiles := 0;
     IndexedFiles := 0;
     TotalChunks := 0;
     ProcessedFiles := ∅;
     FailedFiles := ∅;
     Status := "in_progress" |}.

Definition MarkFileProcessed (s : IndexingState) (filePath : string)
    (chunksCount : Z) : IndexingState :=
  {| RootPath := RootPath s;
     TotalFiles := TotalFiles s;
     IndexedFiles := IndexedFiles s + 1;
     TotalChunks := TotalChunks s + chunksCount;
     ProcessedFiles := <[ filePath := true ]> (ProcessedFiles s);
     FailedFiles := FailedFiles s;
     Status := Status s |}.

Definition MarkFileFailed (s : IndexingState) (filePath errorMsg : string)
    : IndexingState :=
  {| RootPath := RootPath s;
     TotalFiles := TotalFiles s;
     IndexedFiles := IndexedFiles s;
     TotalChunks := TotalChunks s;
     ProcessedFiles := ProcessedFiles s;
     FailedFiles := <[ filePath := errorMsg ]> (FailedFiles s);
     Status := Status s |}.

(** Reading a Go map at a missing key gives the zero value, [false]. *)
Definition IsFileProcessed (s : IndexingState) (filePath : string) : bool :=
  default false (ProcessedFiles s !! filePath).

Definition SetStatus (s : IndexingState) (status : string) : IndexingState :=
  {| RootPath := RootPath s;
     TotalFiles := TotalFiles s;
     IndexedFiles := IndexedFiles s;
     TotalChunks := TotalChunks s;
     ProcessedFiles := ProcessedFiles s;
     FailedFiles := FailedFiles s;
     Status := status |}.

(** [state.TotalFiles = len(allFiles)] *)
Definition setTotalFiles (s : IndexingState) (n : Z) : IndexingState :=
  {| RootPath := RootPath s;
     TotalFiles := n;
     IndexedFiles := IndexedFiles s;
     TotalChunks := TotalChunks s;
     ProcessedFiles := ProcessedFiles s;
     FailedFiles := FailedFiles s;
     Status := Status s |}.

End State.

(* ===================================================================== *)
(** ** [Indexer.chunkFile]: chunking                                      *)
(* ===================================================================== *)

(** The index pairs [(i, end)] that a loop
    [for i := 0; i < n; i += stride { end := min(i + size, n); ... }]
    goes through, from [i] on. The strides of the package are the constants
    40, 50 and 100; with a zero stride the Go loop would not advance. *)
Equations? windows (size stride n i : nat) : list (nat * nat) by wf (n - i) lt :=
  windows size 0 n i := [];
  windows size (S s) n i with lt_dec i n := {
    | right _ => []
    | left _ => (i, Nat.min (i + size) n) :: windows size (S s) n (i + S s)
  }.
Proof. lia. Qed.

Module Chunker.
Import GoStrings.

Record CodeChunk := mkChunk {
  FilePath : string;
  Content : string;
  LineStart : Z;
  LineEnd : Z;
  Language : string
}.

Definition detectLanguage (filePath : string) : string :=
  let ext := Ext filePath in
  if String.eqb ext ".go" then "go"
  else if String.eqb ext ".py" then "python"
  else if String.eqb ext ".js" then "javascript"
  else if String.eqb ext ".ts" then "typescript"
  else if String.eqb ext ".tf" then "terraform"
  else if String.eqb ext ".yaml" || String.eqb ext ".yml" then "yaml"
  else if String.eqb ext ".md" then "markdown"
  else if String.eqb ext ".json" then "json"
  else if String.eqb ext ".sh" then "bash"
  else if String.eqb ext ".rs" then "rust"
  else if String.eqb ext ".java" then "java"
  else if String.eqb ext ".c" || String.eqb ext ".h" then "c"
  else if String.eqb ext ".cpp" || String.eqb ext ".hpp" || String.eqb ext ".cc" then "cpp"
  else "unknown".

Definition chunkSize : nat := 50.
Definition overlap : nat := 10.

(** The chunk that [chunkFile] makes of the window [lines[i:end]]. *)
Definition windowChunk (filePath : string) (lines : list string)
    (w : nat * nat) : CodeChunk :=
  {| FilePath := filePath;
     Content := Join (slice lines (fst w) (snd w)) "010";
     LineStart := Z.of_nat (fst w) + 1;
     LineEnd := Z.of_nat (snd w);
     Language := detectLanguage filePath |}.

(** [strings.TrimSpace(chunkText) == ""] for the window [lines[i:end]]. *)
Definition blankWindow (lines : list string) (w : nat * nat) : bool :=
  TrimSpace_is_empty (Join (slice lines (fst w) (snd w)) "010").

(** The body of the loop of [chunkFile], run over the windows that remain:
    a blank window is passed over ([continue], which also passes over the
    end-of-file test), any other is appended, and the loop is left
    ([break]) once the appended window ends at the last line. *)
Fixpoint chunkLoop (filePath : string) (lines : list string)
    (ws : list (nat * nat)) (chunks : list CodeChunk) : list CodeChunk :=
  match ws with
  | [] => chunks
  | (i, end_) :: ws' =>
      let chunkText := Join (slice lines i end_) "010" in
      if TrimSpace_is_empty chunkText then chunkLoop filePath lines ws' chunks
      else
        let chunks' :=
          chunks ++ [ {| FilePath := filePath;
                         Content := chunkText;
                         LineStart := Z.of_nat i + 1;
                         LineEnd := Z.of_nat end_;
                         Language := detectLanguage filePath |} ] in
        if (end_ =? length lines)%nat then chunks'
        else chunkLoop filePath lines ws' chunks'
  end.

(** [chunkFile] after the read: the text is split at the line feeds and
    the windows of [chunkSize] lines, [chunkSize - overlap] apart, are
    chunked. *)
Definition chunkText (filePath text : string) : list CodeChunk :=
  let lines := Split text "010" in
  chunkLoop filePath lines
    (windows chunkSize (chunkSize - overlap) (length lines) 0) [].






(** A text of the given lines, each ended by a line feed but the last. *)
Definition textOf (lines : list string) : string := Join lines "010".

End Chunker.

(* ===================================================================== *)
(** ** [incremental_indexer.go]: prioritised file collection              *)
(* ===================================================================== *)

Module Collector.
Import GoStrings.

(** What [filepath.Walk] meets below a root: plain files with their size,
    directories with their entries, and entries for which the walk
    function is handed an error (a failed [Lstat], an unreadable
    directory). *)
Inductive node :=
| File (name : string) (size : Z)
| Dir (name : string) (children : list node)
| Broken (name : string) (err : string).

Definition nodeName (n : node) : string :=
  match n with
  | File name _ | Dir name _ | Broken name _ => name
  end.

Record fileWithPriority := mkFile {
  path : string;
  priority : Z
}.

(** Priority directories (lower number = higher priority). *)
Definition priorityDirs : gmap string Z :=
  list_to_map
    [ ("middleware", 1%Z); ("api", 2%Z); ("src", 3%Z); ("lib", 4%Z);
      ("core", 5%Z); ("utils", 6%Z); ("services", 7%Z); ("models", 8%Z);
      ("routes", 9%Z); ("handlers", 10%Z) ].

(** Directories to skip. *)
Definition skipDirs : gset string :=
  list_to_set
    [ "node_modules"; ".git"; "vendor"; "__pycache__"; ".venv"; "venv";
      "dist"; "build"; "coverage"; "test"; "tests"; "__tests__"; "spec";
      "specs"; "mocks"; "fixtures"; ".next"; ".nuxt"; "target"; "bin" ].

Definition contains (slice : list string) (item : string) : bool :=
  existsb (fun s => String.eqb s item) slice.

(** The loop over [pathParts]: the first part found in the table decides,
    [99] is the default. *)
Fixpoint priorityOf (pathParts : list string) : Z :=
  match pathParts with
  | [] => 99
  | part :: rest =>
      match priorityDirs !! part with
      | Some p => p
      | None => priorityOf rest
      end
  end.

(** The walk function on a plain file; [relPath] is
    [filepath.Rel(rootPath, filePath)]. *)
Definition visitFile (extensions : list string) (filePath relPath : string)
    (size : Z) (files : list fileWithPriority) : list fileWithPriority :=
  if negb (contains extensions (Ext filePath)) then files
  else if (size >? 1024 * 1024)%Z then files
  else
    let pathParts := Split relPath "/" in
    files ++ [ {| path := filePath; priority := priorityOf pathParts |} ].

(** [filepath.Rel] of an entry [name] of the directory at [relDir]. *)
Definition relChild (relDir name : string) : string :=
  if String.eqb relDir "." then name else relDir +:+ String "/" name.

(** [filepath.Walk] with the walk function of [collectFiles]: [inl] is the
    error that stops the walk, [inr] the files appended so far. A
    directory on the deny-list or with a leading dot answers [SkipDir]:
    nothing below it is visited. *)
Fixpoint walk (extensions : list string) (filePath relPath : string)
    (n : node) (files : list fileWithPriority)
    : string + list fileWithPriority :=
  match n with
  | Broken _ err => inl err
  | File _ size => inr (visitFile extensions filePath relPath size files)
  | Dir dirName children =>
      if bool_decide (dirName ∈ skipDirs) || HasPrefix dirName "." then inr files
      else
        (fix walkAll (entries : list node) (files : list fileWithPriority) :=
           match entries with
           | [] => inr files
           | entry :: entries' =>
               match walk extensions (JoinPath filePath (nodeName entry))
                          (relChild relPath (nodeName entry)) entry files with
               | inl err => inl err
               | inr files' => walkAll entries' files'
               end
           end) children files
  end.

(** The [less] function handed to [sort.Slice]. *)
Definition less (a b : fileWithPriority) : bool :=
  if negb (priority a =? priority b)%Z then (priority a <? priority b)%Z
  else String.ltb (path a) (path b).

(** [a] may stand before [b] in a slice sorted by [less]. *)
Definition notAfter (a b : fileWithPriority) : Prop := less b a = false.

Global Instance notAfter_dec : RelDecision notAfter.
Proof. intros a b. unfold notAfter. apply _. Defined.

(** [sort.Slice(files, less)]. *)
Definition sort_Slice (files : list fileWithPriority) : list fileWithPriority :=
  merge_sort notAfter files.

(** Ascending priority, then ascending path. *)
Definition ranked (a b : fileWithPriority) : Prop :=
  (priority a < priority b)%Z \/
  (priority a = priority b /\ String.le (path a) (path b)).

(** The priority of a collected file is that of the parts of its path
    below the root ([.] for the root itself, which has none). *)
Definition rankedByParts (rootPath : string) (f : fileWithPriority) : Prop :=
  (path f = rootPath /\ priority f = 99%Z) \/
  exists relPath,
    path f = rootPath +:+ String "/" relPath /\
    priority f = priorityOf (Split relPath "/").

(** Where the walk stands: at the root, or at an entry [name] below it,
    reached through the directories of [relDir]. *)
Definition walkAt (rootPath filePath relPath name : string) : Prop :=
  (relPath = "." /\ filePath = rootPath) \/
  (filePath = rootPath +:+ String "/" relPath /\
   (relPath = name \/ exists relDir, relPath = relDir +:+ String "/" name)).

(** [x] stands somewhere before [y] in [l]. *)
Definition precedes {A} (x y : A) (l : list A) : Prop :=
  exists l1 l2 l3, l = l1 ++ x :: l2 ++ y :: l3.

Definition collectFiles (root : node) (rootPath : string)
    (extensions : list string) : string + list string :=
  match walk extensions rootPath "." root [] with
  | inl err => inl err
  | inr files => inr (map path (sort_Slice files))
  end.

(** *** The tree, read apart from the walk *)

(** The plain files at and below [n]: for each, the names of the
    directories passed from [n] down to it, its own name and its size. *)
Fixpoint plainFiles (n : node) : list (list string * string * Z) :=
  match n with
  | File name size => [([], name, size)]
  | Dir dirName children =>
      map (fun f => (dirName :: fst (fst f), snd (fst f), snd f))
          (concat (map plainFiles children))
  | Broken _ _ => []
  end.

(** The entries at and below [n] that the walk cannot read, each with the
    directories passed from [n] down to it and its error. *)
Fixpoint brokenEntries (n : node) : list (list string * string) :=
  match n with
  | File _ _ => []
  | Dir dirName children =>
      map (fun b => (dirName :: fst b, snd b))
          (concat (map brokenEntries children))
  | Broken _ err => [([], err)]
  end.

(** The path of a plain file below a node that the walk meets at
    [filePath]. *)
Definition pathFrom (filePath : string) (f : list string * string * Z) : string :=
  match fst (fst f) with
  | [] => filePath
  | _ :: below => Join (filePath :: below ++ [snd (fst f)]) "/"
  end.

(** The test on a directory name that answers [SkipDir]. *)
Definition skipped (dirName : string) : bool :=
  bool_decide (dirName ∈ skipDirs) || HasPrefix dirName ".".

(** Every directory of [dirs] is entered by a walk that skips the
    directories that [skip] names. *)
Definition enteredBy (skip : string -> bool) (dirs : list string) : bool :=
  forallb (fun dirName => negb (skip dirName)) dirs.

(** A plain file that such a walk takes: every directory on the way is
    entered, the extension is asked for and the size is at most 1 MiB. *)
Definition wantedBy (skip : string -> bool) (extensions : list string)
    (filePath : string) (f : list string * string * Z) : bool :=
  enteredBy skip (fst (fst f))
  && contains extensions (Ext (pathFrom filePath f))
  && (snd f <=? 1024 * 1024)%Z.

(** The errors of the unreadable entries that such a walk reaches. *)
Definition reachedBy (skip : string -> bool) (n : node) : list string :=
  map snd (List.filter (fun b => enteredBy skip (fst b)) (brokenEntries n)).

Definition collectable : list string -> string -> list string * string * Z -> bool :=
  wantedBy skipped.

Definition reachedErrors : node -> list string := reachedBy skipped.

End Collector.

(* ===================================================================== *)
(** ** [Indexer], [IncrementalIndexer]: the pipeline                      *)
(* ===================================================================== *)

Module Pipeline.
Import GoStrings State Chunker.

Definition FileBatchSize : nat := 50.
Definition ChunkBatchSize : nat := 100.

(** What a run does to the outside world and to its progress record, in
    the order in which it happens, with the error of each call that can
    fail. [EvEmbedBatch] and [EvUpsert] carry the chunks whose texts are
    embedded and whose points are stored; [EvDelete] is the store's
    delete filtered by a file path, whose outcome only reaches the log. *)
Inductive Event :=
| EvReadFile (filePath : string)
| EvStat (filePath : string)
| EvMarkProcessed (filePath : string) (chunksCount : Z)
| EvMarkFailed (filePath errorMsg : string)
| EvSetStatus (status : string)
| EvEmbedBatch (chunks : list CodeChunk) (err : option string)
| EvUpsert (chunks : list CodeChunk) (err : option string)
| EvDelete (filePath : string)
| EvSave (state : IndexingState) (err : option string).

(** The collaborators. Each answer may depend on the events so far. *)
Record Env := mkEnv {
  (** [os.ReadFile]: the error text or the content *)
  readFile : string -> string + string;
  (** [os.IsNotExist] of the error of [os.Stat] *)
  notExist : string -> bool;
  (** what [filepath.Walk] meets at a root path *)
  tree : string -> Collector.node;
  (** the error, if any, of [embedder.EmbedBatch] *)
  embedBatch : list Event -> list CodeChunk -> option string;
  (** the error, if any, of [vectorDB.Upsert] *)
  upsert : list Event -> list CodeChunk -> option string;
  (** the error, if any, of writing the state file *)
  writeState : list Event -> IndexingState -> option string;
  (** [ctx.Done()] is closed *)
  ctxDone : list Event -> bool
}.

(** [chunkFile]: the read, then [Chunker.chunkText]. *)
Definition chunkFile (E : Env) (filePath : string) (trace : list Event)
    : list Event * (string + list CodeChunk) :=
  (trace ++ [EvReadFile filePath],
   match readFile E filePath with
   | inl err => inl err
   | inr text => inr (chunkText filePath text)
   end).

(** [indexBatch]: one [EmbedBatch] call and, if it succeeds, one [Upsert]
    call. *)
Definition indexBatch (E : Env) (chunks : list CodeChunk) (trace : list Event)
    : list Event * option string :=
  match embedBatch E trace chunks with
  | Some err => (trace ++ [EvEmbedBatch chunks (Some err)], Some err)
  | None =>
      let trace1 := trace ++ [EvEmbedBatch chunks None] in
      let err := upsert E trace1 chunks in
      (trace1 ++ [EvUpsert chunks err], err)
  end.

(** The state of a run: the progress record in memory, the content of the
    state file ([None]: missing or unreadable) and the trace. *)
Record Run := mkRun {
  state : IndexingState;
  disk : option IndexingState;
  trace : list Event
}.

Definition mark (r : Run) (st : IndexingState) (ev : Event) : Run :=
  {| state := st; disk := disk r; trace := trace r ++ [ev] |}.

Definition withTrace (r : Run) (tr : list Event) : Run :=
  {| state := state r; disk := disk r; trace := tr |}.

(** [state.Save(idx.statePath)]: on success the file holds the record. *)
Definition Save (E : Env) (r : Run) : Run * option string :=
  let err := writeState E (trace r) (state r) in
  ({| state := state r;
      disk := match err with None => Some (state r) | Some _ => disk r end;
      trace := trace r ++ [EvSave (state r) err] |},
   err).

Definition setFilePath (filePath : string) (c : CodeChunk) : CodeChunk :=
  {| FilePath := filePath;
     Content := Content c;
     LineStart := LineStart c;
     LineEnd := LineEnd c;
     Language := Language c |}.

(** The first loop of [processBatch], one file. *)
Definition chunkStep (E : Env) (acc : Run * list CodeChunk) (filePath : string)
    : Run * list CodeChunk :=
  let '(r, allChunks) := acc in
  let '(trace1, res) := chunkFile E filePath (trace r) in
  let r1 := withTrace r trace1 in
  match res with
  | inl err =>
      (mark r1 (MarkFileFailed (state r1) filePath err)
            (EvMarkFailed filePath err), allChunks)
  | inr chunks =>
      if (length chunks =? 0)%nat then
        (mark r1 (MarkFileProcessed (state r1) filePath 0)
              (EvMarkProcessed filePath 0), allChunks)
      else
        let chunks := map (setFilePath filePath) chunks in
        (mark r1 (MarkFileProcessed (state r1) filePath (Z.of_nat (length chunks)))
              (EvMarkProcessed filePath (Z.of_nat (length chunks))),
         allChunks ++ chunks)
  end.

(** The second loop of [processBatch], over the sub-batches that remain:
    the first failing [indexBatch] ends it with an error. *)
Fixpoint embedLoop (E : Env) (allChunks : list CodeChunk)
    (ws : list (nat * nat)) (trace : list Event) : list Event * option string :=
  match ws with
  | [] => (trace, None)
  | (i, end_) :: ws' =>
      let chunkBatch := slice allChunks i end_ in
      match indexBatch E chunkBatch trace with
      | (trace1, Some err) =>
          (trace1, Some ("failed to index chunk batch: " +:+ err))
      | (trace1, None) => embedLoop E allChunks ws' trace1
      end
  end.

Definition processBatch (E : Env) (files : list string) (r : Run)
    : Run * option string :=
  let '(r1, allChunks) := fold_left (chunkStep E) files (r, []) in
  if (length allChunks =? 0)%nat then (r1, None)
  else
    let '(trace2, err) :=
      embedLoop E allChunks
        (windows ChunkBatchSize ChunkBatchSize (length allChunks) 0) (trace r1) in
    (withTrace r1 trace2, err).

(** [state.SetStatus("completed")] followed by [state.Save]. *)
Definition complete (E : Env) (r : Run) : Run :=
  fst (Save E (mark r (SetStatus (state r) "completed") (EvSetStatus "completed"))).

(** The batch loop of [IndexDirectoryIncremental], over the batches that
    remain. *)
Fixpoint batchLoop (E : Env) (filesToProcess : list string)
    (ws : list (nat * nat)) (r : Run) : Run * option string :=
  match ws with
  | [] => (complete E r, None)
  | (i, end_) :: ws' =>
      if ctxDone E (trace r) then (fst (Save E r), Some "context canceled")
      else
        let batch := slice filesToProcess i end_ in
        let '(r1, _) := processBatch E batch r in
        let '(r2, _) := Save E r1 in
        batchLoop E filesToProcess ws' r2
  end.

(** The test that sends a run to a fresh progress record: the state file
    does not load, or is of another root, or of a completed run. *)
Definition startsFresh (loaded : option IndexingState) (path : string) : bool :=
  match loaded with
  | None => true
  | Some st =>
      negb (String.eqb (RootPath st) path) || String.eqb (Status st) "completed"
  end.

(** The progress record a run starts from. *)
Definition startState (loaded : option IndexingState) (path : string)
    : IndexingState :=
  match loaded with
  | None => NewIndexingState path
  | Some st => if startsFresh loaded path then NewIndexingState path else st
  end.

(** The files of [allFiles] that the progress record does not mark as
    processed. *)
Definition remaining (st : IndexingState) (allFiles : list string) : list string :=
  List.filter (fun file => negb (IsFileProcessed st file)) allFiles.

(** [IndexDirectoryIncremental] from the progress record on. *)
Definition indexFrom (E : Env) (st : IndexingState)
    (onDisk : option IndexingState) (path : string) (extensions : list string)
    : Run * option string :=
  match Collector.collectFiles (tree E path) path extensions with
  | inl err =>
      ({| state := st; disk := onDisk; trace := [] |},
       Some ("failed to collect files: " +:+ err))
  | inr allFiles =>
      let st := setTotalFiles st (Z.of_nat (length allFiles)) in
      let r := {| state := st; disk := onDisk; trace := [] |} in
      let filesToProcess := remaining st allFiles in
      if (length filesToProcess =? 0)%nat then (complete E r, None)
      else
        batchLoop E filesToProcess
          (windows FileBatchSize FileBatchSize (length filesToProcess) 0) r
  end.

Definition IndexDirectoryIncremental (E : Env) (onDisk : option IndexingState)
    (path : string) (extensions : list string) : Run * option string :=
  indexFrom E (startState onDisk path) onDisk path extensions.

(** The loop of [ReindexFiles], one path. *)
Definition reindexStep (E : Env) (acc : list Event * list CodeChunk)
    (filePath : string) : list Event * list CodeChunk :=
  let '(trace, allChunks) := acc in
  let trace1 := trace ++ [EvDelete filePath] in
  let trace2 := trace1 ++ [EvStat filePath] in
  if notExist E filePath then (trace2, allChunks)
  else
    match chunkFile E filePath trace2 with
    | (trace3, inl _) => (trace3, allChunks)
    | (trace3, inr chunks) =>
        if (length chunks =? 0)%nat then (trace3, allChunks)
        else (trace3, allChunks ++ chunks)
    end.

Definition ReindexFiles (E : Env) (filePaths : list string) (trace : list Event)
    : list Event * option string :=
  let '(trace1, allChunks) := fold_left (reindexStep E) filePaths (trace, []) in
  if (length allChunks =? 0)%nat then (trace1, None)
  else
    match indexBatch E allChunks trace1 with
    | (trace2, Some err) => (trace2, Some ("failed to index chunks: " +:+ err))
    | (trace2, None) => (trace2, None)
    end.

(** *** [Indexer.IndexDirectory]: the run without a progress record *)

(** The test of its walk function on a directory name. *)
Definition skippedPlain (dirName : string) : bool :=
  String.eqb dirName "node_modules"
  || String.eqb dirName ".git"
  || String.eqb dirName "vendor"
  || String.eqb dirName "__pycache__"
  || String.eqb dirName ".venv"
  || String.eqb dirName "venv"
  || HasPrefix dirName ".".

(** Its walk function on a plain file: the file is read and chunked on
    the spot; an error of the read only reaches the log. *)
Definition visitAndChunk (E : Env) (extensions : list string)
    (filePath : string) (size : Z) (acc : list Event * list CodeChunk)
    : list Event * list CodeChunk :=
  if negb (Collector.contains extensions (Ext filePath)) then acc
  else if (size >? 1024 * 1024)%Z then acc
  else
    match chunkFile E filePath (fst acc) with
    | (trace1, inl _) => (trace1, snd acc)
    | (trace1, inr fileChunks) => (trace1, snd acc ++ fileChunks)
    end.

(** [filepath.Walk] with this walk function: the trace and the chunks
    so far, and the error that stopped the walk, if any. *)
Fixpoint walkAndChunk (E : Env) (extensions : list string) (filePath : string)
    (n : Collector.node) (acc : list Event * list CodeChunk)
    : (list Event * list CodeChunk) * option string :=
  match n with
  | Collector.Broken _ err => (acc, Some err)
  | Collector.File _ size => (visitAndChunk E extensions filePath size acc, None)
  | Collector.Dir dirName children =>
      if skippedPlain dirName then (acc, None)
      else
        (fix walkAll (entries : list Collector.node)
             (acc : list Event * list CodeChunk) :=
           match entries with
           | [] => (acc, None)
           | entry :: entries' =>
               match walkAndChunk E extensions
                       (JoinPath filePath (Collector.nodeName entry)) entry acc with
               | (acc', Some err) => (acc', Some err)
               | (acc', None) => walkAll entries' acc'
               end
           end) children acc
  end.

(** Its loop over the batches of 100 chunks that remain. *)
Fixpoint indexLoop (E : Env) (chunks : list CodeChunk)
    (ws : list (nat * nat)) (trace : list Event) : list Event * option string :=
  match ws with
  | [] => (trace, None)
  | (i, end_) :: ws' =>
      let batch := slice chunks i end_ in
      match indexBatch E batch trace with
      | (trace1, Some err) => (trace1, Some ("failed to index batch: " +:+ err))
      | (trace1, None) => indexLoop E chunks ws' trace1
      end
  end.

Definition IndexDirectory (E : Env) (path : string) (extensions : list string)
    (trace : list Event) : list Event * option string :=
  match walkAndChunk E extensions path (tree E path) (trace, []) with
  | ((trace1, _), Some err) =>
      (trace1, Some ("failed to walk directory: " +:+ err))
  | ((trace1, chunks), None) =>
      if (length chunks =? 0)%nat then (trace1, Some "no files found to index")
      else
        let batchSize := 100%nat in
        indexLoop E chunks (windows batchSize batchSize (length chunks) 0) trace1
  end.

(** The files that its walk takes, in the order of the walk. *)
Definition plainWalkFiles (E : Env) (path : string) (extensions : list string)
    : list string :=
  map (Collector.pathFrom path)
      (List.filter (Collector.wantedBy skippedPlain extensions path)
                   (Collector.plainFiles (tree E path))).

(** *** Reading a trace *)

(** The files that an event is about. *)
Definition eventFiles (ev : Event) : list string :=
  match ev with
  | EvReadFile f | EvStat f | EvMarkProcessed f _ | EvMarkFailed f _
  | EvDelete f => [f]
  | EvEmbedBatch chunks _ | EvUpsert chunks _ => map FilePath chunks
  | EvSetStatus _ | EvSave _ _ => []
  end.

(** A call to the embedding service or to the vector store's upsert. *)
Definition storeCall (ev : Event) : bool :=
  match ev with
  | EvEmbedBatch _ _ | EvUpsert _ _ => true
  | _ => false
  end.

(** A call to the embedding service. *)
Definition embedCall (ev : Event) : bool :=
  match ev with
  | EvEmbedBatch _ _ => true
  | _ => false
  end.

(** The status that an event sets, if it sets one. *)
Definition statusSet (ev : Event) : option string :=
  match ev with
  | EvSetStatus status => Some status
  | _ => None
  end.

(** What holds of every event of a run: it is about files still to be
    processed, and the only status it may set is [completed]. *)
Definition runEvent (files : list string) (ev : Event) : Prop :=
  eventFiles ev ⊆ files /\
  forall s, statusSet ev = Some s -> s = "completed".

(** A step of the chunking loop: a read or a mark. *)
Definition chunkingEvent (ev : Event) : bool :=
  match ev with
  | EvReadFile _ | EvMarkProcessed _ _ | EvMarkFailed _ _ => true
  | _ => false
  end.

(** The chunks that the trace shows as stored: those of the upserts
    that succeeded. *)
Definition storedChunks (trace : list Event) : list CodeChunk :=
  concat (map (fun ev => match ev with
                         | EvUpsert chunks None => chunks
                         | _ => []
                         end) trace).

(** The chunks of a file as [chunkFile] returns them, none on an error. *)
Definition chunksOf (E : Env) (filePath : string) : list CodeChunk :=
  match readFile E filePath with
  | inl _ => []
  | inr text => chunkText filePath text
  end.

Definition readOk (E : Env) (filePath : string) : bool :=
  match readFile E filePath with
  | inl _ => false
  | inr _ => true
  end.

(** The events of one turn of the chunking loop. *)
Definition chunkEvents (E : Env) (filePath : string) : list Event :=
  [ EvReadFile filePath;
    match readFile E filePath with
    | inl err => EvMarkFailed filePath err
    | inr text => EvMarkProcessed filePath (Z.of_nat (length (chunkText filePath text)))
    end ].

(** The progress record after one turn of the chunking loop. *)
Definition chunkMark (E : Env) (st : IndexingState) (filePath : string)
    : IndexingState :=
  match readFile E filePath with
  | inl err => MarkFileFailed st filePath err
  | inr text =>
      MarkFileProcessed st filePath (Z.of_nat (length (chunkText filePath text)))
  end.

(** The events of one turn of the loop of [ReindexFiles]. *)
Definition reindexEvents (E : Env) (filePath : string) : list Event :=
  [EvDelete filePath; EvStat filePath]
  ++ (if notExist E filePath then [] else [EvReadFile filePath]).

(** The chunks that one turn of the loop of [ReindexFiles] adds. *)
Definition reindexChunks (E : Env) (filePath : string) : list CodeChunk :=
  if notExist E filePath then [] else chunksOf E filePath.

(** The number of delete calls for [filePath] in a trace, and the number
    of times [filePath] is asked for in a request. *)
Definition deleteCalls (filePath : string) (trace : list Event) : nat :=
  length (List.filter (fun ev => match ev with
                                 | EvDelete f => String.eqb f filePath
                                 | _ => false
                                 end) trace).

Definition requests (filePath : string) (filePaths : list string) : nat :=
  length (List.filter (fun f => String.eqb f filePath) filePaths).

(** A call to the embedding service or to the store that failed. *)
Definition failedCall (ev : Event) : bool :=
  match ev with
  | EvEmbedBatch _ (Some _) | EvUpsert _ (Some _) => true
  | _ => false
  end.

(** *** Two small worlds *)

(** One Go file below [/repo]; every collaborator works. *)
Definition demoEnv : Env :=
  {| readFile := fun _ => inr "package main";
     notExist := fun _ => false;
     tree := fun _ => Collector.Dir "repo" [Collector.File "main.go" 12];
     embedBatch := fun _ _ => None;
     upsert := fun _ _ => None;
     writeState := fun _ _ => None;
     ctxDone := fun _ => false |}.

Definition demoFirstRun : Run * option string :=
  IndexDirectoryIncremental demoEnv None "/repo" [".go"].

Definition demoSecondRun : Run * option string :=
  IndexDirectoryIncremental demoEnv (disk (fst demoFirstRun)) "/repo" [".go"].

(** As [demoEnv], but no file exists any more. *)
Definition goneEnv : Env :=
  {| readFile := fun _ => inl "no such file or directory";
     notExist := fun _ => true;
     tree := fun _ => Collector.Dir "repo" [];
     embedBatch := fun _ _ => None;
     upsert := fun _ _ => None;
     writeState := fun _ _ => None;
     ctxDone := fun _ => false |}.

(** Every file has 4100 lines, hence 103 chunks; the store accepts one
    upsert and fails from the second on. *)
Definition bigEnv : Env :=
  {| readFile := fun _ => inr (textOf (replicate 4100 "x"));
     notExist := fun _ => false;
     tree := fun _ => Collector.Dir "repo" [Collector.File "big.go" 8200];
     embedBatch := fun _ _ => None;
     upsert := fun trace _ =>
       if existsb (fun ev => match ev with EvUpsert _ _ => true | _ => false end) trace
       then Some "store unavailable" else None;
     writeState := fun _ _ => None;
     ctxDone := fun _ => false |}.

(** As [demoEnv], but the embedding service is down. *)
Definition deafEnv : Env :=
  {| readFile := readFile demoEnv;
     notExist := notExist demoEnv;
     tree := tree demoEnv;
     embedBatch := fun _ _ => Some "connection refused";
     upsert := upsert demoEnv;
     writeState := writeState demoEnv;
     ctxDone := ctxDone demoEnv |}.

(** As [demoEnv], but the context is cancelled from the start. *)
Definition cancelledEnv : Env :=
  {| readFile := readFile demoEnv;
     notExist := notExist demoEnv;
     tree := tree demoEnv;
     embedBatch := embedBatch demoEnv;
     upsert := upsert demoEnv;
     writeState := writeState demoEnv;
     ctxDone := fun _ => true |}.


Definition bigBatch : Run * option string :=
  processBatch bigEnv ["/repo/big.go"]
    {| state := NewIndexingState "/repo"; disk := None; trace := [] |}.

End Pipeline.

(* ===================================================================== *)
(** ** [LocalEmbedder]: sub-batches of an embedding request              *)
(* ===================================================================== *)

Module Embedder.
Import GoStrings.

(** The fields [maxBatchSize] and [maxTokensHint] as [NewLocalEmbedder]
    sets them. *)
Definition maxBatchSize : nat := 20.
Definition maxTokensHint : Z := 28000.

(** [estimateTokens]; [len(text)] counts bytes. The sums stay far below
    the range of [int] for texts that fit into memory. *)
Definition estimateTokens (texts : list string) : Z :=
  let totalChars :=
    fold_left (fun totalChars text => totalChars + Z.of_nat (String.length text))%Z
              texts 0%Z in
  let totalChars := (totalChars + Z.of_nat (length texts) * 100)%Z in
  (totalChars ÷ 4)%Z.

(** The end of the sub-batch of the window [texts[i:end]]: the end of the
    window, or an earlier one when the estimate for the window is above
    the hint. *)
Definition subBatchEnd (texts : list string) (w : nat * nat) : nat :=
  let '(i, end_) := w in
  let estimatedTokens := estimateTokens (slice texts i end_) in
  if (estimatedTokens >? maxTokensHint)%Z then
    let reducedSize := ((Z.of_nat maxBatchSize * maxTokensHint) ÷ estimatedTokens)%Z in
    let reducedSize := if (reducedSize <? 1)%Z then 1%Z else reducedSize in
    let end_ := (Z.of_nat i + reducedSize)%Z in
    if (end_ >? Z.of_nat (length texts))%Z then length texts else Z.to_nat end_
  else end_.

Definition subBatch (texts : list string) (w : nat * nat) : list string :=
  slice texts (fst w) (subBatchEnd texts w).

Section Service.
(** The embedding service, vectors of any kind: [embedBatchDirect]
    answers a request, which may depend on the requests before it, with
    an error or with the vectors of its response. *)
Context {V : Type}.
Variable embedBatchDirect : list (list string) -> list string -> string + list V.

(** The loop of [EmbedBatch] over the windows that remain; [calls] are
    the requests made so far. *)
Fixpoint subBatchLoop (texts : list string) (ws : list (nat * nat))
    (calls : list (list string)) (allEmbeddings : list V)
    : list (list string) * (string + list V) :=
  match ws with
  | [] => (calls, inr allEmbeddings)
  | w :: ws' =>
      let batch := subBatch texts w in
      match embedBatchDirect calls batch with
      | inl err =>
          (calls ++ [batch],
           inl ("failed to embed sub-batch ["
                +:+ Itoa (Z.of_nat (fst w)) +:+ ":"
                +:+ Itoa (Z.of_nat (subBatchEnd texts w)) +:+ "]: " +:+ err))
      | inr embeddings =>
          subBatchLoop texts ws' (calls ++ [batch]) (allEmbeddings ++ embeddings)
      end
  end.

Definition EmbedBatch (texts : list string) (calls : list (list string))
    : list (list string) * (string + list V) :=
  if (length texts <=? maxBatchSize)%nat
     && (estimateTokens texts <=? maxTokensHint)%Z
  then (calls ++ [texts], embedBatchDirect calls texts)
  else subBatchLoop texts
         (windows maxBatchSize maxBatchSize (length texts) 0) calls [].

(** [Embed]: the first vector of the batch of one text; [embeddings[0]]
    panics on an empty response, which is [None] here. *)
Definition Embed (text : string) (calls : list (list string))
    : list (list string) * option (string + V) :=
  match EmbedBatch [text] calls with
  | (calls1, inl err) => (calls1, Some (inl err))
  | (calls1, inr []) => (calls1, None)
  | (calls1, inr (v :: _)) => (calls1, Some (inr v))
  end.

(** A service that answers every request with one vector per text. *)
Definition answersAll : Prop :=
  forall calls batch, exists embeddings,
    embedBatchDirect calls batch = inr embeddings /\
    length embeddings = length batch.
End Service.

(** A service that answers with the length of each text. *)
Definition lengthService : list (list string) -> list string -> string + list nat :=
  fun _ batch => inr (map String.length batch).

(** [strings.Repeat] of a one-byte string. *)
Fixpoint repeatByte (n : nat) (c : ascii) : string :=
  match n with
  | O => EmptyString
  | S n' => String c (repeatByte n' c)
  end.

(** Twenty texts of 6000 bytes each. *)
Definition longTexts : list string := replicate 20 (repeatByte (20 * 300) "x").

End Embedder.

(* ===================================================================== *)
(** ** Re-indexing on request: the marker file and the HTTP API           *)
(* ===================================================================== *)

Module Hooks.
Import GoStrings State Chunker Pipeline.

(** [strings.Fields] and [strings.TrimSpace], which the three functions
    below use on the paths they are given, are not looked into. *)
Record Lib := mkLib {
  Fields : string -> list string;
  TrimSpace : string -> string
}.

(** What [os.ReadFile(markerFile)] gives: the content, or an error that
    [os.IsNotExist] recognises or not. *)
Inductive markerRead :=
| MarkerData (data : string)
| MarkerMissing
| MarkerUnreadable.

Record ReindexResponse := mkResponse {
  Success : bool;
  Message : string;
  FilesIndexed : Z;
  Errors : list string
}.

(** What a handler writes: a JSON response with its status code, or the
    text of [http.Error] with its status code. *)
Inductive reply :=
| Json (status : Z) (resp : ReindexResponse)
| HttpError (text : string) (status : Z).

(** The outcome of a run: the trace, whether [os.Remove(markerFile)] was
    called (at the end of the run, when it is), and the reply if any. *)
Record outcome (R : Type) := mkOutcome {
  events : list Event;
  markerRemoved : bool;
  answer : R
}.
Arguments mkOutcome {R}.
Arguments events {R}.
Arguments markerRemoved {R}.
Arguments answer {R}.

(** The paths of a marker file: its fields, trimmed, the empty ones left
    out. *)
Definition markerPaths (L : Lib) (data : string) : list string :=
  List.filter (fun path => negb (String.eqb path ""))
              (map (TrimSpace L) (Fields L data)).

(** The loop of [processPendingReindex]: one [ReindexFiles] call per
    path; an error only reaches the log. *)
Definition countStep (E : Env) (acc : list Event * Z) (filePath : string)
    : list Event * Z :=
  match ReindexFiles E [filePath] (fst acc) with
  | (trace1, Some _) => (trace1, snd acc)
  | (trace1, None) => (trace1, (snd acc + 1)%Z)
  end.

Definition processPendingReindex (L : Lib) (E : Env) (marker : markerRead)
    (trace : list Event) : outcome Z :=
  match marker with
  | MarkerData data =>
      let filePaths := markerPaths L data in
      if (length filePaths =? 0)%nat then mkOutcome trace true 0%Z
      else
        let '(trace1, successCount) := fold_left (countStep E) filePaths (trace, 0%Z) in
        mkOutcome trace1 true successCount
  | _ => mkOutcome trace false 0%Z
  end.

(** The loop of the two handlers: as above, and the errors are kept for
    the response. *)
Definition collectStep (E : Env) (acc : list Event * list string * Z)
    (filePath : string) : list Event * list string * Z :=
  let '(trace, errors, successCount) := acc in
  match ReindexFiles E [filePath] trace with
  | (trace1, Some err) =>
      (trace1, errors ++ [filePath +:+ ": " +:+ err], successCount)
  | (trace1, None) => (trace1, errors, (successCount + 1)%Z)
  end.

Definition reindexedMessage (successCount : Z) (total : nat) : string :=
  "Reindexed " +:+ Itoa successCount +:+ "/" +:+ Itoa (Z.of_nat total) +:+ " files".

(** The response at the end of both handlers and its status code. *)
Definition reindexReply (errors : list string) (successCount : Z) (total : nat)
    : reply :=
  Json (if (0 <? length errors)%nat then 206 else 200)
       {| Success := (length errors =? 0)%nat;
          Message := reindexedMessage successCount total;
          FilesIndexed := successCount;
          Errors := errors |}.

(** [handleReindexPending], from the reading of the marker file on. *)
Definition handleReindexPending (L : Lib) (E : Env) (method : string)
    (marker : markerRead) (trace : list Event) : outcome reply :=
  if negb (String.eqb method "POST")
  then mkOutcome trace false (HttpError "Method not allowed" 405)
  else
    match marker with
    | MarkerMissing =>
        mkOutcome trace false
          (Json 200 {| Success := true; Message := "No pending reindex requests";
                       FilesIndexed := 0; Errors := [] |})
    | MarkerUnreadable =>
        mkOutcome trace false (HttpError "Failed to read marker file" 500)
    | MarkerData data =>
        let filePaths := markerPaths L data in
        if (length filePaths =? 0)%nat then
          mkOutcome trace true
            (Json 200 {| Success := true; Message := "Marker file was empty";
                         FilesIndexed := 0; Errors := [] |})
        else
          let '(trace1, errors, successCount) :=
            fold_left (collectStep E) filePaths (trace, [], 0%Z) in
          mkOutcome trace1 (length errors =? 0)%nat
            (reindexReply errors successCount (length filePaths))
    end.

(** The loop of [handleReindex]: the paths are trimmed on the way and the
    empty ones passed over. *)
Definition trimStep (L : Lib) (E : Env) (acc : list Event * list string * Z)
    (filePath : string) : list Event * list string * Z :=
  let filePath := TrimSpace L filePath in
  if String.eqb filePath "" then acc else collectStep E acc filePath.

(** [handleReindex]; [files] is the decoded request body, [None] when it
    does not decode. *)
Definition handleReindex (L : Lib) (E : Env) (method : string)
    (files : option (list string)) (trace : list Event) : outcome reply :=
  if negb (String.eqb method "POST")
  then mkOutcome trace false (HttpError "Method not allowed" 405)
  else
    match files with
    | None => mkOutcome trace false (HttpError "Invalid request body" 400)
    | Some files =>
        if (length files =? 0)%nat
        then mkOutcome trace false (HttpError "No files specified" 400)
        else
          let '(trace1, errors, successCount) :=
            fold_left (trimStep L E) files (trace, [], 0%Z) in
          mkOutcome trace1 false (reindexReply errors successCount (length files))
    end.

(** The paths that [handleReindex] re-indexes. *)
Definition requestPaths (L : Lib) (files : list string) : list string :=
  List.filter (fun path => negb (String.eqb path "")) (map (TrimSpace L) files).

(** The paths whose [ReindexFiles] call returns an error, when the calls
    are made one after the other from [trace] on. *)
Fixpoint failing (E : Env) (filePaths : list string) (trace : list Event)
    : list string :=
  match filePaths with
  | [] => []
  | filePath :: rest =>
      match ReindexFiles E [filePath] trace with
      | (trace1, Some _) => filePath :: failing E rest trace1
      | (trace1, None) => failing E rest trace1
      end
  end.

(** A library for examples: fields between blanks, nothing trimmed. *)
Definition plainLib : Lib :=
  {| Fields := fun s => List.filter (fun f => negb (String.eqb f "")) (Split s " ");
     TrimSpace := fun s => s |}.

End Hooks.

(* ===================================================================== *)
(** ** From a chunk to a search hit: the payload of a point               *)
(* ===================================================================== *)

Module Payload.
Import GoStrings.

(** [qdrant.Value]: an integer, a string, or a value of another kind. *)
Inductive value :=
| IntegerValue (n : Z)
| StringValue (s : string)
| OtherValue.

(** The getters answer the zero value for a value of another kind. *)
Definition GetIntegerValue (v : value) : Z :=
  match v with IntegerValue n => n | _ => 0%Z end.

Definition GetStringValue (v : value) : string :=
  match v with StringValue s => s | _ => EmptyString end.

(** The payload that [indexBatch] gives the point of a chunk, as
    [qdrant.NewValueMap] converts it. *)
Definition chunkPayload (chunk : Chunker.CodeChunk) : gmap string value :=
  <[ "file_path" := StringValue (Chunker.FilePath chunk) ]>
  (<[ "content" := StringValue (Chunker.Content chunk) ]>
  (<[ "line_start" := IntegerValue (Chunker.LineStart chunk) ]>
  (<[ "line_end" := IntegerValue (Chunker.LineEnd chunk) ]>
  (<[ "language" := StringValue (Chunker.Language chunk) ]> ∅)))).

(** [Upsert] copies the payload and adds the time of indexing. *)
Definition upsertPayload (payload : gmap string value) (indexedAt : string)
    : gmap string value :=
  <[ "_indexed_at" := StringValue indexedAt ]> payload.

(** [qdrant.ScoredPoint], as far as [Search] reads it. *)
Record scoredPoint := mkPoint {
  Id : string;
  Score : Q;
  Payload : gmap string value
}.

(** The body of the loop of [Search]. *)
Definition resultOf (point : scoredPoint) : Dedup.SearchResult :=
  let lineStart :=
    match Payload point !! "line_start" with
    | Some ls => GetIntegerValue ls
    | None => 0%Z
    end in
  let lineEnd :=
    match Payload point !! "line_end" with
    | Some le => GetIntegerValue le
    | None => 0%Z
    end in
  let filePath :=
    match Payload point !! "file_path" with
    | Some fp => GetStringValue fp
    | None => EmptyString
    end in
  let content :=
    match Payload point !! "content" with
    | Some c => GetStringValue c
    | None => EmptyString
    end in
  let language :=
    match Payload point !! "language" with
    | Some l => GetStringValue l
    | None => EmptyString
    end in
  {| Dedup.ID := Id point;
     Dedup.Score := Score point;
     Dedup.FilePath := filePath;
     Dedup.Content := content;
     Dedup.Language := language;
     Dedup.LineStart := lineStart;
     Dedup.LineEnd := lineEnd |}.

(** [Search], from the response of the query on. *)
Definition Search (resp : string + list scoredPoint)
    : string + list Dedup.SearchResult :=
  match resp with
  | inl err => inl err
  | inr points => inr (Dedup.deduplicateResults (map resultOf points))
  end.

(** The point of a chunk as the store returns it. *)
Definition storedPoint (id : string) (score : Q) (indexedAt : string)
    (chunk : Chunker.CodeChunk) : scoredPoint :=
  {| Id := id; Score := score;
     Payload := upsertPayload (chunkPayload chunk) indexedAt |}.

(** The hit that shows a chunk. *)
Definition hitOf (id : string) (score : Q) (chunk : Chunker.CodeChunk)
    : Dedup.SearchResult :=
  {| Dedup.ID := id;
     Dedup.Score := score;
     Dedup.FilePath := Chunker.FilePath chunk;
     Dedup.Content := Chunker.Content chunk;
     Dedup.Language := Chunker.Language chunk;
     Dedup.LineStart := Chunker.LineStart chunk;
     Dedup.LineEnd := Chunker.LineEnd chunk |}.

End Payload.

(* ===================================================================== *)
(** ** [handleSemanticSearch]: the excerpt of a hit                       *)
(* ===================================================================== *)

Module Tools.
Import GoStrings.

(** The content of a hit as the full mode shows it: the first
    [excerptLines] lines and a note, when the content has more lines. *)
Definition excerpt (content : string) (excerptLines : Z) : string :=
  if (excerptLines >? 0)%Z then
    let lines := Split content "010" in
    if (Z.of_nat (length lines) >? excerptLines)%Z then
      Join (slice lines 0 (Z.to_nat excerptLines)) "010"
      +:+ String "010" ("... (" +:+ Itoa (Z.of_nat (length lines) - excerptLines)
                                +:+ " more lines)")
    else content
  else content.

End Tools.

(* ===================================================================== *)
(** * Properties                                                          *)
(* ===================================================================== *)

(** ** Splitting, printing and parsing *)

Section GoStringsFacts.
Import GoStrings.

Lemma app_String c s1 s2 : String c s1 +:+ s2 = String c (s1 +:+ s2).
Proof. reflexivity. Qed.

Lemma app_Empty s : "" +:+ s = s.
Proof. reflexivity. Qed.

Lemma all_bytes_app p s1 s2 :
  all_bytes p (s1 +:+ s2) = all_bytes p s1 && all_bytes p s2.
Proof.
  induction s1 as [|c s1 IH]; [done|].
  rewrite app_String. cbn. by rewrite IH, andb_assoc.
Qed.

Lemma all_bytes_impl (p q : ascii -> bool) s :
  (forall c, p c = true -> q c = true) ->
  all_bytes p s = true -> all_bytes q s = true.
Proof.
  intros Hpq. induction s as [|c s IH]; cbn; [done|].
  intros [Hc Hs]%andb_true_iff. rewrite (Hpq _ Hc). by apply IH.
Qed.

Lemma Split_nonempty s sep : Split s sep <> [].
Proof.
  destruct s as [|c s]; cbn; [done|].
  destruct (Ascii.eqb c sep); [done|]. by destruct (Split s sep).
Qed.

(** Without a separator there is one piece, the string itself. *)
Lemma Split_none s sep :
  all_bytes (byte_isnt sep) s = true -> Split s sep = [s].
Proof.
  induction s as [|c s IH]; cbn; [done|].
  unfold byte_isnt at 1. intros [Hc Hs]%andb_true_iff.
  apply negb_true_iff in Hc. rewrite Hc, (IH Hs). done.
Qed.

(** A first piece free of separators is cut off at the first separator. *)
Lemma Split_first s1 s2 sep :
  all_bytes (byte_isnt sep) s1 = true ->
  Split (s1 +:+ String sep s2) sep = s1 :: Split s2 sep.
Proof.
  induction s1 as [|c s1 IH].
  - intros _. rewrite app_Empty. cbn. by rewrite Ascii.eqb_refl.
  - rewrite app_String. cbn. unfold byte_isnt at 1.
    intros [Hc Hs]%andb_true_iff.
    apply negb_true_iff in Hc. rewrite Hc. by rewrite (IH Hs).
Qed.

Lemma digits_of_uint d : all_bytes isDigit (NilEmpty.string_of_uint d) = true.
Proof. induction d; cbn; try done; by rewrite IHd. Qed.

Lemma isDigit_isnt c sep :
  isDigit sep = false -> isDigit c = true -> byte_isnt sep c = true.
Proof.
  intros Hsep Hc. unfold byte_isnt. apply negb_true_iff.
  destruct (Ascii.eqb_spec c sep) as [->|]; congruence.
Qed.

(** A number that is not negative prints as a non-empty run of digits. *)
Lemma Itoa_digits n :
  (0 <= n)%Z ->
  exists d, Itoa n = NilEmpty.string_of_uint d /\ d <> Decimal.Nil /\
            Z.of_uint d = n.
Proof.
  intros Hn. unfold Itoa. destruct n as [|p|p]; [| |lia].
  - exists (Decimal.D0 Decimal.Nil). done.
  - exists (Pos.to_uint p). split; [done|]. split.
    + intros Hnil. pose proof (DecimalPos.Unsigned.to_uint_nonnil p). done.
    + unfold Z.of_uint. rewrite DecimalPos.Unsigned.of_to. done.
Qed.

Lemma Itoa_all_digits n : (0 <= n)%Z -> all_bytes isDigit (Itoa n) = true.
Proof. intros (d & -> & _)%Itoa_digits. apply digits_of_uint. Qed.

Lemma Atoi_Itoa n : (0 <= n <= maxInt)%Z -> Atoi (Itoa n) = Some n.
Proof.
  intros [Hn Hmax]. destruct (Itoa_digits n Hn) as (d & Hs & Hd & Hv).
  rewrite Hs. pose proof (digits_of_uint d) as Hdig.
  destruct (NilEmpty.string_of_uint d) as [|c s] eqn:Hstr.
  { by destruct d. }
  unfold Atoi. cbn in Hdig. apply andb_true_iff in Hdig as [Hc _].
  assert (Ascii.eqb c "-" = false) as ->.
  { destruct (Ascii.eqb_spec c "-") as [->|]; done. }
  assert (Ascii.eqb c "+" = false) as ->.
  { destruct (Ascii.eqb_spec c "+") as [->|]; done. }
  cbn [orb]. rewrite <- Hstr.
  replace (NilZero.uint_of_string (NilEmpty.string_of_uint d)) with (Some d).
  2:{ symmetry. unfold NilZero.uint_of_string. rewrite Hstr, <- Hstr.
      apply NilEmpty.usu. }
  cbn zeta. rewrite Hv.
  assert ((minInt <=? n)%Z = true) as -> by (unfold minInt; lia).
  assert ((n <=? maxInt)%Z = true) as -> by lia.
  done.
Qed.

End GoStringsFacts.

(** ** De-duplication of search hits *)

Section DedupFacts.
Import GoStrings Dedup.

Lemma Split_pieces s sep piece :
  piece ∈ Split s sep -> all_bytes (byte_isnt sep) piece = true.
Proof.
  revert piece. induction s as [|c s IH]; intros piece; cbn.
  - by intros ->%list_elem_of_singleton.
  - destruct (Ascii.eqb c sep) eqn:Hc.
    + intros [->|Hin]%elem_of_cons; [done|]. by apply IH.
    + destruct (Split s sep) as [|p ps] eqn:Hsplit.
      * intros ->%list_elem_of_singleton. cbn. unfold byte_isnt. by rewrite Hc.
      * intros [->|Hin]%elem_of_cons.
        -- cbn. unfold byte_isnt at 1. rewrite Hc. cbn. apply IH. left.
        -- apply IH. by right.
Qed.

(** A parsed number without a minus sign is a natural number of [int]. *)
Lemma Atoi_unsigned t v :
  all_bytes (byte_isnt "-") t = true -> Atoi t = Some v ->
  (0 <= v <= maxInt)%Z.
Proof.
  destruct t as [|c t]; [done|]. cbn [all_bytes]. unfold byte_isnt at 1.
  intros [Hc _]%andb_true_iff. apply negb_true_iff in Hc.
  unfold Atoi. rewrite Hc. cbn [orb].
  destruct (NilZero.uint_of_string _) as [d|]; [|done].
  cbn zeta. destruct (_ && _) eqn:Hrange; [|done].
  intros [= <-]. apply andb_true_iff in Hrange as [_ Hmax].
  split; [|lia]. unfold Z.of_uint. lia.
Qed.

(** The numbers that [parseRangeKey] hands out are in [0 .. maxInt], so
    the differences that [isOverlapping] forms cannot wrap around; the
    file slot is the placeholder. *)
Lemma parseRangeKey_bounds key file start end_ :
  parseRangeKey key = Some (file, start, end_) ->
  file = 0%Z /\ (0 <= start <= maxInt)%Z /\ (0 <= end_ <= maxInt)%Z.
Proof.
  unfold parseRangeKey.
  destruct (Split key ":") as [|? [|range [|]]]; try done.
  destruct (Split range "-") as [|startText [|endText [|]]] eqn:Hsplit; try done.
  destruct (Atoi startText) as [vs|] eqn:Hs; [|done].
  destruct (Atoi endText) as [ve|] eqn:He; [|done].
  intros [= <- <- <-]. split; [done|]. split.
  - eapply Atoi_unsigned; [|exact Hs].
    apply (Split_pieces range). rewrite Hsplit. left.
  - eapply Atoi_unsigned; [|exact He].
    apply (Split_pieces range). rewrite Hsplit. right. left.
Qed.

Lemma digits_free n sep :
  isDigit sep = false -> (0 <= n)%Z -> all_bytes (byte_isnt sep) (Itoa n) = true.
Proof.
  intros Hsep Hn. eapply all_bytes_impl; [|by apply Itoa_all_digits].
  intros c. by apply isDigit_isnt.
Qed.

(** The key of a hit parses back to its line numbers -- and to nothing
    of its file -- when the path has no colon and the line numbers are
    natural numbers of [int]. *)
Lemma parseRangeKey_rangeKey filePath lineStart lineEnd :
  noColon filePath = true ->
  (0 <= lineStart <= maxInt)%Z -> (0 <= lineEnd <= maxInt)%Z ->
  parseRangeKey (rangeKey filePath lineStart lineEnd) = Some (0%Z, lineStart, lineEnd).
Proof.
  intros Hfile Hs He. unfold parseRangeKey, rangeKey.
  rewrite (Split_first _ _ _ Hfile).
  rewrite Split_none.
  2:{ rewrite all_bytes_app. cbn.
      rewrite !digits_free by (done || lia). done. }
  rewrite Split_first by (apply digits_free; [done|lia]).
  rewrite Split_none by (apply digits_free; [done|lia]).
  by rewrite !Atoi_Itoa.
Qed.

(** The loop of [deduplicateResults] appends [keptFrom seen] to [unique]. *)
Lemma dedup_loop results seen unique :
  snd (fold_left dedupStep results (seen, unique)) = unique ++ keptFrom seen results.
Proof.
  revert seen unique. induction results as [|r rest IH]; intros seen unique; cbn.
  - by rewrite app_nil_r.
  - destruct (existsb _ (elements seen)); [apply IH|].
    rewrite IH, <- app_assoc. done.
Qed.

Lemma deduplicateResults_keptFrom results :
  deduplicateResults results = keptFrom ∅ results.
Proof.
  unfold deduplicateResults. destruct results as [|r rest]; [done|].
  cbn [length Nat.eqb]. by rewrite dedup_loop.
Qed.

Lemma keptFrom_idempotent results seen :
  keptFrom seen (keptFrom seen results) = keptFrom seen results.
Proof.
  revert seen. induction results as [|r rest IH]; intros seen; cbn; [done|].
  destruct (existsb _ (elements seen)) eqn:Hdup; [apply IH|].
  cbn. rewrite Hdup. f_equal. apply IH.
Qed.

(** Two hits: the second is dropped exactly when its key overlaps the
    first one's. *)
Lemma deduplicateResults_pair h1 h2 :
  deduplicateResults [h1; h2] =
  if isOverlapping (keyOf h1) (keyOf h2) then [h1] else [h1; h2].
Proof.
  rewrite deduplicateResults_keptFrom. cbn.
  rewrite elements_empty. cbn.
  rewrite union_empty_r_L, elements_singleton. cbn.
  rewrite orb_false_r. by destruct (isOverlapping _ _).
Qed.

(** [isOverlapping] on the keys of two hits reads the line numbers only:
    the paths, when free of colons, play no part. *)
Lemma isOverlapping_ignores_file f1 f2 g1 g2 s1 e1 s2 e2 :
  noColon f1 = true -> noColon f2 = true ->
  noColon g1 = true -> noColon g2 = true ->
  isOverlapping (rangeKey f1 s1 e1) (rangeKey f2 s2 e2) =
  isOverlapping (rangeKey g1 s1 e1) (rangeKey g2 s2 e2).
Proof.
  intros Hf1 Hf2 Hg1 Hg2. unfold isOverlapping, parseRangeKey, rangeKey.
  by rewrite !Split_first by done.
Qed.

End DedupFacts.

Section DedupClaims.
Import GoStrings Dedup.

(** C9. De-duplication is idempotent: applied to its own output, for any
    list of hits, [deduplicateResults] returns that output unchanged. *)
Theorem dedup_idempotent (results : list SearchResult) :
  deduplicateResults (deduplicateResults results) = deduplicateResults results.
Proof.
  rewrite !deduplicateResults_keptFrom. apply keptFrom_idempotent.
Qed.

(** C2. The code at a request that the claim rules out: two hits from two
    different files, [a.go] lines 1-50 and [b.go] lines 1-50, are
    de-duplicated against each other, and only the first survives.
    [parseRangeKey] puts the constant [0] in the file slot, so the test
    "different files = not overlapping" of [isOverlapping] never fires. *)
Theorem dedup_drops_hit_of_other_file :
  deduplicateResults
    [ mkSearchResult "id1" (9 # 10) "a.go" "package a" 1 50 "go";
      mkSearchResult "id2" (8 # 10) "b.go" "package b" 1 50 "go" ]
  = [ mkSearchResult "id1" (9 # 10) "a.go" "package a" 1 50 "go" ].
Proof. vm_compute. reflexivity. Qed.

(** The same for any two paths without a colon and any ranges: whether
    the second hit is dropped does not depend on the two paths. *)
Lemma dedup_pair_ignores_file (h1 h2 : SearchResult) (g : string) :
  noColon (FilePath h1) = true -> noColon (FilePath h2) = true ->
  noColon g = true ->
  isOverlapping (keyOf h1) (keyOf h2) =
  isOverlapping (rangeKey g (LineStart h1) (LineEnd h1))
                (rangeKey g (LineStart h2) (LineEnd h2)).
Proof. intros. unfold keyOf. by apply isOverlapping_ignores_file. Qed.

(** The three cases of the 50% threshold, for any file whose path has no
    colon: ranges 1-50 and 40-90 are both kept, ranges 1-50 and 26-75 are
    both kept, and of ranges 1-50 and 20-70 the second, lower-ranked hit
    is dropped. *)
Lemma dedup_threshold_colon_free (filePath id1 id2 c1 c2 l1 l2 : string) (sc1 sc2 : Q) :
  noColon filePath = true ->
  let hit1 := mkSearchResult id1 sc1 filePath c1 1 50 l1 in
  deduplicateResults [hit1; mkSearchResult id2 sc2 filePath c2 40 90 l2]
    = [hit1; mkSearchResult id2 sc2 filePath c2 40 90 l2] /\
  deduplicateResults [hit1; mkSearchResult id2 sc2 filePath c2 26 75 l2]
    = [hit1; mkSearchResult id2 sc2 filePath c2 26 75 l2] /\
  deduplicateResults [hit1; mkSearchResult id2 sc2 filePath c2 20 70 l2]
    = [hit1].
Proof.
  intros Hfile hit1. rewrite !deduplicateResults_pair.
  unfold isOverlapping, keyOf, hit1. cbn [FilePath LineStart LineEnd].
  rewrite !parseRangeKey_rangeKey by (done || (unfold maxInt; lia)).
  done.
Qed.

(** C4. The code at a request on which the claim fails: two hits from the
    same file [C:\repo\main.go] with ranges 1-50 and 20-70 are both kept.
    The key [C:\repo\main.go:1-50] has two colons, [parseRangeKey] asks
    for exactly one and gives up, and [isOverlapping] answers [false]. *)
Theorem dedup_threshold_colon_path :
  deduplicateResults
    [ mkSearchResult "id1" (9 # 10) "C:\repo\main.go" "package main" 1 50 "go";
      mkSearchResult "id2" (8 # 10) "C:\repo\main.go" "func main()" 20 70 "go" ]
  = [ mkSearchResult "id1" (9 # 10) "C:\repo\main.go" "package main" 1 50 "go";
      mkSearchResult "id2" (8 # 10) "C:\repo\main.go" "func main()" 20 70 "go" ].
Proof. vm_compute. reflexivity. Qed.

End DedupClaims.

(** ** Chunking *)

Section ChunkerFacts.
Import GoStrings Chunker.

Lemma windows_step size stride n i :
  windows size stride n i =
  match stride with
  | O => []
  | S _ =>
      if lt_dec i n
      then (i, Nat.min (i + size) n) :: windows size stride n (i + stride)
      else []
  end.
Proof.
  destruct stride as [|s]; simp windows; [done|].
  destruct (lt_dec i n); simp windows; done.
Qed.

(** Every window is a non-empty range of indices below [n]. *)
Lemma windows_bounds size stride n i w :
  (0 < size)%nat -> w ∈ windows size stride n i ->
  (i <= fst w)%nat /\ (fst w < snd w)%nat /\ (snd w <= n)%nat /\
  snd w = Nat.min (fst w + size) n.
Proof.
  intros Hsize. remember (n - i)%nat as k eqn:Hk. revert i Hk.
  induction k as [k IH] using lt_wf_ind. intros i Hk.
  rewrite windows_step. destruct stride as [|s]; [by intros ?%elem_of_nil|].
  destruct (lt_dec i n) as [Hlt|]; [|by intros ?%elem_of_nil].
  intros [->|Hin]%elem_of_cons; [cbn; lia|].
  apply (IH (n - (i + S s))%nat) in Hin; [|lia|done]. lia.
Qed.

Lemma chunkLoop_app filePath lines ws chunks :
  chunkLoop filePath lines ws chunks = chunks ++ chunkLoop filePath lines ws [].
Proof.
  revert chunks. induction ws as [|[i e] ws IH]; intros chunks; cbn.
  - by rewrite app_nil_r.
  - destruct (TrimSpace_is_empty _); [apply IH|].
    destruct (e =? length lines)%nat; [done|].
    rewrite IH, (IH [_]). by rewrite <- app_assoc.
Qed.

(** One turn of the loop. *)
Lemma chunkLoop_cons filePath lines w ws :
  chunkLoop filePath lines (w :: ws) [] =
  if blankWindow lines w then chunkLoop filePath lines ws []
  else windowChunk filePath lines w ::
       (if (snd w =? length lines)%nat then [] else chunkLoop filePath lines ws []).
Proof.
  destruct w as [i e]. unfold blankWindow, windowChunk.
  cbn [chunkLoop fst snd app].
  destruct (TrimSpace_is_empty _); [done|].
  destruct (e =? length lines)%nat; [done|].
  by rewrite chunkLoop_app.
Qed.

(** Every chunk is the chunk of one of the windows. *)
Lemma chunkLoop_windows filePath lines ws c :
  c ∈ chunkLoop filePath lines ws [] ->
  exists w, w ∈ ws /\ c = windowChunk filePath lines w.
Proof.
  induction ws as [|w ws IH]; [by intros ?%elem_of_nil|].
  rewrite chunkLoop_cons. destruct (blankWindow lines w).
  - intros (w' & ? & ?)%IH. exists w'. split; [by right|done].
  - intros [->|Hin]%elem_of_cons; [exists w; split; [left|done]|].
    destruct (snd w =? length lines)%nat; [by apply elem_of_nil in Hin|].
    apply IH in Hin as (w' & ? & ?). exists w'. split; [by right|done].
Qed.




End ChunkerFacts.

Section ChunkerClaims.
Import GoStrings Chunker.





End ChunkerClaims.

(** ** File collection *)

Section CollectorFacts.
Import GoStrings Collector.

Lemma ltb_false_le s1 s2 : String.ltb s2 s1 = false <-> String.le s1 s2.
Proof.
  unfold String.le, String.ltb, String.leb.
  rewrite (String.compare_antisym s1 s2).
  destruct (String.compare s2 s1); cbn; intuition congruence.
Qed.

Lemma notAfter_ranked a b : notAfter a b <-> ranked a b.
Proof.
  unfold notAfter, ranked, less.
  destruct (Z.eqb_spec (priority b) (priority a)) as [Heq|Hne]; cbn.
  - rewrite ltb_false_le. intuition lia.
  - rewrite Z.ltb_ge. intuition lia.
Qed.

Global Instance notAfter_total : Total notAfter.
Proof.
  intros a b. rewrite !notAfter_ranked. unfold ranked.
  destruct (Z.lt_trichotomy (priority a) (priority b)) as [?|[?|?]]; [auto| |auto].
  destruct (total String.le (path a) (path b)); auto.
Qed.

Global Instance notAfter_trans : Transitive notAfter.
Proof.
  intros a b c. rewrite !notAfter_ranked. unfold ranked.
  intros [?|[? Hab]] [?|[? Hbc]]; [left; lia..|].
  right. split; [lia|]. by etrans.
Qed.

Global Instance notAfter_antisym : AntiSymm (=) notAfter.
Proof.
  intros [pa ra] [pb rb]. rewrite !notAfter_ranked. unfold ranked. cbn.
  intros [?|[-> Hab]] [?|[? Hba]]; try lia.
  f_equal. by apply (anti_symm String.le).
Qed.

Lemma sort_Slice_sorted files : StronglySorted notAfter (sort_Slice files).
Proof. apply StronglySorted_merge_sort; apply _. Qed.

Lemma sort_Slice_perm files : sort_Slice files ≡ₚ files.
Proof. apply merge_sort_Permutation. Qed.

(** [sort.Slice] has one possible outcome: any arrangement of the files
    that is sorted by [less] is the one computed here. *)
Lemma sort_Slice_unique files sorted :
  sorted ≡ₚ files -> StronglySorted notAfter sorted -> sorted = sort_Slice files.
Proof.
  intros Hperm Hsorted. apply (StronglySorted_unique notAfter); [done| |].
  - apply sort_Slice_sorted.
  - by rewrite sort_Slice_perm.
Qed.

Lemma sort_Slice_order_free files files' :
  files' ≡ₚ files -> sort_Slice files' = sort_Slice files.
Proof.
  intros Hperm. apply sort_Slice_unique; [|apply sort_Slice_sorted].
  by rewrite sort_Slice_perm.
Qed.

(** In a sorted slice a file of smaller priority number stands before
    one of larger priority number. *)
Lemma sorted_precedes sorted a b :
  StronglySorted notAfter sorted -> a ∈ sorted -> b ∈ sorted ->
  (priority a < priority b)%Z -> precedes a b sorted.
Proof.
  intros Hsorted Ha Hb Hlt.
  apply list_elem_of_split in Ha as (l1 & rest & ->).
  apply StronglySorted_app in Hsorted as (Hcross & _ & Hrest).
  apply elem_of_app in Hb as [Hb|Hb].
  - specialize (Hcross b a Hb ltac:(left)).
    apply notAfter_ranked in Hcross. unfold ranked in Hcross. lia.
  - apply elem_of_cons in Hb as [->|Hb]; [lia|].
    apply list_elem_of_split in Hb as (l2 & l3 & ->). by exists l1, l2, l3.
Qed.

Lemma precedes_map {A B} (f : A -> B) x y l :
  precedes x y l -> precedes (f x) (f y) (map f l).
Proof.
  intros (l1 & l2 & l3 & ->). exists (map f l1), (map f l2), (map f l3).
  by rewrite map_app, (map_cons f x), map_app.
Qed.

(** The first part found in the table decides the priority. *)
Lemma priorityOf_first before part after p :
  Forall (fun part' => priorityDirs !! part' = None) before ->
  priorityDirs !! part = Some p ->
  priorityOf (before ++ part :: after) = p.
Proof.
  intros Hbefore Hpart.
  induction Hbefore as [|x before Hx _ IH]; cbn [priorityOf app].
  - by rewrite Hpart.
  - by rewrite Hx.
Qed.

(** Without a part in the table the priority is the default, [99]. *)
Lemma priorityOf_default parts :
  Forall (fun part => priorityDirs !! part = None) parts -> priorityOf parts = 99%Z.
Proof.
  induction 1 as [|x parts Hx _ IH]; cbn [priorityOf]; [done|]. by rewrite Hx.
Qed.

(** Every priority of the table is in [1 .. 10], below the default. *)
Lemma priorityDirs_range part p :
  priorityDirs !! part = Some p -> (1 <= p <= 10)%Z.
Proof.
  intros Hp. apply elem_of_map_to_list in Hp. revert Hp.
  vm_compute (map_to_list priorityDirs).
  rewrite !elem_of_cons, elem_of_nil. intros Hp.
  repeat (destruct Hp as [[= -> ->]|Hp]; [lia|]). done.
Qed.

End CollectorFacts.

Section WalkFacts.
Import GoStrings Collector.

Lemma node_nested_ind (P : node -> Prop) :
  (forall name size, P (File name size)) ->
  (forall name children, Forall P children -> P (Dir name children)) ->
  (forall name err, P (Broken name err)) ->
  forall n, P n.
Proof.
  intros HFile HDir HBroken. fix IH 1.
  intros [name size|name children|name err]; [apply HFile| |apply HBroken].
  apply HDir. induction children as [|c cs IHcs]; constructor; [apply IH|apply IHcs].
Qed.

Lemma app_assoc_string (s1 s2 s3 : string) : (s1 +:+ s2) +:+ s3 = s1 +:+ (s2 +:+ s3).
Proof. induction s1 as [|c s1 IH]; [done|]. rewrite !app_String. by rewrite IH. Qed.

Lemma walkAt_child rootPath filePath relPath dirName name :
  walkAt rootPath filePath relPath dirName ->
  HasPrefix dirName "." = false ->
  walkAt rootPath (JoinPath filePath name) (relChild relPath name) name.
Proof.
  unfold walkAt, JoinPath, relChild. intros [[-> ->]|[-> Hrel]] Hdot.
  - cbn. right. split; [done|]. by left.
  - right. replace (String.eqb relPath ".") with false.
    + split; [|right; by exists relPath].
      by rewrite app_assoc_string, app_String.
    + symmetry. apply String.eqb_neq. intros ->.
      destruct Hrel as [<-|[relDir Hrel]]; [done|].
      by destruct relDir as [|c [|c' relDir]].
Qed.

(** What the walk appends are files ranked by the parts of their path
    below the root. *)
Lemma walk_ranked extensions rootPath n :
  forall filePath relPath files files',
  walkAt rootPath filePath relPath (nodeName n) ->
  walk extensions filePath relPath n files = inr files' ->
  exists new, files' = files ++ new /\ Forall (rankedByParts rootPath) new.
Proof.
  induction n as [name size|dirName children IH|name err] using node_nested_ind;
    intros filePath relPath files files' Hat.
  - cbn. intros [= <-]. unfold visitFile.
    destruct (negb _); [exists []; by rewrite app_nil_r|].
    destruct (size >? _)%Z; [exists []; by rewrite app_nil_r|].
    eexists. split; [done|]. constructor; [|done]. unfold rankedByParts. cbn.
    destruct Hat as [[-> ->]|[-> _]]; [by left|right; by eexists].
  - cbn [walk]. destruct (_ || _) eqn:Hskip.
    { intros [= <-]. exists []. by rewrite app_nil_r. }
    apply orb_false_iff in Hskip as [_ Hdot]. cbn in Hat.
    revert files files'. induction IH as [|c cs Hc _ IHcs]; intros files files'.
    { intros [= <-]. exists []. by rewrite app_nil_r. }
    destruct (walk _ _ _ c files) as [err|files1] eqn:Hwalk; [done|].
    apply Hc in Hwalk as (new1 & -> & Hnew1); [|by eapply walkAt_child].
    intros (new2 & -> & Hnew2)%IHcs. exists (new1 ++ new2).
    split; [by rewrite app_assoc|]. by apply Forall_app.
  - done.
Qed.

End WalkFacts.

Section CollectorClaims.
Import GoStrings Collector.

Lemma StronglySorted_ranked sorted :
  StronglySorted notAfter sorted -> StronglySorted ranked sorted.
Proof.
  induction 1 as [|a l _ IH Ha]; constructor; [done|].
  eapply Forall_impl; [exact Ha|]. intros b. by apply notAfter_ranked.
Qed.

(** C7. When the walk succeeds, [collectFiles] returns the paths of the
    collected files sorted by ascending priority and, within one
    priority, by ascending path. The priority of a file is that of the
    first part of its path below the root found in the table, or [99]
    when there is none, above every priority of the table
    ([middleware] is 1, [utils] is 6); so a file of smaller priority
    number stands before one of larger priority number. The result is
    the same for every walk that meets the same files in another order. *)
Theorem collectFiles_order (root : node) (rootPath : string)
    (extensions : list string) (files : list fileWithPriority) :
  walk extensions rootPath "." root [] = inr files ->
  exists sorted,
    collectFiles root rootPath extensions = inr (map path sorted) /\
    sorted ≡ₚ files /\
    StronglySorted ranked sorted /\
    Forall (rankedByParts rootPath) sorted /\
    (forall rest, priorityOf ("middleware" :: rest) = 1%Z /\
                  priorityOf ("utils" :: rest) = 6%Z) /\
    (forall before part after p,
        Forall (fun part' => priorityDirs !! part' = None) before ->
        priorityDirs !! part = Some p ->
        priorityOf (before ++ part :: after) = p /\ (p < 99)%Z) /\
    (forall parts,
        Forall (fun part => priorityDirs !! part = None) parts ->
        priorityOf parts = 99%Z) /\
    (forall a b, a ∈ sorted -> b ∈ sorted -> (priority a < priority b)%Z ->
        precedes (path a) (path b) (map path sorted)) /\
    (forall root' files',
        walk extensions rootPath "." root' [] = inr files' ->
        files' ≡ₚ files ->
        collectFiles root' rootPath extensions = inr (map path sorted)).
Proof.
  intros Hwalk. exists (sort_Slice files).
  pose proof (sort_Slice_sorted files) as Hsorted.
  repeat apply conj.
  - unfold collectFiles. by rewrite Hwalk.
  - apply sort_Slice_perm.
  - by apply StronglySorted_ranked.
  - eapply walk_ranked in Hwalk as (new & -> & Hnew); [|by left].
    by rewrite sort_Slice_perm.
  - intros rest. split; by vm_compute.
  - intros before part after p Hbefore Hpart. split; [by apply priorityOf_first|].
    apply priorityDirs_range in Hpart. lia.
  - apply priorityOf_default.
  - intros a b Ha Hb Hlt. apply (precedes_map path). by apply sorted_precedes.
  - intros root' files' Hwalk' Hperm. unfold collectFiles. rewrite Hwalk'.
    by rewrite (sort_Slice_order_free _ _ Hperm).
Qed.

Lemma collectFiles_order_witness :
  exists sorted,
    collectFiles
      (Dir "repo" [ Dir "zeta" [File "z.go" 10];
                    Dir "utils" [File "u.go" 10];
                    Dir "middleware" [File "m.go" 10] ])
      "/repo" [".go"] = inr (map path sorted) /\
    map path sorted =
      ["/repo/middleware/m.go"; "/repo/utils/u.go"; "/repo/zeta/z.go"].
Proof.
  destruct (collectFiles_order
              (Dir "repo" [ Dir "zeta" [File "z.go" 10];
                            Dir "utils" [File "u.go" 10];
                            Dir "middleware" [File "m.go" 10] ])
              "/repo" [".go"]
              [ mkFile "/repo/zeta/z.go" 99; mkFile "/repo/utils/u.go" 6;
                mkFile "/repo/middleware/m.go" 1 ])
    as (sorted & Hcollect & _); [by vm_compute|].
  exists sorted. split; [exact Hcollect|].
  revert Hcollect. vm_compute (collectFiles _ _ _). by intros [= <-].
Defined.

(** The three directories of the specification's example, met in two
    different orders by the walk: the result is the same, [middleware/]
    first, [utils/] second, the directory without rank last. *)
Example collectFiles_example :
  collectFiles
    (Dir "repo" [ Dir "zeta" [File "z.go" 10];
                  Dir "utils" [File "u.go" 10];
                  Dir "middleware" [File "m.go" 10] ])
    "/repo" [".go"]
  = inr ["/repo/middleware/m.go"; "/repo/utils/u.go"; "/repo/zeta/z.go"] /\
  collectFiles
    (Dir "repo" [ Dir "middleware" [File "m.go" 10];
                  Dir "zeta" [File "z.go" 10];
                  Dir "utils" [File "u.go" 10] ])
    "/repo" [".go"]
  = inr ["/repo/middleware/m.go"; "/repo/utils/u.go"; "/repo/zeta/z.go"].
Proof. split; by vm_compute. Qed.

End CollectorClaims.

(** ** The pipeline *)

Section PipelineFacts.
Import GoStrings State Chunker Pipeline.

Lemma chunkText_FilePath filePath text c :
  c ∈ chunkText filePath text -> FilePath c = filePath.
Proof. unfold chunkText. by intros (w & _ & ->)%chunkLoop_windows. Qed.

Lemma setFilePath_chunkText filePath text :
  map (setFilePath filePath) (chunkText filePath text) = chunkText filePath text.
Proof.
  rewrite <- (map_id (chunkText filePath text)) at 2.
  apply map_ext_in. intros [f ? ? ? ?] Hc%list_elem_of_In.
  apply chunkText_FilePath in Hc. cbn in Hc. by subst.
Qed.

Lemma chunksOf_FilePath E filePath c :
  c ∈ chunksOf E filePath -> FilePath c = filePath.
Proof.
  unfold chunksOf. destruct (readFile E filePath); [by intros ?%elem_of_nil|].
  apply chunkText_FilePath.
Qed.

(** One turn of the chunking loop of [processBatch]. *)
Lemma chunkStep_spec E r allChunks filePath :
  chunkStep E (r, allChunks) filePath =
  ({| state := chunkMark E (state r) filePath;
      disk := disk r;
      trace := trace r ++ chunkEvents E filePath |},
   allChunks ++ chunksOf E filePath).
Proof.
  unfold chunkStep, chunkFile, chunkMark, chunkEvents, chunksOf, mark, withTrace.
  cbn [state disk trace]. destruct (readFile E filePath) as [err|text].
  - by rewrite app_nil_r, <- app_assoc.
  - destruct (chunkText filePath text) as [|c cs] eqn:Hchunks.
    + cbn. by rewrite app_nil_r, <- app_assoc.
    + cbn [length Nat.eqb]. rewrite <- Hchunks, setFilePath_chunkText.
      rewrite Hchunks. cbn [length]. by rewrite <- app_assoc.
Qed.

(** The whole chunking loop. *)
Lemma chunkLoop_fold E files r allChunks :
  fold_left (chunkStep E) files (r, allChunks) =
  ({| state := fold_left (chunkMark E) files (state r);
      disk := disk r;
      trace := trace r ++ concat (map (chunkEvents E) files) |},
   allChunks ++ concat (map (chunksOf E) files)).
Proof.
  revert r allChunks. induction files as [|f files IH]; intros r allChunks.
  - cbn. rewrite !app_nil_r. by destruct r.
  - cbn [fold_left]. rewrite chunkStep_spec, IH. cbn [state disk trace map concat].
    by rewrite <- !app_assoc.
Qed.

Lemma chunkMark_frame E st filePath :
  RootPath (chunkMark E st filePath) = RootPath st /\
  Status (chunkMark E st filePath) = Status st /\
  TotalFiles (chunkMark E st filePath) = TotalFiles st.
Proof. unfold chunkMark. by destruct (readFile E filePath). Qed.

Lemma chunkMarks_frame E files st :
  RootPath (fold_left (chunkMark E) files st) = RootPath st /\
  Status (fold_left (chunkMark E) files st) = Status st /\
  TotalFiles (fold_left (chunkMark E) files st) = TotalFiles st.
Proof.
  revert st. induction files as [|f files IH]; intros st; [done|].
  cbn [fold_left]. destruct (IH (chunkMark E st f)) as (-> & -> & ->).
  apply chunkMark_frame.
Qed.

(** Marks are never taken back. *)
Lemma chunkMark_keeps E st filePath f :
  IsFileProcessed st f = true -> IsFileProcessed (chunkMark E st filePath) f = true.
Proof.
  unfold chunkMark, IsFileProcessed.
  destruct (readFile E filePath); cbn; [done|].
  destruct (decide (filePath = f)) as [->|Hne].
  - by rewrite lookup_insert_eq.
  - by rewrite lookup_insert_ne.
Qed.

Lemma chunkMarks_keep E files st f :
  IsFileProcessed st f = true ->
  IsFileProcessed (fold_left (chunkMark E) files st) f = true.
Proof.
  revert st. induction files as [|f' files IH]; intros st Hf; [done|].
  cbn [fold_left]. by apply IH, chunkMark_keeps.
Qed.

(** Every file of the batch that is read without error is marked
    processed by the chunking loop. *)
Lemma chunkMarks_processed E files st f :
  f ∈ files -> readOk E f = true ->
  IsFileProcessed (fold_left (chunkMark E) files st) f = true.
Proof.
  revert st. induction files as [|f' files IH]; intros st Hin Hok.
  { by apply elem_of_nil in Hin. }
  cbn [fold_left]. apply elem_of_cons in Hin as [->|Hin]; [|by apply IH].
  apply chunkMarks_keep. unfold chunkMark, IsFileProcessed, readOk in *.
  destruct (readFile E f'); [done|]. cbn. by rewrite lookup_insert_eq.
Qed.

(** The two counters after the chunking loop. *)
Lemma chunkMarks_counters E files st :
  IndexedFiles (fold_left (chunkMark E) files st) =
    (IndexedFiles st + Z.of_nat (length (List.filter (readOk E) files)))%Z /\
  TotalChunks (fold_left (chunkMark E) files st) =
    (TotalChunks st + Z.of_nat (length (concat (map (chunksOf E) files))))%Z.
Proof.
  revert st. induction files as [|f files IH]; intros st.
  { cbn. lia. }
  cbn [fold_left map concat]. destruct (IH (chunkMark E st f)) as [-> ->].
  rewrite length_app. cbn [List.filter]. unfold chunkMark, readOk, chunksOf.
  destruct (readFile E f); cbn; lia.
Qed.

End PipelineFacts.

Section BatchFacts.
Import GoStrings State Chunker Pipeline.

Lemma slice_subseteq {A} (l : list A) i j : slice l i j ⊆ l.
Proof.
  unfold slice. intros x Hx.
  change (firstn ?n ?k) with (take n k) in Hx.
  change (skipn ?n ?k) with (drop n k) in Hx.
  by eapply subseteq_drop, subseteq_take.
Qed.

Lemma slice_lookup {A} (l : list A) i j k x :
  (i <= k < j)%nat -> l !! k = Some x -> x ∈ slice l i j.
Proof.
  intros Hk Hx. unfold slice.
  change (firstn ?n ?m) with (take n m). change (skipn ?n ?m) with (drop n m).
  apply list_elem_of_lookup. exists (k - i)%nat.
  rewrite lookup_take_lt by lia. rewrite lookup_drop.
  by replace (i + (k - i))%nat with k by lia.
Qed.

(** The windows leave no index out when the stride does not exceed the
    size. *)
Lemma windows_cover size s n i k :
  (S s <= size)%nat -> (i <= k < n)%nat ->
  exists w, w ∈ windows size (S s) n i /\ (fst w <= k < snd w)%nat.
Proof.
  intros Hstride. remember (n - i)%nat as m eqn:Hm. revert i Hm.
  induction m as [m IH] using lt_wf_ind. intros i Hm Hk.
  rewrite windows_step. destruct (lt_dec i n) as [_|]; [|lia].
  destruct (decide (k < i + S s)%nat) as [Hlt|Hge].
  - exists (i, Nat.min (i + size) n). split; [left|cbn; lia].
  - destruct (IH (n - (i + S s))%nat ltac:(lia) (i + S s)%nat eq_refl ltac:(lia))
      as (w & Hw & ?).
    exists w. split; [by right|done].
Qed.

(** Every element of a slice falls into one of the batches. *)
Lemma batches_cover {A} (l : list A) size x :
  (0 < size)%nat -> x ∈ l ->
  exists w, w ∈ windows size size (length l) 0 /\ x ∈ slice l (fst w) (snd w).
Proof.
  intros Hsize (k & Hk)%list_elem_of_lookup.
  pose proof (lookup_lt_Some _ _ _ Hk) as Hlt.
  destruct size as [|s]; [lia|].
  destruct (windows_cover (S s) s (length l) 0 k ltac:(lia) ltac:(lia))
    as (w & Hw & Hrange).
  exists w. split; [done|]. by eapply slice_lookup.
Qed.

(** A slice of at most [size] elements is one batch. *)
Lemma windows_single size n :
  (0 < n <= size)%nat -> windows size size n 0 = [(0, n)%nat].
Proof.
  intros Hn. destruct size as [|s]; [lia|].
  rewrite windows_step. destruct (lt_dec 0 n); [|lia].
  rewrite (windows_step _ _ _ (0 + S s)). destruct (lt_dec (0 + S s) n); [lia|].
  do 2 f_equal. lia.
Qed.

Lemma windows_nonempty size n :
  (0 < size)%nat -> (0 < n)%nat -> windows size size n 0 <> [].
Proof.
  intros Hsize Hn. destruct size as [|s]; [lia|].
  rewrite windows_step. by destruct (lt_dec 0 n); [|lia].
Qed.

Lemma storedChunks_app tr1 tr2 :
  storedChunks (tr1 ++ tr2) = storedChunks tr1 ++ storedChunks tr2.
Proof. unfold storedChunks. by rewrite map_app, concat_app. Qed.

(** [indexBatch]: an embedding call, then an upsert if it succeeded;
    after an error nothing of the batch is stored. *)
Lemma indexBatch_spec E chunks tr tr' err :
  indexBatch E chunks tr = (tr', err) ->
  exists e new,
    tr' = tr ++ EvEmbedBatch chunks e :: new /\
    Forall (fun ev => storeCall ev = true /\ eventFiles ev = map FilePath chunks)
           (EvEmbedBatch chunks e :: new) /\
    (err <> None -> storedChunks (EvEmbedBatch chunks e :: new) = []).
Proof.
  unfold indexBatch. destruct (embedBatch E tr chunks) as [e|].
  - intros [= <- <-]. exists (Some e), []. repeat split; repeat constructor.
  - intros [= <- <-]. eexists None, [_]. rewrite <- app_assoc.
    split; [done|]. split; [by repeat constructor|].
    by destruct (upsert E _ chunks).
Qed.

(** The embedding loop of [processBatch]. *)
Lemma embedLoop_spec E allChunks ws tr tr' err :
  embedLoop E allChunks ws tr = (tr', err) ->
  exists new,
    tr' = tr ++ new /\
    Forall (fun ev => storeCall ev = true /\
                      eventFiles ev ⊆ map FilePath allChunks) new /\
    (ws <> [] -> Exists (fun ev => embedCall ev = true) new) /\
    (forall w, ws = [w] -> err <> None -> storedChunks new = []).
Proof.
  revert tr. induction ws as [|[i j] ws IH]; intros tr.
  { cbn. intros [= <- <-]. exists []. rewrite app_nil_r. by repeat split. }
  cbn [embedLoop]. destruct (indexBatch E _ tr) as [tr1 [e|]] eqn:Hbatch.
  - intros [= <- <-]. apply indexBatch_spec in Hbatch as (e' & new & -> & Hnew & Hstored).
    exists (EvEmbedBatch (slice allChunks i j) e' :: new). split; [done|]. split; [|split].
    + eapply Forall_impl; [exact Hnew|]. intros ev [? ->]. split; [done|].
      intros f (c & -> & Hc)%list_elem_of_fmap.
      apply list_elem_of_fmap_2. by eapply slice_subseteq.
    + intros _. by left.
    + intros w _ _. by apply Hstored.
  - intros Hloop. pose proof Hloop as (new2 & -> & Hnew2 & _ & _)%IH.
    apply indexBatch_spec in Hbatch as (e' & new & -> & Hnew & _).
    exists ((EvEmbedBatch (slice allChunks i j) e' :: new) ++ new2).
    split; [by rewrite <- app_assoc|]. split; [|split].
    + apply Forall_app. split; [|done].
      eapply Forall_impl; [exact Hnew|]. intros ev [? ->]. split; [done|].
      intros f (c & -> & Hc)%list_elem_of_fmap.
      apply list_elem_of_fmap_2. by eapply slice_subseteq.
    + intros _. by left.
    + intros w [= <- ->] Herr. cbn in Hloop. by injection Hloop as _ <-.
Qed.

Lemma slice_app {A} (l : list A) i j k :
  (i <= j <= k)%nat -> slice l i j ++ slice l j k = slice l i k.
Proof.
  intros Hijk. unfold slice.
  change (firstn ?n ?m) with (take n m). change (skipn ?n ?m) with (drop n m).
  replace (drop j l) with (drop (j - i) (drop i l))
    by (rewrite drop_drop; f_equal; lia).
  rewrite take_take_drop. f_equal. lia.
Qed.

Lemma slice_empty {A} (l : list A) i j : (j <= i)%nat -> slice l i j = [].
Proof. intros Hji. unfold slice. by replace (j - i)%nat with 0%nat by lia. Qed.

Lemma slice_all {A} (l : list A) : slice l 0 (length l) = l.
Proof.
  unfold slice. rewrite Nat.sub_0_r. cbn [skipn]. apply firstn_all.
Qed.

(** What the embedding loop stores: every sub-batch when it succeeds, and
    the sub-batches before the failing one when it fails. *)
Lemma embedLoop_stored E allChunks s i tr tr' err :
  embedLoop E allChunks (windows (S s) (S s) (length allChunks) i) tr = (tr', err) ->
  exists new,
    tr' = tr ++ new /\
    (err = None -> storedChunks new = slice allChunks i (length allChunks)) /\
    (err <> None -> exists m,
        (i + m * S s < length allChunks)%nat /\
        storedChunks new = slice allChunks i (i + m * S s)).
Proof.
  remember (length allChunks - i)%nat as k eqn:Hk. revert i tr Hk.
  induction k as [k IH] using lt_wf_ind. intros i tr Hk.
  rewrite windows_step.
  destruct (lt_dec i (length allChunks)) as [Hlt|Hge].
  2:{ cbn. intros [= <- <-]. exists []. rewrite app_nil_r.
      split; [done|]. split; [|done]. intros _. cbn. by rewrite slice_empty by lia. }
  cbn [embedLoop]. set (e := Nat.min (i + S s) (length allChunks)).
  unfold indexBatch.
  destruct (embedBatch E tr _) as [ee|].
  { intros [= <- <-]. eexists. split; [done|]. split; [done|].
    intros _. exists 0%nat. split; [lia|]. cbn. by rewrite slice_empty by lia. }
  destruct (upsert E _ _) as [ue|].
  { intros [= <- <-]. eexists. rewrite <- app_assoc. split; [done|]. split; [done|].
    intros _. exists 0%nat. split; [lia|]. cbn. by rewrite slice_empty by lia. }
  intros Hloop.
  apply (IH (length allChunks - (i + S s))%nat ltac:(lia) (i + S s)%nat _ eq_refl)
    in Hloop as (new & -> & Hok & Hfail).
  exists ([EvEmbedBatch (slice allChunks i e) None;
           EvUpsert (slice allChunks i e) None] ++ new).
  split; [by rewrite <- !app_assoc|].
  rewrite storedChunks_app. unfold storedChunks at 1 3. cbn [map concat app].
  rewrite app_nil_r. split.
  - intros Hnone. rewrite (Hok Hnone). subst e.
    destruct (decide (i + S s <= length allChunks)%nat).
    + rewrite Nat.min_l by lia. apply slice_app. lia.
    + rewrite Nat.min_r by lia. rewrite (slice_empty _ (i + S s)) by lia.
      by rewrite app_nil_r.
  - intros Herr. destruct (Hfail Herr) as (m & Hm & ->).
    exists (S m). split; [lia|]. subst e. rewrite Nat.min_l by lia.
    rewrite slice_app by lia. f_equal. lia.
Qed.

End BatchFacts.

Section RunFacts.
Import GoStrings State Chunker Pipeline.

Lemma elem_of_concat {A} (x : A) (ls : list (list A)) :
  x ∈ concat ls <-> exists l, l ∈ ls /\ x ∈ l.
Proof.
  rewrite list_elem_of_In, in_concat. setoid_rewrite list_elem_of_In. done.
Qed.

Lemma chunkEvents_files E files :
  Forall (fun ev => chunkingEvent ev = true /\ storeCall ev = false /\
                    statusSet ev = None /\ eventFiles ev ⊆ files)
         (concat (map (chunkEvents E) files)).
Proof.
  apply Forall_concat, Forall_map, Forall_forall. intros f Hf.
  unfold chunkEvents.
  assert (eventFiles (EvReadFile f) ⊆ files) as Hsub.
  { intros x Hx. apply list_elem_of_singleton in Hx. by subst. }
  destruct (readFile E f); by repeat constructor.
Qed.

Lemma chunks_files E files c :
  c ∈ concat (map (chunksOf E) files) -> FilePath c ∈ files.
Proof.
  intros (cs & (f & -> & Hf)%list_elem_of_fmap & Hc)%elem_of_concat.
  apply chunksOf_FilePath in Hc. by subst.
Qed.

(** [processBatch]: the chunking loop with its marks, then the embedding
    loop with its calls. *)
Lemma processBatch_spec E files r r' err :
  processBatch E files r = (r', err) ->
  exists indexing,
    trace r' = trace r ++ concat (map (chunkEvents E) files) ++ indexing /\
    state r' = fold_left (chunkMark E) files (state r) /\
    disk r' = disk r /\
    Forall (fun ev => storeCall ev = true /\ eventFiles ev ⊆ files) indexing /\
    (concat (map (chunksOf E) files) <> [] ->
       Exists (fun ev => embedCall ev = true) indexing) /\
    (err = None -> storedChunks indexing = concat (map (chunksOf E) files)) /\
    (err <> None -> exists m,
        (m * ChunkBatchSize < length (concat (map (chunksOf E) files)))%nat /\
        storedChunks indexing =
          firstn (m * ChunkBatchSize) (concat (map (chunksOf E) files))).
Proof.
  unfold processBatch. rewrite chunkLoop_fold. cbn [app].
  set (allChunks := concat (map (chunksOf E) files)).
  destruct (length allChunks =? 0)%nat eqn:Hlen.
  - intros [= <- <-]. exists []. cbn. rewrite app_nil_r.
    apply Nat.eqb_eq, nil_length_inv in Hlen. by repeat split.
  - apply Nat.eqb_neq in Hlen. cbn [trace].
    destruct (embedLoop E allChunks _ _) as [tr2 err2] eqn:Hloop.
    intros [= <- <-].
    pose proof Hloop as (new & -> & Hnew & Hembed & _)%embedLoop_spec.
    apply embedLoop_stored in Hloop as (new' & Heq & Hok & Hfail).
    apply app_inv_head in Heq as <-.
    exists new. cbn. rewrite <- app_assoc. repeat split; [| | |].
    + eapply Forall_impl; [exact Hnew|]. intros ev [? Hsub]. split; [done|].
      intros f (c & -> & Hc)%Hsub%list_elem_of_fmap. by eapply chunks_files.
    + intros _. apply Hembed, windows_nonempty; unfold ChunkBatchSize; lia.
    + intros Hnone. rewrite (Hok Hnone). apply slice_all.
    + intros Herr. destruct (Hfail Herr) as (m & Hm & ->). exists m.
      unfold ChunkBatchSize in *. split; [lia|].
      unfold slice. cbn [skipn]. f_equal. lia.
Qed.

(** The events of a file batch: about the files of the batch, and none
    sets a status. *)
Lemma processBatch_events E files r r' err :
  processBatch E files r = (r', err) ->
  exists new,
    trace r' = trace r ++ new /\
    Forall (fun ev => eventFiles ev ⊆ files /\ statusSet ev = None) new /\
    Forall (fun f => EvReadFile f ∈ new) files /\
    (forall f, f ∈ files -> chunksOf E f <> [] ->
       Exists (fun ev => embedCall ev = true) new).
Proof.
  intros (indexing & -> & _ & _ & Hindexing & Hembed & _ & _)%processBatch_spec.
  eexists. split; [done|]. split; [|split].
  - apply Forall_app. split.
    + eapply Forall_impl; [apply chunkEvents_files|]. by intros ev (_ & _ & ? & ?).
    + eapply Forall_impl; [exact Hindexing|]. intros [] [? ?]; done.
  - apply Forall_forall. intros f Hf. apply elem_of_app. left.
    apply elem_of_concat. exists (chunkEvents E f). split; [|left].
    by apply list_elem_of_fmap_2.
  - intros f Hf Hchunks. apply Exists_app. right. apply Hembed.
    intros Hnil. apply Hchunks.
    destruct (chunksOf E f) as [|c cs] eqn:Hcs; [done|].
    assert (c ∈ concat (map (chunksOf E) files)) as Hc.
    { apply elem_of_concat. exists (c :: cs). split; [|left].
      rewrite <- Hcs. by apply list_elem_of_fmap_2. }
    rewrite Hnil in Hc. by apply elem_of_nil in Hc.
Qed.

End RunFacts.

Section LoopFacts.
Import GoStrings State Chunker Pipeline.

Lemma complete_spec E r :
  exists e,
    trace (complete E r) = trace r ++ [EvSetStatus "completed";
                                       EvSave (state (complete E r)) e] /\
    state (complete E r) = SetStatus (state r) "completed" /\
    (e = None -> disk (complete E r) = Some (state (complete E r))).
Proof.
  unfold complete, Save, mark. cbn. eexists. rewrite <- app_assoc.
  split; [done|]. split; [done|]. by intros ->.
Qed.

(** The batch loop of [IndexDirectoryIncremental]. *)
Lemma batchLoop_spec E files ws r r' err :
  batchLoop E files ws r = (r', err) ->
  exists new,
    trace r' = trace r ++ new /\
    Forall (runEvent files) new /\
    ((forall tr, ctxDone E tr = false) ->
       err = None /\
       Status (state r') = "completed" /\
       (exists pre e,
           new = pre ++ [EvSetStatus "completed"; EvSave (state r') e] /\
           (e = None -> disk r' = Some (state r'))) /\
       (forall w f, w ∈ ws -> f ∈ slice files (fst w) (snd w) ->
           EvReadFile f ∈ new) /\
       (forall w f, w ∈ ws -> f ∈ slice files (fst w) (snd w) ->
           chunksOf E f <> [] -> Exists (fun ev => embedCall ev = true) new)).
Proof.
  revert r. induction ws as [|[i j] ws IH]; intros r.
  - cbn [batchLoop]. intros [= <- <-].
    destruct (complete_spec E r) as (e & Htrace & Hstate & Hdisk).
    eexists. split; [exact Htrace|]. split.
    + repeat constructor; try (by intros ? ?%elem_of_nil); cbn; congruence.
    + intros _. split; [done|]. split; [by rewrite Hstate|].
      split; [by exists [], e|]. split; by intros ? ? ?%elem_of_nil.
  - cbn [batchLoop]. destruct (ctxDone E (trace r)) eqn:Hdone.
    + intros [= <- <-]. exists [EvSave (state r) (writeState E (trace r) (state r))].
      split; [done|]. split.
      * repeat constructor; [by intros ? ?%elem_of_nil|done].
      * intros Hnever. by rewrite Hnever in Hdone.
    + destruct (processBatch E _ r) as [r1 err1] eqn:Hbatch.
      destruct (Save E r1) as [r2 err2] eqn:Hsave.
      intros (new2 & Htrace2 & Hnew2 & Hrun)%IH.
      apply processBatch_events in Hbatch as (new1 & Htrace1 & Hnew1 & Hread & Hembed).
      unfold Save in Hsave. injection Hsave as <- <-. cbn [trace state] in *.
      exists (new1 ++ [EvSave (state r1) (writeState E (trace r1) (state r1))] ++ new2).
      split; [by rewrite Htrace2, Htrace1, <- !app_assoc|]. split.
      * apply Forall_app. split; [|apply Forall_app; split; [|done]].
        -- eapply Forall_impl; [exact Hnew1|]. intros ev [Hfiles Hstatus]. split.
           ++ etrans; [exact Hfiles|apply slice_subseteq].
           ++ intros s. by rewrite Hstatus.
        -- repeat constructor; [by intros ? ?%elem_of_nil|done].
      * intros Hnever. destruct (Hrun Hnever) as (-> & Hstatus & Hlast & Hreads & Hembeds).
        split; [done|]. split; [done|]. split; [|split].
        -- destruct Hlast as (pre & e & -> & Hdisk).
           exists (new1 ++ [EvSave (state r1) (writeState E (trace r1) (state r1))] ++ pre), e.
           split; [by rewrite <- !app_assoc|done].
        -- intros w f [->|Hw]%elem_of_cons Hf.
           ++ apply elem_of_app. left. rewrite Forall_forall in Hread.
              by apply Hread.
           ++ rewrite !elem_of_app. right. right. by eapply Hreads.
        -- intros w f [->|Hw]%elem_of_cons Hf Hchunks.
           ++ apply Exists_app. left. by eapply Hembed.
           ++ apply Exists_app. right. apply Exists_app. right. by eapply Hembeds.
Qed.

End LoopFacts.

Section IndexFacts.
Import GoStrings State Chunker Pipeline.

Lemma startState_cases onDisk path :
  startState onDisk path =
  if startsFresh onDisk path then NewIndexingState path
  else default (NewIndexingState path) onDisk.
Proof. by destruct onDisk. Qed.

Lemma remaining_spec st allFiles f :
  f ∈ remaining st allFiles <-> f ∈ allFiles /\ IsFileProcessed st f = false.
Proof.
  unfold remaining. rewrite list_elem_of_In, filter_In, <- list_elem_of_In.
  by rewrite negb_true_iff.
Qed.

(** A run from a given progress record. *)
Lemma indexFrom_spec E st onDisk path extensions allFiles r' err :
  Collector.collectFiles (tree E path) path extensions = inr allFiles ->
  indexFrom E st onDisk path extensions = (r', err) ->
  Forall (runEvent (remaining st allFiles)) (trace r') /\
  ((forall tr, ctxDone E tr = false) ->
     err = None /\
     Status (state r') = "completed" /\
     (exists pre e,
         trace r' = pre ++ [EvSetStatus "completed"; EvSave (state r') e] /\
         (e = None -> disk r' = Some (state r'))) /\
     (forall f, f ∈ remaining st allFiles -> EvReadFile f ∈ trace r') /\
     (forall f, f ∈ remaining st allFiles -> chunksOf E f <> [] ->
         Exists (fun ev => embedCall ev = true) (trace r'))).
Proof.
  intros Hcollect. unfold indexFrom. rewrite Hcollect.
  change (remaining (setTotalFiles st _) allFiles) with (remaining st allFiles).
  set (todo := remaining st allFiles).
  destruct (length todo =? 0)%nat eqn:Hlen.
  - apply Nat.eqb_eq, nil_length_inv in Hlen. intros [= <- <-].
    match goal with |- context [complete E ?r] =>
      destruct (complete_spec E r) as (e & Htrace & Hstate & Hdisk) end.
    rewrite Htrace. cbn [trace app]. split.
    + repeat constructor; try (by intros ? ?%elem_of_nil); cbn; congruence.
    + intros _. split; [done|]. split; [by rewrite Hstate|].
      split; [by exists [], e|]. rewrite Hlen.
      split; by intros ? ?%elem_of_nil.
  - intros (new & Htrace & Hnew & Hrun)%batchLoop_spec. cbn [trace app] in Htrace.
    rewrite Htrace. split; [done|]. intros Hnever.
    destruct (Hrun Hnever) as (-> & Hstatus & Hlast & Hreads & Hembeds).
    split; [done|]. split; [done|]. split; [done|].
    assert (forall f, f ∈ todo -> exists w,
               w ∈ windows FileBatchSize FileBatchSize (length todo) 0 /\
               f ∈ slice todo (fst w) (snd w)) as Hcover.
    { intros f Hf. apply batches_cover; [unfold FileBatchSize; lia|done]. }
    split.
    + intros f (w & Hw & Hf)%Hcover. by eapply Hreads.
    + intros f (w & Hw & Hf)%Hcover. by eapply Hembeds.
Qed.

(** A file that the progress record marks as processed is left alone by
    the run that starts from it. *)
Lemma indexFrom_skips E st onDisk path extensions f :
  IsFileProcessed st f = true ->
  Forall (fun ev => f ∉ eventFiles ev)
         (trace (fst (indexFrom E st onDisk path extensions))).
Proof.
  intros Hf.
  destruct (Collector.collectFiles (tree E path) path extensions)
    as [err|allFiles] eqn:Hcollect.
  { unfold indexFrom. rewrite Hcollect. cbn. constructor. }
  destruct (indexFrom E st onDisk path extensions) as [r' err] eqn:Hrun.
  eapply indexFrom_spec in Hrun as [Hev _]; [|done]. cbn [fst].
  eapply Forall_impl; [exact Hev|]. intros ev [Hfiles _] Hin.
  apply Hfiles, remaining_spec in Hin as [_ Hnot]. congruence.
Qed.


(** A run that resumes a loaded progress record has no event about a
    file that the record marks as processed. *)
Lemma resumed_run_skips E st path extensions f :
  startsFresh (Some st) path = false ->
  IsFileProcessed st f = true ->
  Forall (fun ev => f ∉ eventFiles ev)
    (trace (fst (IndexDirectoryIncremental E (Some st) path extensions))).
Proof.
  intros Hresume Hf. unfold IndexDirectoryIncremental.
  rewrite startState_cases, Hresume. by apply indexFrom_skips.
Qed.

End IndexFacts.

Section RunClaims.
Import GoStrings State Chunker Pipeline.

(** C3. A run starts from a fresh progress record exactly when the state
    file does not load, or its root path differs from the requested one,
    or its status is [completed]; otherwise it goes on from the loaded
    record, keeps every file that the record marks as processed out of
    the list of files to process, and has no event about such a file: no
    read, no mark, no embedding call and no upsert with one of its
    chunks. *)
Theorem resume_skips_processed (E : Env) (onDisk : option IndexingState)
    (path : string) (extensions : list string) :
  (startsFresh onDisk path = true <->
     onDisk = None \/
     exists st, onDisk = Some st /\
                (RootPath st <> path \/ Status st = "completed")) /\
  (startsFresh onDisk path = true ->
     IndexDirectoryIncremental E onDisk path extensions =
     indexFrom E (NewIndexingState path) onDisk path extensions) /\
  (forall st, onDisk = Some st -> startsFresh onDisk path = false ->
     IndexDirectoryIncremental E onDisk path extensions =
       indexFrom E st onDisk path extensions /\
     forall f, IsFileProcessed st f = true ->
       (forall allFiles, f ∉ remaining st allFiles) /\
       Forall (fun ev => f ∉ eventFiles ev)
         (trace (fst (IndexDirectoryIncremental E onDisk path extensions)))).
Proof.
  split; [|split].
  - destruct onDisk as [st|]; cbn.
    + rewrite orb_true_iff, negb_true_iff, String.eqb_neq, String.eqb_eq.
      split.
      * intros H. right. by exists st.
      * by intros [?|(? & [= <-] & ?)].
    + split; [by left|done].
  - intros Hfresh. unfold IndexDirectoryIncremental.
    by rewrite startState_cases, Hfresh.
  - intros st -> Hresume.
    assert (IndexDirectoryIncremental E (Some st) path extensions =
            indexFrom E st (Some st) path extensions) as Heq.
    { unfold IndexDirectoryIncremental. by rewrite startState_cases, Hresume. }
    split; [done|]. intros f Hf. split.
    + intros allFiles [_ Hnot]%remaining_spec. congruence.
    + by apply resumed_run_skips.
Qed.

Lemma resume_skips_processed_witness :
  Forall (fun ev => "/repo/main.go" ∉ eventFiles ev)
    (trace (fst (IndexDirectoryIncremental demoEnv
                   (Some (MarkFileProcessed (NewIndexingState "/repo") "/repo/main.go" 1))
                   "/repo" [".go"]))).
Proof.
  refine (proj2 (proj2 (proj2 (proj2 (resume_skips_processed demoEnv
            (Some (MarkFileProcessed (NewIndexingState "/repo") "/repo/main.go" 1))
            "/repo" [".go"]))
          (MarkFileProcessed (NewIndexingState "/repo") "/repo/main.go" 1)
          eq_refl _) "/repo/main.go" _)).
  - vm_compute. reflexivity.
  - vm_compute. reflexivity.
Defined.



(** C1, as stated, fails: in the small world of [demoEnv] the first run
    completes and leaves a state file with status [completed]; the
    second run over the same tree ends with status [completed] too, but
    makes an embedding call and an upsert again. *)
Lemma second_run_embeds_again :
  snd demoFirstRun = None /\
  Status (state (fst demoFirstRun)) = "completed" /\
  disk (fst demoFirstRun) = Some (state (fst demoFirstRun)) /\
  snd demoSecondRun = None /\
  Status (state (fst demoSecondRun)) = "completed" /\
  length (List.filter storeCall (trace (fst demoSecondRun))) = 2%nat /\
  ~ Forall (fun ev => storeCall ev = false) (trace (fst demoSecondRun)).
Proof.
  repeat split; try (vm_compute; reflexivity).
  intros Hnone. rewrite Forall_forall in Hnone.
  assert (In (EvEmbedBatch (chunkText "/repo/main.go" "package main") None)
             (trace (fst demoSecondRun))) as Hin by (vm_compute; auto 10).
  apply list_elem_of_In in Hin. by specialize (Hnone _ Hin).
Qed.

(** C1, amended. Let the files be collected and the cancellation signal
    never be seen. A run that finds a state file with status [completed]
    -- what a completed run leaves -- ends with status [completed], but
    it reads every collected file again and makes an embedding call as
    soon as one of them yields a chunk. A run that resumes a state file
    of the same root, not completed, in which every collected file is
    marked as processed, makes no embedding call and no upsert and ends
    with status [completed]. *)
Theorem rerun_after_completion (E : Env) (st : IndexingState)
    (path : string) (extensions : list string) (allFiles : list string) :
  Collector.collectFiles (tree E path) path extensions = inr allFiles ->
  (forall tr, ctxDone E tr = false) ->
  (Status st = "completed" ->
     exists r,
       IndexDirectoryIncremental E (Some st) path extensions = (r, None) /\
       Status (state r) = "completed" /\
       (forall f, f ∈ allFiles -> EvReadFile f ∈ trace r) /\
       (forall f, f ∈ allFiles -> chunksOf E f <> [] ->
          Exists (fun ev => embedCall ev = true) (trace r))) /\
  (RootPath st = path -> Status st <> "completed" ->
   (forall f, f ∈ allFiles -> IsFileProcessed st f = true) ->
     exists r,
       IndexDirectoryIncremental E (Some st) path extensions = (r, None) /\
       Status (state r) = "completed" /\
       Forall (fun ev => storeCall ev = false) (trace r)).
Proof.
  intros Hcollect Hnever. split.
  - intros Hdone. unfold IndexDirectoryIncremental.
    rewrite startState_cases. cbn [startsFresh]. rewrite Hdone, orb_true_r.
    destruct (indexFrom E _ (Some st) path extensions) as [r err] eqn:Hrun.
    eapply indexFrom_spec in Hrun as [_ Hrun]; [|done].
    destruct (Hrun Hnever) as (-> & Hstatus & _ & Hreads & Hembeds).
    exists r. split; [done|]. split; [done|].
    assert (forall f, f ∈ allFiles ->
              f ∈ remaining (NewIndexingState path) allFiles) as Hall.
    { intros f Hf. by apply remaining_spec. }
    split; intros f Hf%Hall; [by apply Hreads|by apply Hembeds].
  - intros Hroot Hstatus Hprocessed. unfold IndexDirectoryIncremental.
    rewrite startState_cases. cbn [startsFresh].
    apply String.eqb_eq in Hroot. apply String.eqb_neq in Hstatus.
    rewrite Hroot, Hstatus. cbn [negb orb default]. change (id st) with st.
    unfold indexFrom. rewrite Hcollect.
    change (remaining (setTotalFiles st _) allFiles) with (remaining st allFiles).
    assert (remaining st allFiles = []) as ->.
    { destruct (remaining st allFiles) as [|f fs] eqn:Hrem; [done|].
      assert (f ∈ remaining st allFiles) as [Hf Hnot]%remaining_spec
        by (rewrite Hrem; left).
      rewrite (Hprocessed f Hf) in Hnot. done. }
    cbn [length Nat.eqb]. eexists. split; [done|].
    match goal with |- context [complete E ?r] =>
      destruct (complete_spec E r) as (e & -> & -> & _) end.
    split; [done|]. by repeat constructor.
Qed.

Lemma rerun_after_completion_witness :
  exists r,
    IndexDirectoryIncremental demoEnv (Some (state (fst demoFirstRun)))
      "/repo" [".go"] = (r, None) /\
    Status (state r) = "completed" /\
    (forall f, f ∈ ["/repo/main.go"] -> EvReadFile f ∈ trace r) /\
    (forall f, f ∈ ["/repo/main.go"] -> chunksOf demoEnv f <> [] ->
       Exists (fun ev => embedCall ev = true) (trace r)).
Proof.
  refine (proj1 (rerun_after_completion demoEnv (state (fst demoFirstRun))
                   "/repo" [".go"] ["/repo/main.go"] _ _) _).
  - vm_compute. reflexivity.
  - intros tr. reflexivity.
  - vm_compute. reflexivity.
Defined.

End RunClaims.

Section BatchClaims.
Import GoStrings State Chunker Pipeline.

(** C6, as stated, fails: a batch of one file of 4100 lines has 103
    chunks, embedded and stored in two sub-batches. The upsert of the
    second sub-batch fails, so the batch fails and the file stays marked
    as processed -- but the 100 chunks of the first sub-batch are
    stored. *)
Lemma failed_batch_with_stored_chunks :
  snd bigBatch = Some "failed to index chunk batch: store unavailable" /\
  IsFileProcessed (state (fst bigBatch)) "/repo/big.go" = true /\
  length (chunksOf bigEnv "/repo/big.go") = 103%nat /\
  length (storedChunks (trace (fst bigBatch))) = 100%nat /\
  forallb (fun c => String.eqb (FilePath c) "/repo/big.go")
          (storedChunks (trace (fst bigBatch))) = true.
Proof. repeat split; vm_compute; reflexivity. Qed.

(** C6, amended. The trace of a file batch is the chunking loop -- reads
    and marks only -- followed by the embedding calls and upserts. Every
    file of the batch that is read without error is marked as processed
    in the loop, the indexed-file counter goes up by the number of these
    files and the chunk counter by the number of their chunks; this is so
    whether the batch then fails or not. When the batch fails, the chunks
    stored are those of the sub-batches of [ChunkBatchSize] chunks before
    the failing one, and no others: none at all when the batch has at
    most [ChunkBatchSize] chunks. A later run that resumes from the
    record has no event about a file marked in this batch. *)
Theorem batch_marks_before_indexing (E : Env) (files : list string)
    (r r' : Run) (err : option string) :
  processBatch E files r = (r', err) ->
  exists chunking indexing,
    trace r' = trace r ++ chunking ++ indexing /\
    Forall (fun ev => chunkingEvent ev = true /\ storeCall ev = false) chunking /\
    Forall (fun ev => storeCall ev = true) indexing /\
    (forall f, f ∈ files -> readOk E f = true ->
       EvMarkProcessed f (Z.of_nat (length (chunksOf E f))) ∈ chunking /\
       IsFileProcessed (state r') f = true) /\
    IndexedFiles (state r') =
      (IndexedFiles (state r) + Z.of_nat (length (List.filter (readOk E) files)))%Z /\
    TotalChunks (state r') =
      (TotalChunks (state r)
       + Z.of_nat (length (concat (map (chunksOf E) files))))%Z /\
    (err <> None -> exists m,
       (m * ChunkBatchSize < length (concat (map (chunksOf E) files)))%nat /\
       storedChunks indexing =
         firstn (m * ChunkBatchSize) (concat (map (chunksOf E) files))) /\
    ((length (concat (map (chunksOf E) files)) <= ChunkBatchSize)%nat ->
       err <> None -> storedChunks indexing = []) /\
    (forall E' onDisk extensions f,
       f ∈ files -> readOk E f = true ->
       onDisk = Some (state r') ->
       startsFresh onDisk (RootPath (state r')) = false ->
       Forall (fun ev => f ∉ eventFiles ev)
         (trace (fst (IndexDirectoryIncremental E' onDisk
                        (RootPath (state r')) extensions)))).
Proof.
  intros (indexing & Htrace & Hstate & _ & Hindexing & _ & _ & Hstored)%processBatch_spec.
  exists (concat (map (chunkEvents E) files)), indexing.
  assert (forall f, f ∈ files -> readOk E f = true ->
            IsFileProcessed (state r') f = true) as Hmarked.
  { intros f Hf Hok. rewrite Hstate. by apply chunkMarks_processed. }
  destruct (chunkMarks_counters E files (state r)) as [Hindexed Hchunks].
  split; [done|]. split; [|split; [|split; [|split; [|split; [|split; [|split]]]]]].
  - eapply Forall_impl; [apply chunkEvents_files|]. by intros ev (? & ? & _).
  - eapply Forall_impl; [exact Hindexing|]. by intros ev [? _].
  - intros f Hf Hok. split; [|by apply Hmarked].
    apply elem_of_concat. exists (chunkEvents E f).
    split; [by apply list_elem_of_fmap_2|].
    unfold chunkEvents, chunksOf, readOk in *.
    destruct (readFile E f); [done|]. right. left.
  - by rewrite Hstate.
  - by rewrite Hstate.
  - done.
  - intros Hsmall Herr. destruct (Hstored Herr) as (m & Hm & ->).
    unfold ChunkBatchSize in *. by replace m with 0%nat by lia.
  - intros E' onDisk extensions f Hf Hok -> Hresume.
    apply resumed_run_skips; [done|]. by apply Hmarked.
Qed.

Lemma batch_marks_before_indexing_witness :
  exists chunking indexing,
    trace (fst bigBatch) = [] ++ chunking ++ indexing /\
    Forall (fun ev => chunkingEvent ev = true /\ storeCall ev = false) chunking /\
    Forall (fun ev => storeCall ev = true) indexing /\
    IsFileProcessed (state (fst bigBatch)) "/repo/big.go" = true.
Proof.
  destruct (batch_marks_before_indexing bigEnv ["/repo/big.go"]
              {| state := NewIndexingState "/repo"; disk := None; trace := [] |}
              (fst bigBatch) (snd bigBatch))
    as (chunking & indexing & Htrace & Hchunking & Hindexing & Hmarked & _).
  - unfold bigBatch. by destruct (processBatch _ _ _).
  - exists chunking, indexing. split; [exact Htrace|].
    split; [exact Hchunking|]. split; [exact Hindexing|].
    apply (Hmarked "/repo/big.go"); [left|reflexivity].
Defined.

End BatchClaims.

Section ReindexClaims.
Import GoStrings State Chunker Pipeline.

(** One turn of the loop of [ReindexFiles]. *)
Lemma reindexStep_spec E tr allChunks filePath :
  reindexStep E (tr, allChunks) filePath =
  (tr ++ reindexEvents E filePath, allChunks ++ reindexChunks E filePath).
Proof.
  unfold reindexStep, reindexEvents, reindexChunks, chunkFile, chunksOf.
  destruct (notExist E filePath).
  - by rewrite !app_nil_r, <- app_assoc.
  - rewrite <- !app_assoc. cbn [app].
    destruct (readFile E filePath) as [err|text]; [by rewrite app_nil_r|].
    destruct (chunkText filePath text) as [|c cs]; [by rewrite app_nil_r|done].
Qed.

Lemma reindexLoop_fold E filePaths tr allChunks :
  fold_left (reindexStep E) filePaths (tr, allChunks) =
  (tr ++ concat (map (reindexEvents E) filePaths),
   allChunks ++ concat (map (reindexChunks E) filePaths)).
Proof.
  revert tr allChunks. induction filePaths as [|f fs IH]; intros tr allChunks.
  - cbn. by rewrite !app_nil_r.
  - cbn [fold_left map concat]. by rewrite reindexStep_spec, IH, <- !app_assoc.
Qed.

Lemma deleteCalls_app p tr1 tr2 :
  deleteCalls p (tr1 ++ tr2) = (deleteCalls p tr1 + deleteCalls p tr2)%nat.
Proof. unfold deleteCalls. by rewrite List.filter_app, length_app. Qed.

(** One delete call for each time the path is asked for. *)
Lemma deleteCalls_loop E p filePaths :
  deleteCalls p (concat (map (reindexEvents E) filePaths)) = requests p filePaths.
Proof.
  induction filePaths as [|f fs IH]; [done|].
  cbn [map concat]. rewrite deleteCalls_app, IH.
  unfold requests. cbn [List.filter]. unfold reindexEvents, deleteCalls.
  cbn [app List.filter].
  destruct (String.eqb f p), (notExist E f); cbn; done.
Qed.

Lemma deleteCalls_indexing p indexing :
  Forall (fun ev => storeCall ev = true) indexing -> deleteCalls p indexing = 0%nat.
Proof.
  induction 1 as [|ev evs Hev _ IH]; [done|].
  unfold deleteCalls in *. cbn [List.filter]. by destruct ev.
Qed.

Lemma requests_once p filePaths :
  p ∈ filePaths -> NoDup filePaths -> requests p filePaths = 1%nat.
Proof.
  unfold requests. induction filePaths as [|f fs IH]; [by intros ?%elem_of_nil|].
  intros Hin [Hnotin Hnodup]%NoDup_cons. cbn [List.filter].
  destruct (String.eqb_spec f p) as [->|Hne].
  - cbn. f_equal. apply length_zero_iff_nil.
    destruct (List.filter _ fs) as [|x xs] eqn:Hfilter; [done|].
    assert (In x (List.filter (fun f => String.eqb f p) fs)) as [Hx Heq]%filter_In
      by (rewrite Hfilter; left; done).
    apply String.eqb_eq in Heq. subst. by apply list_elem_of_In in Hx.
  - apply elem_of_cons in Hin as [->|Hin]; [done|]. by apply IH.
Qed.

(** The events of the loop about a missing path are its delete call and
    the [Stat] that finds it missing. *)
Lemma reindexEvents_missing E p filePaths :
  notExist E p = true ->
  Forall (fun ev => p ∈ eventFiles ev -> ev = EvDelete p \/ ev = EvStat p)
         (concat (map (reindexEvents E) filePaths)).
Proof.
  intros Hmissing. apply Forall_concat, Forall_map, Forall_forall.
  intros f _. unfold reindexEvents. cbn [app].
  apply Forall_cons. split.
  { intros ->%list_elem_of_singleton. by left. }
  apply Forall_cons. split.
  { intros ->%list_elem_of_singleton. by right. }
  destruct (notExist E f) eqn:Hf; [constructor|].
  apply Forall_cons. split; [|constructor].
  intros ->%list_elem_of_singleton. congruence.
Qed.

(** No chunk of the combined batch is of a missing path. *)
Lemma reindexChunks_missing E p filePaths :
  notExist E p = true ->
  p ∉ map FilePath (concat (map (reindexChunks E) filePaths)).
Proof.
  intros Hmissing (c & -> & (cs & (f & -> & _)%list_elem_of_fmap & Hc)%elem_of_concat)%list_elem_of_fmap.
  unfold reindexChunks in Hc. destruct (notExist E f) eqn:Hf.
  - by apply elem_of_nil in Hc.
  - apply chunksOf_FilePath in Hc. congruence.
Qed.

(** C8. The trace of a reindex request is the loop over the requested
    paths followed by the embedding call and upsert of the combined
    batch, if any. For a requested path that does not exist on disk
    there is one delete call for each time it is asked for (exactly one
    when it is asked for once), and every other event about it is the
    [Stat] that finds it missing: no read, no embedding call and no
    upsert with a chunk of it. The request returns an error only if a
    call of the combined batch failed; if no requested path yields a
    chunk it returns without error and without embedding call or
    upsert. *)
Theorem reindex_missing_files (E : Env) (filePaths : list string)
    (tr tr' : list Event) (err : option string) :
  ReindexFiles E filePaths tr = (tr', err) ->
  exists new,
    tr' = tr ++ new /\
    (forall p, notExist E p = true ->
       deleteCalls p new = requests p filePaths /\
       (p ∈ filePaths -> NoDup filePaths -> deleteCalls p new = 1%nat) /\
       Forall (fun ev => p ∈ eventFiles ev -> ev = EvDelete p \/ ev = EvStat p) new) /\
    (err <> None -> Exists (fun ev => failedCall ev = true) new) /\
    (concat (map (reindexChunks E) filePaths) = [] ->
       err = None /\ Forall (fun ev => storeCall ev = false) new).
Proof.
  unfold ReindexFiles. rewrite reindexLoop_fold. cbn [app].
  set (loop := concat (map (reindexEvents E) filePaths)).
  set (allChunks := concat (map (reindexChunks E) filePaths)).
  assert (forall p, notExist E p = true -> forall more,
            Forall (fun ev => storeCall ev = true) more ->
            Forall (fun ev => p ∈ eventFiles ev -> ev = EvDelete p \/ ev = EvStat p) more ->
            deleteCalls p (loop ++ more) = requests p filePaths /\
            (p ∈ filePaths -> NoDup filePaths -> deleteCalls p (loop ++ more) = 1%nat) /\
            Forall (fun ev => p ∈ eventFiles ev -> ev = EvDelete p \/ ev = EvStat p)
                   (loop ++ more)) as Hmissing.
  { intros p Hp more Hcalls Hmore.
    assert (deleteCalls p (loop ++ more) = requests p filePaths) as Hcount.
    { rewrite deleteCalls_app, (deleteCalls_indexing _ _ Hcalls).
      unfold loop. rewrite deleteCalls_loop. lia. }
    split; [done|]. split.
    - intros Hin Hnodup. rewrite Hcount. by apply requests_once.
    - apply Forall_app. split; [by apply reindexEvents_missing|done]. }
  assert (forall p e, notExist E p = true ->
            p ∈ eventFiles (EvEmbedBatch allChunks e) ->
            EvEmbedBatch allChunks e = EvDelete p \/
            EvEmbedBatch allChunks e = EvStat p) as Hembed.
  { intros p e Hp Hin. by apply reindexChunks_missing in Hin. }
  assert (forall p e, notExist E p = true ->
            p ∈ eventFiles (EvUpsert allChunks e) ->
            EvUpsert allChunks e = EvDelete p \/
            EvUpsert allChunks e = EvStat p) as Hupsert.
  { intros p e Hp Hin. by apply reindexChunks_missing in Hin. }
  destruct (length allChunks =? 0)%nat eqn:Hlen.
  - intros [= <- <-]. exists loop. split; [done|]. split; [|split].
    + intros p Hp. destruct (Hmissing p Hp [] ltac:(constructor) ltac:(constructor))
        as (Hcount & Hone & Hevents).
      rewrite app_nil_r in *. done.
    + done.
    + intros _. split; [done|].
      apply Forall_concat, Forall_map, Forall_forall. intros f _.
      unfold reindexEvents. destruct (notExist E f); by repeat constructor.
  - apply Nat.eqb_neq in Hlen. unfold indexBatch.
    destruct (embedBatch E (tr ++ loop) allChunks) as [e|] eqn:Hemb.
    + intros [= <- <-]. exists (loop ++ [EvEmbedBatch allChunks (Some e)]).
      split; [by rewrite app_assoc|]. split; [|split].
      * intros p Hp. apply (Hmissing p Hp); [by repeat constructor|].
        apply Forall_cons_2; [by apply Hembed|apply Forall_nil_2].
      * intros _. apply Exists_app. right. by left.
      * intros Hnil. by rewrite Hnil in Hlen.
    + destruct (upsert E _ allChunks) as [e|] eqn:Hups.
      * intros [= <- <-].
        exists (loop ++ [EvEmbedBatch allChunks None; EvUpsert allChunks (Some e)]).
        split; [by rewrite <- !app_assoc|]. split; [|split].
        -- intros p Hp. apply (Hmissing p Hp); [by repeat constructor|].
           apply Forall_cons_2; [by apply Hembed|].
           apply Forall_cons_2; [by apply Hupsert|apply Forall_nil_2].
        -- intros _. apply Exists_app. right. right. by left.
        -- intros Hnil. by rewrite Hnil in Hlen.
      * intros [= <- <-].
        exists (loop ++ [EvEmbedBatch allChunks None; EvUpsert allChunks None]).
        split; [by rewrite <- !app_assoc|]. split; [|split].
        -- intros p Hp. apply (Hmissing p Hp); [by repeat constructor|].
           apply Forall_cons_2; [by apply Hembed|].
           apply Forall_cons_2; [by apply Hupsert|apply Forall_nil_2].
        -- done.
        -- intros Hnil. by rewrite Hnil in Hlen.
Qed.

Lemma reindex_missing_files_witness :
  exists new,
    fst (ReindexFiles goneEnv ["/repo/gone.go"] []) = [] ++ new /\
    deleteCalls "/repo/gone.go" new = 1%nat /\
    Forall (fun ev => "/repo/gone.go" ∈ eventFiles ev ->
              ev = EvDelete "/repo/gone.go" \/ ev = EvStat "/repo/gone.go") new /\
    snd (ReindexFiles goneEnv ["/repo/gone.go"] []) = None /\
    Forall (fun ev => storeCall ev = false) new.
Proof.
  destruct (reindex_missing_files goneEnv ["/repo/gone.go"] []
              (fst (ReindexFiles goneEnv ["/repo/gone.go"] []))
              (snd (ReindexFiles goneEnv ["/repo/gone.go"] [])))
    as (new & Htrace & Hmissing & _ & Hnone).
  - by destruct (ReindexFiles _ _ _).
  - destruct (Hmissing "/repo/gone.go" eq_refl) as (_ & Hone & Hevents).
    destruct (Hnone eq_refl) as [Herr Hcalls].
    exists new. split; [exact Htrace|]. split; [|by repeat split].
    apply Hone; [left|]. apply NoDup_singleton.
Defined.

End ReindexClaims.

(** * Further properties of the package *)

(** ** Keys of search hits: printing and parsing *)

Section KeyFacts.
Import GoStrings Dedup.

Lemma countByte_app s1 s2 sep :
  countByte (s1 +:+ s2) sep = (countByte s1 sep + countByte s2 sep)%nat.
Proof.
  induction s1 as [|c s1 IH]; [done|].
  rewrite app_String. cbn. rewrite IH. lia.
Qed.

Lemma countByte_none s sep :
  all_bytes (byte_isnt sep) s = true <-> countByte s sep = 0%nat.
Proof.
  induction s as [|c s IH]; cbn; [done|].
  unfold byte_isnt at 1. destruct (Ascii.eqb c sep); cbn; [done|apply IH].
Qed.

(** There is one piece more than there are separators. *)
Lemma Split_length s sep : length (Split s sep) = S (countByte s sep).
Proof.
  induction s as [|c s IH]; cbn; [done|].
  destruct (Ascii.eqb c sep); cbn; [by rewrite IH|].
  destruct (Split s sep); cbn in *; lia.
Qed.

(** Joining the pieces with the separator gives the string back. *)
Lemma Join_Split s sep : Join (Split s sep) sep = s.
Proof.
  induction s as [|c s IH]; cbn; [done|].
  pose proof (Split_nonempty s sep) as Hne.
  destruct (Ascii.eqb_spec c sep) as [->|Hc].
  - destruct (Split s sep) as [|p ps]; [done|].
    cbn [Join]. rewrite app_Empty. by rewrite <- IH.
  - destruct (Split s sep) as [|p [|q ps]]; [done| |].
    + cbn in *. by rewrite IH.
    + cbn [Join] in *. rewrite app_String. by rewrite IH.
Qed.

(** A negative number prints with a minus sign in front. *)
Lemma Itoa_negative n :
  (n < 0)%Z -> exists digits, Itoa n = String "-" digits.
Proof.
  intros Hn. unfold Itoa. destruct n as [|p|p]; [lia..|]. by eexists.
Qed.

(** Printing and parsing a number: it comes back exactly when it is a
    natural number of [int]. *)
Lemma Atoi_Itoa_big n : (maxInt < n)%Z -> Atoi (Itoa n) = None.
Proof.
  intros Hbig. assert (0 <= n)%Z as Hn by (unfold maxInt in *; lia).
  destruct (Itoa_digits n Hn) as (d & Hs & Hd & Hv).
  rewrite Hs. pose proof (digits_of_uint d) as Hdig.
  destruct (NilEmpty.string_of_uint d) as [|c s] eqn:Hstr.
  { by destruct d. }
  unfold Atoi. cbn in Hdig. apply andb_true_iff in Hdig as [Hc _].
  assert (Ascii.eqb c "-" = false) as ->.
  { destruct (Ascii.eqb_spec c "-") as [->|]; done. }
  assert (Ascii.eqb c "+" = false) as ->.
  { destruct (Ascii.eqb_spec c "+") as [->|]; done. }
  cbn [orb]. rewrite <- Hstr.
  replace (NilZero.uint_of_string (NilEmpty.string_of_uint d)) with (Some d).
  2:{ symmetry. unfold NilZero.uint_of_string. rewrite Hstr, <- Hstr.
      apply NilEmpty.usu. }
  cbn zeta. rewrite Hv.
  assert ((n <=? maxInt)%Z = false) as -> by lia.
  by rewrite andb_false_r.
Qed.

Lemma Atoi_Itoa_cases n :
  (0 <= n)%Z -> Atoi (Itoa n) = if (n <=? maxInt)%Z then Some n else None.
Proof.
  intros Hn. destruct (Z.leb_spec n maxInt).
  - by apply Atoi_Itoa.
  - by apply Atoi_Itoa_big.
Qed.

Lemma Itoa_minus_count n :
  countByte (Itoa n) "-" = if (0 <=? n)%Z then 0%nat else 1%nat.
Proof.
  destruct (Z.leb_spec 0 n) as [Hn|Hn].
  - apply countByte_none, digits_free; done.
  - unfold Itoa. destruct n as [|p|p]; [lia..|]. cbn. f_equal.
    apply countByte_none. eapply all_bytes_impl; [|apply digits_of_uint].
    intros c. by apply isDigit_isnt.
Qed.

Lemma Itoa_no_colon n : all_bytes (byte_isnt ":") (Itoa n) = true.
Proof.
  apply countByte_none. unfold Itoa. destruct n as [|p|p]; [done| |].
  - apply countByte_none. eapply all_bytes_impl; [|apply digits_of_uint].
    intros c. by apply isDigit_isnt.
  - cbn. apply countByte_none. eapply all_bytes_impl; [|apply digits_of_uint].
    intros c. by apply isDigit_isnt.
Qed.

Lemma parseRangeKey_rangeKey_cases (filePath : string) (lineStart lineEnd : Z) :
  parseRangeKey (rangeKey filePath lineStart lineEnd) =
  if parsable filePath lineStart lineEnd
  then Some (0%Z, lineStart, lineEnd) else None.
Proof.
  unfold parsable, parseRangeKey, rangeKey.
  set (range := Itoa lineStart +:+ String "-" (Itoa lineEnd)).
  destruct (noColon filePath) eqn:Hfile; cbn [andb].
  2:{ pose proof (Split_length (filePath +:+ String ":" range) ":") as Hlen.
      rewrite countByte_app in Hlen. cbn [countByte] in Hlen.
      rewrite Ascii.eqb_refl in Hlen.
      assert (countByte filePath ":" <> 0)%nat as Hcolon.
      { intros Hzero%countByte_none. unfold noColon in Hfile. congruence. }
      destruct (Split _ ":") as [|? [|? [|? ?]]]; cbn in Hlen; try done; lia. }
  rewrite (Split_first _ _ _ Hfile).
  rewrite (Split_none range ":").
  2:{ unfold range. by rewrite all_bytes_app; cbn; rewrite !Itoa_no_colon. }
  pose proof (Split_length range "-") as Hlen. unfold range in Hlen.
  rewrite countByte_app in Hlen. cbn [countByte] in Hlen.
  rewrite Ascii.eqb_refl, !Itoa_minus_count in Hlen.
  destruct (Z.leb_spec 0 lineStart) as [Hs|Hs]; cbn [andb].
  2:{ fold range in Hlen.
      destruct (Split range "-") as [|? [|? [|? ?]]]; cbn in Hlen;
        first [done | destruct (0 <=? lineEnd)%Z; lia]. }
  destruct (Z.leb_spec 0 lineEnd) as [He|He].
  2:{ rewrite andb_false_r. cbn [andb]. fold range in Hlen.
      destruct (Split range "-") as [|? [|? [|? ?]]]; cbn in Hlen;
        first [done | lia]. }
  clear Hlen. unfold range.
  rewrite Split_first by (apply digits_free; done).
  rewrite Split_none by (apply digits_free; done).
  rewrite !Atoi_Itoa_cases by done.
  destruct (lineStart <=? maxInt)%Z, (lineEnd <=? maxInt)%Z; done.
Qed.

(** X1. The key that [deduplicateResults] builds for a hit parses back to
    the line numbers of the hit exactly when the path of the hit has no
    colon and both line numbers are natural numbers of [int]; for every
    other hit -- a colon in the path, a negative line number --
    [parseRangeKey] returns [nil]. The file slot is always 0. *)
Theorem parseRangeKey_round_trip (result : SearchResult) :
  parseRangeKey (keyOf result) =
  if parsable (FilePath result) (LineStart result) (LineEnd result)
  then Some (0%Z, LineStart result, LineEnd result) else None.
Proof. unfold keyOf. apply parseRangeKey_rangeKey_cases. Qed.

End KeyFacts.

(** ** The hits that de-duplication keeps *)

Section KeptFacts.
Import GoStrings Dedup.

Lemma existsb_seen (seen : gset string) key :
  existsb (fun existingKey => isOverlapping existingKey key) (elements seen) = true
  <-> exists existingKey, existingKey ∈ seen /\ isOverlapping existingKey key = true.
Proof.
  rewrite existsb_exists. split; intros (k & Hk & Ho); exists k; split; try done.
  - by apply elem_of_elements, list_elem_of_In.
  - by apply list_elem_of_In, elem_of_elements.
Qed.

Lemma existsb_seen_ext (seen1 seen2 : gset string) key :
  (forall k, isOverlapping k key = true -> k ∈ seen1 <-> k ∈ seen2) ->
  existsb (fun existingKey => isOverlapping existingKey key) (elements seen1) =
  existsb (fun existingKey => isOverlapping existingKey key) (elements seen2).
Proof.
  intros Hsame. apply eq_true_iff_eq. rewrite !existsb_seen.
  split; intros (k & Hk & Ho); exists k; split; try done; by apply (Hsame k Ho).
Qed.

(** The comparison is symmetric in its two keys. *)
Lemma isOverlapping_sym key1 key2 :
  isOverlapping key1 key2 = isOverlapping key2 key1.
Proof.
  unfold isOverlapping.
  destruct (parseRangeKey key1) as [[[f1 s1] e1]|] eqn:H1,
           (parseRangeKey key2) as [[[f2 s2] e2]|] eqn:H2; try done.
  apply parseRangeKey_bounds in H1 as (-> & _ & _).
  apply parseRangeKey_bounds in H2 as (-> & _ & _).
  cbn [Z.eqb negb]. rewrite (Z.max_comm s2 s1), (Z.min_comm e2 e1).
  destruct (_ >=? _)%Z; [done|]. apply orb_comm.
Qed.

Lemma keptFrom_sublist seen results : keptFrom seen results `sublist_of` results.
Proof.
  revert seen. induction results as [|r rest IH]; intros seen; cbn; [constructor|].
  destruct (existsb _ _).
  - apply sublist_cons, IH.
  - apply sublist_skip, IH.
Qed.

Lemma keptFrom_app seen results1 results2 :
  keptFrom seen (results1 ++ results2) =
  keptFrom seen results1 ++ keptFrom (seenAfter seen results1) results2.
Proof.
  unfold seenAfter. generalize (@nil SearchResult) as unique.
  revert seen. induction results1 as [|r rest IH]; intros seen unique; cbn; [done|].
  destruct (existsb _ _); [apply IH|].
  cbn. f_equal. apply IH.
Qed.

(** The keys that the kept hits meet: none overlaps them. *)
Lemma keptFrom_clear seen results :
  Forall (fun r => forall k, k ∈ seen -> isOverlapping k (keyOf r) = false)
         (keptFrom seen results).
Proof.
  revert seen. induction results as [|r rest IH]; intros seen; cbn; [constructor|].
  destruct (existsb _ _) eqn:Hdup; [apply IH|].
  constructor.
  - intros k Hk. destruct (isOverlapping k (keyOf r)) eqn:Ho; [|done].
    assert (existsb (fun existingKey => isOverlapping existingKey (keyOf r))
              (elements seen) = true) as Habs by (apply existsb_seen; eauto).
    congruence.
  - eapply Forall_impl; [apply IH|]. cbn. intros x Hx k Hk. apply Hx. set_solver.
Qed.

Lemma keptFrom_separate seen results :
  ForallOrdPairs (fun a b => overlaps a b = false /\ overlaps b a = false)
                 (keptFrom seen results).
Proof.
  revert seen. induction results as [|r rest IH]; intros seen; cbn; [constructor|].
  destruct (existsb _ _) eqn:Hdup; [apply IH|].
  constructor; [|apply IH].
  pose proof (keptFrom_clear ({[keyOf r]} ∪ seen) rest) as Hclear.
  apply List.Forall_forall. intros x Hx%list_elem_of_In.
  rewrite Forall_forall in Hclear.
  assert (overlaps r x = false) as Hrx by (apply (Hclear x Hx); set_solver).
  split; [done|]. unfold overlaps in *. by rewrite isOverlapping_sym.
Qed.

Lemma keptFrom_dropped seen results :
  Forall (fun r => r ∈ keptFrom seen results
                   \/ (exists k, k ∈ seen /\ isOverlapping k (keyOf r) = true)
                   \/ exists kept, kept ∈ keptFrom seen results /\ overlaps kept r = true)
         results.
Proof.
  revert seen. induction results as [|r rest IH]; intros seen; cbn; [constructor|].
  destruct (existsb _ _) eqn:Hdup.
  - constructor; [right; left; by apply existsb_seen|]. apply IH.
  - constructor; [left; left|].
    eapply Forall_impl; [apply (IH ({[keyOf r]} ∪ seen))|]. cbn.
    intros x [Hx|[(k & Hk & Ho)|(kept & Hk & Ho)]].
    + left. by right.
    + apply elem_of_union in Hk as [->%elem_of_singleton|Hk].
      * right; right. exists r. split; [left|done].
      * right; left. eauto.
    + right; right. exists kept. split; [by right|done].
Qed.

(** A key that overlaps nothing can be put into the map or left out. *)
Lemma keptFrom_inert key seen results :
  (forall other, isOverlapping key other = false) ->
  keptFrom ({[key]} ∪ seen) results = keptFrom seen results.
Proof.
  intros Hinert. revert seen.
  induction results as [|r rest IH]; intros seen; cbn; [done|].
  rewrite (existsb_seen_ext ({[key]} ∪ seen) seen).
  2:{ intros k Ho. split; [|set_solver].
      intros [->%elem_of_singleton|Hk]%elem_of_union; [|done].
      by rewrite Hinert in Ho. }
  destruct (existsb _ _); [apply IH|]. f_equal.
  replace ({[keyOf r]} ∪ ({[key]} ∪ seen)) with ({[key]} ∪ ({[keyOf r]} ∪ seen))
    by (apply set_eq; intros k; rewrite !elem_of_union; tauto).
  apply IH.
Qed.

Lemma isOverlapping_empty_range result other :
  (LineEnd result <= LineStart result)%Z ->
  isOverlapping (keyOf result) other = false.
Proof.
  intros Hempty. unfold isOverlapping, keyOf.
  rewrite parseRangeKey_rangeKey_cases. destruct (parsable _ _ _); [|done].
  destruct (parseRangeKey other) as [[[f2 s2] e2]|]; [|done].
  destruct (negb _); [done|].
  destruct (Z.geb_spec (Z.max (LineStart result) s2) (Z.min (LineEnd result) e2));
    [done|lia].
Qed.

Lemma isOverlapping_same filePath lineStart lineEnd :
  parsable filePath lineStart lineEnd = true -> (lineStart < lineEnd)%Z ->
  isOverlapping (rangeKey filePath lineStart lineEnd)
                (rangeKey filePath lineStart lineEnd) = true.
Proof.
  intros Hp Hlt. unfold isOverlapping.
  rewrite parseRangeKey_rangeKey_cases, Hp. cbn [Z.eqb negb].
  rewrite Z.max_id, Z.min_id.
  destruct (Z.geb_spec lineStart lineEnd); [lia|].
  apply orb_true_iff. left. apply Z.ltb_lt. lia.
Qed.

Lemma filter_separate {A} (apart : A -> A -> Prop) (p : A -> bool) (l : list A) :
  ForallOrdPairs apart l ->
  (forall a b, p a = true -> p b = true -> ~ apart a b) ->
  (length (List.filter p l) <= 1)%nat.
Proof.
  intros Hpairs Hclash. induction Hpairs as [|a l Ha Hl IH]; cbn; [lia|].
  destruct (p a) eqn:Hpa; [|done]. cbn.
  assert (List.filter p l = []) as ->; [|cbn; lia].
  destruct (List.filter p l) as [|b rest] eqn:Hf; [done|].
  assert (In b (List.filter p l)) as [Hin Hpb]%filter_In by (rewrite Hf; left; done).
  rewrite List.Forall_forall in Ha. destruct (Hclash a b Hpa Hpb (Ha b Hin)).
Qed.

(** X2. De-duplication only removes hits: the result lists hits of the
    input in the order of the input (so the order by score that the
    search gave is kept), and the first hit of the input is always the
    first hit of the result. *)
Theorem dedup_keeps_order (results : list SearchResult) :
  deduplicateResults results `sublist_of` results /\
  head (deduplicateResults results) = head results.
Proof.
  rewrite deduplicateResults_keptFrom. split; [apply keptFrom_sublist|].
  destruct results as [|r rest]; [done|]. cbn. by rewrite elements_empty.
Qed.

(** X3. What is kept and what is dropped: no two kept hits overlap
    (whichever of the two is taken first), and every hit of the input is
    either kept or overlaps a kept hit. *)
Theorem dedup_separates (results : list SearchResult) :
  ForallOrdPairs (fun a b => overlaps a b = false /\ overlaps b a = false)
                 (deduplicateResults results) /\
  Forall (fun r => r ∈ deduplicateResults results \/
                   exists kept, kept ∈ deduplicateResults results /\
                                overlaps kept r = true)
         results.
Proof.
  rewrite deduplicateResults_keptFrom. split; [apply keptFrom_separate|].
  eapply Forall_impl; [apply (keptFrom_dropped ∅)|]. cbn.
  intros r [Hr|[(k & Hk & _)|Hr]]; [by left|set_solver|by right].
Qed.

(** X4. A hit whose end line is not after its start line (a chunk of one
    line, or a hit whose payload has no line numbers and reads 0-0) takes
    no part in the de-duplication: it is always kept, also beside an
    identical hit, and the other hits are kept or dropped as if it were
    not in the list. *)
Theorem dedup_keeps_empty_range (pre post : list SearchResult) (result : SearchResult) :
  (LineEnd result <= LineStart result)%Z ->
  exists kept1 kept2,
    deduplicateResults (pre ++ result :: post) = kept1 ++ result :: kept2 /\
    deduplicateResults (pre ++ post) = kept1 ++ kept2.
Proof.
  intros Hempty. rewrite !deduplicateResults_keptFrom, !keptFrom_app.
  exists (keptFrom ∅ pre), (keptFrom (seenAfter ∅ pre) post).
  split; [|done]. f_equal. cbn.
  destruct (existsb _ _) eqn:Hdup.
  { apply existsb_seen in Hdup as (k & _ & Ho).
    rewrite isOverlapping_sym, isOverlapping_empty_range in Ho; done. }
  f_equal. apply keptFrom_inert. intros other.
  by apply isOverlapping_empty_range.
Qed.

Lemma dedup_keeps_empty_range_witness :
  let line := mkSearchResult "id" 1 "one.go" "package one" 1 1 "go" in
  (LineEnd line <= LineStart line)%Z /\
  exists kept1 kept2,
    deduplicateResults ([] ++ line :: [line]) = kept1 ++ line :: kept2 /\
    deduplicateResults ([] ++ [line]) = kept1 ++ kept2.
Proof.
  split; [cbn; lia|].
  apply (dedup_keeps_empty_range [] _ (mkSearchResult "id" 1 "one.go" "package one" 1 1 "go")).
  cbn. lia.
Defined.

(** X5. Of the hits with one and the same key at most one is kept, when
    the path has no colon and the range is a proper one (start before
    end, both natural numbers of [int]): exact duplicates are removed. *)
Theorem dedup_one_hit_per_range (results : list SearchResult)
    (filePath : string) (lineStart lineEnd : Z) :
  parsable filePath lineStart lineEnd = true -> (lineStart < lineEnd)%Z ->
  (length (List.filter (sameKey (rangeKey filePath lineStart lineEnd))
                       (deduplicateResults results)) <= 1)%nat.
Proof.
  intros Hp Hlt. rewrite deduplicateResults_keptFrom.
  eapply filter_separate; [apply keptFrom_separate|].
  unfold sameKey, overlaps.
  intros a b ->%String.eqb_eq ->%String.eqb_eq [Hab _].
  by rewrite isOverlapping_same in Hab.
Qed.

Lemma dedup_one_hit_per_range_witness :
  let hit := mkSearchResult "id" 1 "a.go" "package a" 1 50 "go" in
  parsable "a.go" 1 50 = true /\ (1 < 50)%Z /\
  (length (List.filter (sameKey (rangeKey "a.go" 1 50))
                       (deduplicateResults [hit; hit])) <= 1)%nat.
Proof.
  cbn zeta. split; [vm_compute; reflexivity|]. split; [lia|].
  apply dedup_one_hit_per_range; [vm_compute; reflexivity|lia].
Defined.

End KeptFacts.

(** ** The chunks of a file *)

Section ChunkFacts.
Import GoStrings Chunker.

Lemma StronglySorted_sublist {A} (R : A -> A -> Prop) (l1 l2 : list A) :
  l1 `sublist_of` l2 -> StronglySorted R l2 -> StronglySorted R l1.
Proof.
  induction 1 as [|x l1 l2 Hsub IH|x l1 l2 Hsub IH]; intros Hsorted; [done|..].
  - apply StronglySorted_inv in Hsorted as [Hl2 Hx]. constructor; [by apply IH|].
    rewrite Forall_forall in *. intros y Hy. apply Hx. by eapply elem_of_sublist.
  - apply StronglySorted_inv in Hsorted as [Hl2 _]. by apply IH.
Qed.

(** The windows start [stride] apart, from [i] on. *)
Lemma windows_starts size s n i :
  Forall (fun w => exists k, fst w = (i + k * S s)%nat) (windows size (S s) n i).
Proof.
  remember (n - i)%nat as m eqn:Hm. revert i Hm.
  induction m as [m IH] using lt_wf_ind. intros i Hm.
  rewrite windows_step. destruct (lt_dec i n) as [Hlt|]; [|constructor].
  constructor; [exists 0%nat; cbn; lia|].
  eapply Forall_impl; [eapply (IH (n - (i + S s))%nat); [lia|done]|].
  cbn. intros w [k Hk]. exists (S k). lia.
Qed.

Lemma windows_sorted size s n i :
  StronglySorted (fun a b => (fst a + S s <= fst b)%nat) (windows size (S s) n i).
Proof.
  remember (n - i)%nat as m eqn:Hm. revert i Hm.
  induction m as [m IH] using lt_wf_ind. intros i Hm.
  rewrite windows_step. destruct (lt_dec i n) as [Hlt|]; [|constructor].
  constructor; [eapply (IH (n - (i + S s))%nat); [lia|done]|].
  apply Forall_forall. intros w Hw. cbn.
  pose proof (windows_starts size s n (i + S s)) as Hall.
  rewrite Forall_forall in Hall. destruct (Hall w Hw) as [k Hk]. lia.
Qed.

(** The chunks are the chunks of some of the windows, in their order, and
    none of these windows is blank. *)
Lemma chunkLoop_sub filePath lines ws :
  exists ws', ws' `sublist_of` ws /\
    chunkLoop filePath lines ws [] = map (windowChunk filePath lines) ws' /\
    Forall (fun w => blankWindow lines w = false) ws'.
Proof.
  induction ws as [|w ws (ws' & Hsub & Heq & Hnb)].
  - exists []. by repeat split.
  - rewrite chunkLoop_cons. destruct (blankWindow lines w) eqn:Hw.
    + exists ws'. split; [by apply sublist_cons|done].
    + destruct (snd w =? length lines)%nat.
      * exists [w]. split; [apply sublist_skip, sublist_nil_l|].
        split; [done|]. by constructor.
      * exists (w :: ws'). split; [by apply sublist_skip|].
        split; [cbn; by rewrite Heq|]. by constructor.
Qed.

(** *** Blank texts *)

Lemma space_rune_width_nl c a b :
  space_rune_width (String c (a +:+ String "010" b)) = space_rune_width (String c a).
Proof.
  destruct a as [|c1 [|c2 a]]; rewrite ?app_String, ?app_Empty;
    [| |reflexivity]; cbn [space_rune_width];
    change (nat_of_ascii "010") with 10%nat;
    repeat match goal with
           | |- context [Nat.eqb (nat_of_ascii ?x) ?n] =>
               destruct (Nat.eqb (nat_of_ascii x) n)
           | |- context [Nat.leb ?n (nat_of_ascii ?x)] =>
               destruct (Nat.leb n (nat_of_ascii x))
           | |- context [Nat.leb (nat_of_ascii ?x) ?n] =>
               destruct (Nat.leb (nat_of_ascii x) n)
           end; cbn; try reflexivity; destruct b; reflexivity.
Qed.

Lemma space_rune_width_length s : (space_rune_width s <= String.length s)%nat.
Proof.
  destruct s as [|c0 [|c1 [|c2 s]]]; cbn [space_rune_width String.length];
    repeat match goal with
           | |- context [if ?b then _ else _] => destruct b
           end; lia.
Qed.

(** A line feed ends a run of white space and starts the next. *)
Lemma only_space_nl a b skip :
  (skip <= String.length a)%nat ->
  only_space skip (a +:+ String "010" b) = only_space skip a && only_space 0 b.
Proof.
  revert skip. induction a as [|c a IH]; intros skip Hskip.
  - cbn in Hskip. assert (skip = 0%nat) as -> by lia. rewrite app_Empty.
    reflexivity.
  - rewrite app_String. cbn [only_space String.length] in *.
    destruct skip as [|k]; [|apply IH; lia].
    rewrite space_rune_width_nl.
    pose proof (space_rune_width_length (String c a)) as Hw.
    destruct (space_rune_width (String c a)) as [|k]; [done|].
    apply IH. cbn in Hw. lia.
Qed.

Lemma only_space_Join lines :
  TrimSpace_is_empty (Join lines "010") = forallb TrimSpace_is_empty lines.
Proof.
  unfold TrimSpace_is_empty.
  induction lines as [|e [|e' rest] IH]; [done|cbn; by rewrite andb_true_r|].
  cbn [Join forallb] in *. rewrite only_space_nl by lia. by rewrite IH.
Qed.

Lemma only_space_Split text :
  TrimSpace_is_empty text = forallb TrimSpace_is_empty (Split text "010").
Proof. by rewrite <- only_space_Join, Join_Split. Qed.

Lemma chunkLoop_nil filePath lines ws :
  chunkLoop filePath lines ws [] = [] <->
  Forall (fun w => blankWindow lines w = true) ws.
Proof.
  induction ws as [|w ws IH]; [by split; [constructor|]|].
  rewrite chunkLoop_cons. destruct (blankWindow lines w) eqn:Hw.
  - rewrite IH. split; [by constructor|by intros [_ ?]%Forall_cons].
  - split; [done|]. intros [? _]%Forall_cons. congruence.
Qed.


(** X7. The chunks of a file come in the order of their lines, each
    starting at least 40 lines after the one before: two chunks of a
    file never start at the same line, and consecutive chunks share at
    most 10 lines. *)
Theorem chunks_ordered (filePath text : string) :
  StronglySorted (fun a b => (LineStart a + 40 <= LineStart b)%Z)
                 (chunkText filePath text).
Proof.
  unfold chunkText. set (lines := Split text "010").
  destruct (chunkLoop_sub filePath lines
              (windows chunkSize (chunkSize - overlap) (length lines) 0))
    as (ws' & Hsub & -> & _).
  change (map ?f ?l) with (f <$> l).
  eapply StronglySorted_fmap; [|eapply StronglySorted_sublist;
                                 [done|apply (windows_sorted chunkSize 39)]].
  intros a b. cbn. lia.
Qed.



(** X9. A file yields no chunk exactly when its text is blank (empty, or
    white space only): every other file yields at least one chunk, however
    its blank lines fall into the windows. *)
Theorem no_chunk_iff_blank (filePath text : string) :
  chunkText filePath text = [] <-> TrimSpace_is_empty text = true.
Proof.
  unfold chunkText. rewrite chunkLoop_nil, only_space_Split.
  set (lines := Split text "010"). unfold blankWindow.
  rewrite forallb_forall. setoid_rewrite only_space_Join.
  split.
  - intros Hblank line Hline%list_elem_of_In.
    apply list_elem_of_lookup in Hline as [k Hk].
    pose proof (lookup_lt_Some _ _ _ Hk) as Hlt.
    destruct (windows_cover chunkSize 39 (length lines) 0 k) as (w & Hw & Hin);
      [unfold chunkSize; lia|lia|].
    rewrite Forall_forall in Hblank. specialize (Hblank w Hw).
    rewrite forallb_forall in Hblank. apply Hblank, list_elem_of_In.
    by eapply slice_lookup.
  - intros Hblank. apply Forall_forall. intros w _.
    apply forallb_forall. intros line Hline%list_elem_of_In.
    by apply Hblank, list_elem_of_In, (slice_subseteq lines (fst w) (snd w)).
Qed.

End ChunkFacts.

(** ** What the walk collects *)

Section CollectFacts.
Import GoStrings Collector.

Lemma plainFiles_head c f :
  f ∈ plainFiles c ->
  match fst (fst f) with
  | [] => snd (fst f) = nodeName c
  | dirName :: _ => dirName = nodeName c
  end.
Proof.
  destruct c as [name size|dirName children|name err]; cbn.
  - by intros ->%list_elem_of_singleton.
  - by intros (g & -> & _)%list_elem_of_fmap.
  - by intros ?%elem_of_nil.
Qed.

Lemma pathFrom_child filePath dirName c f :
  f ∈ plainFiles c ->
  pathFrom filePath (dirName :: fst (fst f), snd (fst f), snd f) =
  pathFrom (JoinPath filePath (nodeName c)) f.
Proof.
  intros Hhead%plainFiles_head. destruct f as [[dirs name] size].
  unfold pathFrom, JoinPath. cbn [fst snd] in *.
  destruct dirs as [|d below]; cbn [app Join].
  - by rewrite Hhead.
  - rewrite Hhead. destruct (below ++ [name]) eqn:Hrest.
    + by destruct below.
    + by rewrite app_assoc_string, app_String.
Qed.

Lemma wantedBy_lift skip extensions filePath dirName c f :
  skip dirName = false -> f ∈ plainFiles c ->
  wantedBy skip extensions filePath (dirName :: fst (fst f), snd (fst f), snd f) =
  wantedBy skip extensions (JoinPath filePath (nodeName c)) f.
Proof.
  intros Hdir Hf. unfold wantedBy.
  rewrite (pathFrom_child _ _ _ _ Hf). cbn [fst snd enteredBy forallb].
  by rewrite Hdir.
Qed.

(** The files of a directory that is entered are the files of its
    entries. *)
Lemma wantedBy_children skip extensions filePath dirName c fs :
  skip dirName = false -> Forall (fun f => f ∈ plainFiles c) fs ->
  map (pathFrom filePath)
      (List.filter (wantedBy skip extensions filePath)
         (map (fun f => (dirName :: fst (fst f), snd (fst f), snd f)) fs)) =
  map (pathFrom (JoinPath filePath (nodeName c)))
      (List.filter (wantedBy skip extensions (JoinPath filePath (nodeName c))) fs).
Proof.
  intros Hdir Hall. induction Hall as [|f fs Hf _ IH]; [done|].
  cbn [map List.filter]. rewrite (wantedBy_lift _ _ _ _ _ _ Hdir Hf).
  destruct (wantedBy _ _ _ f); cbn [map]; [|apply IH].
  by rewrite (pathFrom_child _ _ _ _ Hf), IH.
Qed.

Lemma wantedBy_child skip extensions filePath dirName c :
  skip dirName = false ->
  map (pathFrom filePath)
      (List.filter (wantedBy skip extensions filePath)
         (map (fun f => (dirName :: fst (fst f), snd (fst f), snd f))
              (plainFiles c))) =
  map (pathFrom (JoinPath filePath (nodeName c)))
      (List.filter (wantedBy skip extensions (JoinPath filePath (nodeName c)))
         (plainFiles c)).
Proof.
  intros Hdir. apply wantedBy_children; [done|]. by apply Forall_forall.
Qed.

(** Nothing is taken from below a directory that is skipped. *)
Lemma wantedBy_skipped skip extensions filePath dirName fs :
  skip dirName = true ->
  List.filter (wantedBy skip extensions filePath)
    (map (fun f => (dirName :: fst (fst f), snd (fst f), snd f)) fs) = [].
Proof.
  intros Hskip. induction fs as [|f fs IH]; [done|].
  cbn [map List.filter]. unfold wantedBy at 1. cbn [fst snd enteredBy forallb].
  by rewrite Hskip.
Qed.

Lemma wantedBy_concat skip extensions filePath dirName c cs :
  skip dirName = false ->
  map (pathFrom filePath)
      (List.filter (wantedBy skip extensions filePath)
         (plainFiles (Dir dirName (c :: cs)))) =
  map (pathFrom (JoinPath filePath (nodeName c)))
      (List.filter (wantedBy skip extensions (JoinPath filePath (nodeName c)))
         (plainFiles c)) ++
  map (pathFrom filePath)
      (List.filter (wantedBy skip extensions filePath) (plainFiles (Dir dirName cs))).
Proof.
  intros Hdir. cbn [plainFiles map concat].
  rewrite map_app, List.filter_app, map_app. by rewrite wantedBy_child.
Qed.

Lemma reachedBy_skipped skip dirName children :
  skip dirName = true -> reachedBy skip (Dir dirName children) = [].
Proof.
  intros Hskip. unfold reachedBy. cbn [brokenEntries].
  induction (concat (map brokenEntries children)) as [|b bs IHbs]; [done|].
  cbn [map List.filter fst]. cbn [enteredBy forallb]. by rewrite Hskip.
Qed.

Lemma reachedBy_concat skip dirName c cs :
  skip dirName = false ->
  reachedBy skip (Dir dirName (c :: cs)) =
  reachedBy skip c ++ reachedBy skip (Dir dirName cs).
Proof.
  intros Hdir.
  assert (forall bs,
             map snd (List.filter (fun b => enteredBy skip (fst b))
                        (map (fun b : list string * string => (dirName :: fst b, snd b)) bs)) =
             map snd (List.filter (fun b => enteredBy skip (fst b)) bs)) as Hlift.
  { induction bs as [|b bs IHbs]; [done|]. cbn [map List.filter fst snd].
    change (enteredBy skip (dirName :: fst b))
      with (negb (skip dirName) && enteredBy skip (fst b)).
    rewrite Hdir. cbn [negb andb].
    destruct (enteredBy skip (fst b)); cbn [map snd]; by rewrite IHbs. }
  unfold reachedBy. cbn [brokenEntries map concat].
  by rewrite !Hlift, List.filter_app, map_app.
Qed.

(** The paths that the walk appends, in the order of the walk. *)
Lemma walk_paths extensions n :
  forall filePath relPath files files',
  walk extensions filePath relPath n files = inr files' ->
  map path files' =
  map path files ++
  map (pathFrom filePath) (List.filter (collectable extensions filePath) (plainFiles n)).
Proof.
  unfold collectable.
  induction n as [name size|dirName children IH|name err] using node_nested_ind;
    intros filePath relPath files files'.
  - cbn. intros [= <-]. unfold visitFile, wantedBy, pathFrom.
    cbn [fst snd enteredBy forallb andb].
    destruct (contains _ _); cbn [negb]; [|by rewrite app_nil_r].
    destruct (Z.gtb_spec size (1024 * 1024)), (Z.leb_spec size (1024 * 1024));
      try lia; cbn; [by rewrite app_nil_r|by rewrite map_app].
  - cbn [walk]. fold (skipped dirName).
    destruct (skipped dirName) eqn:Hskip.
    { intros [= <-]. cbn [plainFiles]. rewrite wantedBy_skipped by done.
      by rewrite app_nil_r. }
    revert files files'. induction IH as [|c cs Hc _ IHcs]; intros files files'.
    { intros [= <-]. by rewrite app_nil_r. }
    destruct (walk _ _ _ c files) as [err|files1] eqn:Hwalk; [done|].
    apply Hc in Hwalk. intros Hrest%IHcs.
    rewrite Hrest, Hwalk, wantedBy_concat by done. by rewrite <- app_assoc.
  - done.
Qed.

(** The error of the walk is that of the first unreadable entry that it
    reaches. *)
Lemma walk_error extensions n :
  forall filePath relPath files,
  match walk extensions filePath relPath n files with
  | inl err => Some err
  | inr _ => None
  end = head (reachedErrors n).
Proof.
  unfold reachedErrors.
  induction n as [name size|dirName children IH|name err] using node_nested_ind;
    intros filePath relPath files; [done| |done].
  cbn [walk]. fold (skipped dirName).
  destruct (skipped dirName) eqn:Hskip; [by rewrite reachedBy_skipped|].
  revert files. induction IH as [|c cs Hc _ IHcs]; intros files; [done|].
  rewrite reachedBy_concat by done.
  specialize (Hc (JoinPath filePath (nodeName c)) (relChild relPath (nodeName c)) files).
  destruct (walk _ _ _ c files) as [err|files1].
  - by destruct (reachedBy skipped c) as [|e es]; [|injection Hc as ->].
  - destruct (reachedBy skipped c) as [|e es]; [|done]. apply IHcs.
Qed.

(** X10. What is collected: exactly the plain files below the root of
    which every directory on the way, the root included, is neither on
    the deny-list nor hidden, whose extension is one of those asked for
    and whose size is at most 1 MiB -- each once, with the path under
    which the walk met it. *)
Theorem collectFiles_exact (root : node) (rootPath : string)
    (extensions files : list string) :
  collectFiles root rootPath extensions = inr files ->
  files ≡ₚ map (pathFrom rootPath)
             (List.filter (collectable extensions rootPath) (plainFiles root)).
Proof.
  unfold collectFiles.
  destruct (walk extensions rootPath "." root []) as [err|found] eqn:Hwalk; [done|].
  intros [= <-]. apply walk_paths in Hwalk. cbn in Hwalk. rewrite <- Hwalk.
  change (map path ?l) with (path <$> l). by rewrite sort_Slice_perm.
Qed.

Lemma collectFiles_exact_witness :
  let root := Dir "repo" [Dir "node_modules" [File "dep.go" 10];
                          Dir "api" [File "a.go" 10; File "a.txt" 10];
                          File "huge.go" 2000000; File "main.go" 12] in
  collectFiles root "/repo" [".go"] = inr ["/repo/api/a.go"; "/repo/main.go"] /\
  ["/repo/api/a.go"; "/repo/main.go"] ≡ₚ
    map (pathFrom "/repo") (List.filter (collectable [".go"] "/repo") (plainFiles root)).
Proof.
  cbn zeta. split; [vm_compute; reflexivity|].
  apply collectFiles_exact. vm_compute. reflexivity.
Defined.

(** X11. When the collection fails: exactly when the walk reaches an
    entry that it cannot read, that is one of which every directory on
    the way is entered; the error is that of the first such entry.
    Neither the extensions nor the sizes of the files play a part, and
    an unreadable entry below a skipped directory does no harm. *)
Theorem collectFiles_error (root : node) (rootPath : string)
    (extensions : list string) :
  match collectFiles root rootPath extensions with
  | inl err => Some err
  | inr _ => None
  end = head (reachedErrors root).
Proof.
  rewrite <- (walk_error extensions root rootPath "." []).
  unfold collectFiles. by destruct (walk _ _ _ _ _).
Qed.

End CollectFacts.

(** ** The progress record of a run *)

Section RecordFacts.
Import GoStrings State Chunker Pipeline.

Lemma skipn_slice {A} (l : list A) i j :
  (i <= j)%nat -> skipn i l = slice l i j ++ skipn j l.
Proof.
  intros Hij. unfold slice.
  replace (skipn j l) with (skipn (j - i) (skipn i l))
    by (rewrite skipn_skipn; f_equal; lia).
  by rewrite firstn_skipn.
Qed.

Lemma slice_firstn {A} (l : list A) j : slice l 0 j = firstn j l.
Proof. unfold slice. by rewrite Nat.sub_0_r. Qed.

Lemma Save_spec E r :
  state (fst (Save E r)) = state r /\
  trace (fst (Save E r)) =
    trace r ++ [EvSave (state r) (writeState E (trace r) (state r))] /\
  (writeState E (trace r) (state r) = None -> disk (fst (Save E r)) = Some (state r)).
Proof. unfold Save. cbn. repeat split. by intros ->. Qed.

(** The record after the batch loop: every file of every batch gone
    through has its mark, whatever became of the embedding and storing of
    the batches; and the last thing done is to save this record. *)
Lemma batchLoop_state E files s i r r' err :
  batchLoop E files (windows (S s) (S s) (length files) i) r = (r', err) ->
  (err = None ->
     state r' = SetStatus (fold_left (chunkMark E) (skipn i files) (state r))
                          "completed") /\
  (err <> None -> exists m,
     (i + m * S s < length files)%nat /\
     state r' = fold_left (chunkMark E) (slice files i (i + m * S s)) (state r)) /\
  exists e, last (trace r') = Some (EvSave (state r') e) /\
            (e = None -> disk r' = Some (state r')).
Proof.
  remember (length files - i)%nat as k eqn:Hk. revert i r Hk.
  induction k as [k IH] using lt_wf_ind. intros i r Hk.
  rewrite windows_step. destruct (lt_dec i (length files)) as [Hlt|Hge].
  - cbn [batchLoop]. destruct (ctxDone E (trace r)) eqn:Hdone.
    + intros [= <- <-]. cbn [state trace disk].
      split; [done|]. split.
      * intros _. exists 0%nat. split; [lia|]. by rewrite slice_empty by lia.
      * exists (writeState E (trace r) (state r)).
        rewrite last_snoc. split; [done|]. by intros ->.
    + destruct (processBatch E _ r) as [r1 err1] eqn:Hbatch.
      apply processBatch_spec in Hbatch as (indexing & _ & Hst1 & _).
      destruct (Save E r1) as [r2 err2] eqn:Hsave.
      pose proof (Save_spec E r1) as (Hst2 & _). rewrite Hsave in Hst2. cbn in Hst2.
      intros Hloop. apply (IH (length files - (i + S s))%nat) in Hloop
        as (Hok & Hcancel & Hlast); [|lia|done].
      rewrite Hst2, Hst1 in Hok, Hcancel.
      split; [|split; [|done]].
      * intros Herr. rewrite (Hok Herr), <- fold_left_app. do 2 f_equal.
        destruct (decide (i + S s <= length files)%nat).
        -- rewrite Nat.min_l by done. symmetry. apply skipn_slice. lia.
        -- rewrite Nat.min_r by lia. rewrite (skipn_all2 (n := i + S s)) by lia.
           rewrite (skipn_slice files i (length files)) by lia.
           by rewrite skipn_all.
      * intros Herr. destruct (Hcancel Herr) as (m & Hm & Hstate).
        exists (S m). split; [lia|]. rewrite Hstate, <- fold_left_app. f_equal.
        rewrite Nat.min_l by lia.
        replace (i + S m * S s)%nat with (i + S s + m * S s)%nat by lia.
        apply slice_app. lia.
  - cbn [batchLoop]. intros [= <- <-].
    destruct (complete_spec E r) as (e & Htrace & Hstate & Hdisk).
    split; [|split].
    + intros _. rewrite Hstate, skipn_all2 by lia. done.
    + done.
    + exists e. split; [|done].
      rewrite Htrace.
      change [EvSetStatus "completed"; EvSave (state (complete E r)) e]
        with ([EvSetStatus "completed"] ++ [EvSave (state (complete E r)) e]).
      by rewrite app_assoc, last_snoc.
Qed.

(** The record that a run starts its batches from. *)
Lemma indexFrom_state E st onDisk path extensions allFiles r err :
  Collector.collectFiles (tree E path) path extensions = inr allFiles ->
  indexFrom E st onDisk path extensions = (r, err) ->
  let st0 := setTotalFiles st (Z.of_nat (length allFiles)) in
  let files := remaining st0 allFiles in
  (err = None ->
     state r = SetStatus (fold_left (chunkMark E) files st0) "completed") /\
  (err <> None -> exists m,
     (m * FileBatchSize < length files)%nat /\
     state r = fold_left (chunkMark E) (firstn (m * FileBatchSize) files) st0) /\
  exists e, last (trace r) = Some (EvSave (state r) e) /\
            (e = None -> disk r = Some (state r)).
Proof.
  intros Hfiles. unfold indexFrom. rewrite Hfiles. cbn zeta.
  set (st0 := setTotalFiles st (Z.of_nat (length allFiles))).
  destruct (length (remaining st0 allFiles) =? 0)%nat eqn:Hnone.
  - intros [= <- <-]. apply Nat.eqb_eq, nil_length_inv in Hnone. rewrite Hnone.
    destruct (complete_spec E {| state := st0; disk := onDisk; trace := [] |})
      as (e & Htrace & Hstate & Hdisk).
    split; [done|]. split; [done|]. exists e. by rewrite Htrace.
  - intros Hloop. apply batchLoop_state in Hloop as (Hok & Hcancel & Hlast).
    cbn [state] in *. split; [done|]. split; [|done].
    intros Herr. destruct (Hcancel Herr) as (m & Hm & Hstate).
    exists m. unfold FileBatchSize. split; [lia|].
    by rewrite Hstate, slice_firstn.
Qed.










(** X14. A run that ends with an error after the collection was
    cancelled between two batches: an exact number of batches of 50
    files has been gone through and not all files, the record has the
    marks of the files of these batches and of no other, its status is
    not [completed], and the last thing the run did was to save this
    record. *)
Theorem cancelled_run_record (E : Env) (onDisk : option IndexingState)
    (path : string) (extensions allFiles : list string)
    (r : Run) (err : option string) :
  Collector.collectFiles (tree E path) path extensions = inr allFiles ->
  IndexDirectoryIncremental E onDisk path extensions = (r, err) ->
  err <> None ->
  let st0 := setTotalFiles (startState onDisk path) (Z.of_nat (length allFiles)) in
  let files := remaining st0 allFiles in
  (exists m,
     (m * FileBatchSize < length files)%nat /\
     state r = fold_left (chunkMark E) (firstn (m * FileBatchSize) files) st0) /\
  Status (state r) <> "completed" /\
  exists e, last (trace r) = Some (EvSave (state r) e) /\
            (e = None -> disk r = Some (state r)).
Proof.
  intros Hfiles Hrun Herr st0 files. unfold IndexDirectoryIncremental in Hrun.
  apply (indexFrom_state _ _ _ _ _ _ _ _ Hfiles) in Hrun as (_ & Hcancel & Hlast).
  destruct (Hcancel Herr) as (m & Hm & Hstate).
  split; [by exists m|]. split; [|done].
  rewrite Hstate. fold st0.
  destruct (chunkMarks_frame E (firstn (m * FileBatchSize) (remaining st0 allFiles)) st0)
    as (_ & -> & _).
  cbn. unfold startState. destruct onDisk as [st|]; [|done].
  destruct (startsFresh (Some st) path) eqn:Hfresh; [done|].
  cbn in Hfresh. apply orb_false_iff in Hfresh as [_ Hstatus].
  by apply String.eqb_neq in Hstatus.
Qed.

Lemma cancelled_run_record_witness :
  exists r e,
    fst (IndexDirectoryIncremental cancelledEnv None "/repo" [".go"]) = r /\
    Status (state r) <> "completed" /\
    last (trace r) = Some (EvSave (state r) e).
Proof.
  destruct (IndexDirectoryIncremental cancelledEnv None "/repo" [".go"])
    as [r err] eqn:Hrun.
  destruct (cancelled_run_record cancelledEnv None "/repo" [".go"] ["/repo/main.go"]
              r err) as (_ & Hstatus & e & Hlast & _);
    [vm_compute; reflexivity|exact Hrun| |].
  - vm_compute in Hrun. by injection Hrun as <- <-.
  - by exists r, e.
Defined.

End RecordFacts.

(** ** Re-indexing: deletions first, one call for all chunks *)

Section ReindexFacts.
Import GoStrings State Chunker Pipeline.

Lemma reindexEvents_quiet E filePaths :
  Forall (fun ev => storeCall ev = false) (concat (map (reindexEvents E) filePaths)).
Proof.
  induction filePaths as [|p filePaths IH]; [constructor|].
  cbn [map concat]. apply Forall_app. split; [|done].
  unfold reindexEvents. destruct (notExist E p); by repeat constructor.
Qed.

(** X15. [ReindexFiles] first goes through all the paths, deleting the
    stored chunks of each as often as it is listed, and only then makes
    at most one embedding call and one upsert, each for the chunks of all
    listed files together (however many they are). So the outcome is all
    or nothing: without an error the chunks of the files that exist are
    stored, in the order of the request; with an error nothing has been
    stored, although every deletion has been made. *)
Theorem reindex_all_or_nothing (E : Env) (filePaths : list string)
    (tr tr' : list Event) (err : option string) :
  ReindexFiles E filePaths tr = (tr', err) ->
  let allChunks := concat (map (reindexChunks E) filePaths) in
  exists indexing,
    tr' = tr ++ concat (map (reindexEvents E) filePaths) ++ indexing /\
    Forall (fun ev => storeCall ev = false)
           (concat (map (reindexEvents E) filePaths)) /\
    (forall p, deleteCalls p (concat (map (reindexEvents E) filePaths)) =
               requests p filePaths) /\
    (indexing = [] /\ allChunks = [] \/
     (exists msg, indexing = [EvEmbedBatch allChunks (Some msg)]) \/
     (exists e, indexing = [EvEmbedBatch allChunks None; EvUpsert allChunks e])) /\
    (err = None -> storedChunks indexing = allChunks) /\
    (err <> None -> storedChunks indexing = [] /\ allChunks <> []).
Proof.
  unfold ReindexFiles. rewrite reindexLoop_fold. cbn [app].
  set (loop := concat (map (reindexEvents E) filePaths)).
  set (allChunks := concat (map (reindexChunks E) filePaths)).
  intros Hrun. cbn zeta.
  assert (forall indexing,
            tr' = tr ++ loop ++ indexing ->
            tr' = tr ++ loop ++ indexing /\
            Forall (fun ev => storeCall ev = false) loop /\
            (forall p, deleteCalls p loop = requests p filePaths)) as Hloop.
  { intros indexing ->. split; [done|]. split; [apply reindexEvents_quiet|].
    intros p. apply deleteCalls_loop. }
  destruct (length allChunks =? 0)%nat eqn:Hlen.
  { injection Hrun as <- <-. apply Nat.eqb_eq, nil_length_inv in Hlen.
    exists []. destruct (Hloop _ ltac:(by rewrite app_nil_r; reflexivity)) as (Ha & Hb & Hc).
    split; [exact Ha|]. split; [exact Hb|]. split; [exact Hc|]. clear Ha.
    rewrite Hlen. split; [by left|]. by split. }
  apply Nat.eqb_neq in Hlen.
  assert (allChunks <> []) as Hsome by (by intros Hnil; rewrite Hnil in Hlen).
  unfold indexBatch in Hrun.
  destruct (embedBatch E (tr ++ loop) allChunks) as [msg|].
  - injection Hrun as <- <-. exists [EvEmbedBatch allChunks (Some msg)].
    destruct (Hloop _ ltac:(by rewrite app_assoc; reflexivity)) as (Ha & Hb & Hc).
    split; [exact Ha|]. split; [exact Hb|]. split; [exact Hc|]. clear Ha.
    split; [right; left; by exists msg|]. by split.
  - destruct (upsert E _ allChunks) as [msg|] eqn:Hup.
    + injection Hrun as <- <-.
      exists [EvEmbedBatch allChunks None; EvUpsert allChunks (Some msg)].
      destruct (Hloop _ ltac:(by rewrite <- !app_assoc; reflexivity)) as (Ha & Hb & Hc).
    split; [exact Ha|]. split; [exact Hb|]. split; [exact Hc|]. clear Ha.
      split; [right; right; by eexists|]. by split.
    + injection Hrun as <- <-.
      exists [EvEmbedBatch allChunks None; EvUpsert allChunks None].
      destruct (Hloop _ ltac:(by rewrite <- !app_assoc; reflexivity)) as (Ha & Hb & Hc).
    split; [exact Ha|]. split; [exact Hb|]. split; [exact Hc|]. clear Ha.
      split; [right; right; by eexists|]. split; [|done].
      intros _. cbn. by rewrite app_nil_r.
Qed.

Lemma reindex_all_or_nothing_witness :
  exists indexing,
    fst (ReindexFiles deafEnv ["/repo/main.go"] []) =
      [] ++ concat (map (reindexEvents deafEnv) ["/repo/main.go"]) ++ indexing /\
    storedChunks indexing = [] /\
    deleteCalls "/repo/main.go"
      (concat (map (reindexEvents deafEnv) ["/repo/main.go"])) = 1%nat.
Proof.
  destruct (ReindexFiles deafEnv ["/repo/main.go"] []) as [tr' err] eqn:Hrun.
  destruct (reindex_all_or_nothing deafEnv ["/repo/main.go"] [] tr' err Hrun)
    as (indexing & Htrace & _ & Hdel & _ & _ & Hfail).
  exists indexing. split; [exact Htrace|]. split; [|by rewrite Hdel].
  apply Hfail. vm_compute in Hrun. by injection Hrun as _ <-.
Defined.

End ReindexFacts.

(** ** [IndexDirectory]: the run without a progress record *)

Section PlainRunFacts.
Import GoStrings State Chunker Pipeline.
Import Collector (node, File, Dir, Broken, nodeName, plainFiles, pathFrom,
                  wantedBy, reachedBy, enteredBy, skipped, collectable,
                  collectFiles).

Lemma visitAndChunk_spec E extensions filePath name size tr chunks :
  let files := map (pathFrom filePath)
                   (List.filter (wantedBy skippedPlain extensions filePath)
                                (plainFiles (File name size))) in
  visitAndChunk E extensions filePath size (tr, chunks) =
  (tr ++ map EvReadFile files, chunks ++ concat (map (chunksOf E) files)).
Proof.
  unfold visitAndChunk, wantedBy, pathFrom, chunkFile, chunksOf.
  cbn [fst snd plainFiles enteredBy forallb andb List.filter].
  destruct (Collector.contains _ _); cbn [negb andb map concat];
    [|by rewrite !app_nil_r].
  destruct (Z.gtb_spec size (1024 * 1024)), (Z.leb_spec size (1024 * 1024));
    try lia; cbn [map concat fst snd]; [by rewrite !app_nil_r|].
  destruct (readFile E filePath); by rewrite !app_nil_r.
Qed.

(** The walk of [IndexDirectory]: it reads the files that it takes, in
    the order in which it meets them, until it is through or meets an
    entry that it cannot read. *)
Lemma walkAndChunk_spec E extensions n :
  forall filePath tr chunks tr' chunks' err,
  walkAndChunk E extensions filePath n (tr, chunks) = ((tr', chunks'), err) ->
  let files := map (pathFrom filePath)
                   (List.filter (wantedBy skippedPlain extensions filePath)
                                (plainFiles n)) in
  err = head (reachedBy skippedPlain n) /\
  exists reads,
    tr' = tr ++ map EvReadFile reads /\
    chunks' = chunks ++ concat (map (chunksOf E) reads) /\
    reads `prefix_of` files /\
    (err = None -> reads = files).
Proof.
  induction n as [name size|dirName children IH|name msg] using node_nested_ind;
    intros filePath tr chunks tr' chunks' err.
  - cbn [walkAndChunk]. rewrite (visitAndChunk_spec E extensions filePath name).
    intros [= <- <- <-]. split; [done|]. eexists. by repeat split.
  - cbn [walkAndChunk]. destruct (skippedPlain dirName) eqn:Hskip.
    { intros [= <- <- <-]. cbn zeta. cbn [plainFiles].
      rewrite reachedBy_skipped, wantedBy_skipped by done.
      split; [done|]. exists []. cbn. by rewrite !app_nil_r. }
    revert tr chunks. induction IH as [|c cs Hc _ IHcs]; intros tr chunks.
    { intros [= <- <- <-]. split; [done|]. exists []. cbn. by rewrite !app_nil_r. }
    cbn zeta. rewrite reachedBy_concat, wantedBy_concat by done.
    destruct (walkAndChunk E extensions _ c (tr, chunks)) as [[tr1 chunks1] err1]
      eqn:Hwalk.
    apply Hc in Hwalk as (Herr1 & reads1 & -> & -> & Hpre1 & Hall1).
    destruct err1 as [msg1|].
    + intros [= <- <- <-]. split.
      { by destruct (reachedBy skippedPlain c). }
      exists reads1. split; [done|]. split; [done|].
      split; [by apply prefix_app_r|done].
    + intros Hrest. apply IHcs in Hrest as (Herr & reads2 & -> & -> & Hpre2 & Hall2).
      rewrite (Hall1 eq_refl) in *. split.
      { by destruct (reachedBy skippedPlain c). }
      exists (map (pathFrom (JoinPath filePath (nodeName c)))
                  (List.filter (wantedBy skippedPlain extensions
                                  (JoinPath filePath (nodeName c))) (plainFiles c))
              ++ reads2).
      rewrite !map_app, concat_app, <- !app_assoc.
      split; [done|]. split; [done|]. split.
      * by apply prefix_app.
      * intros Hnone. by rewrite (Hall2 Hnone).
  - cbn. intros [= <- <- <-]. split; [done|]. exists []. cbn.
    rewrite !app_nil_r. split; [done|]. split; [done|].
    split; [apply prefix_nil|done].
Qed.

(** The loop of [IndexDirectory] does what the embedding loop of
    [processBatch] does; only the text of the error is another. *)
Lemma indexLoop_embedLoop E chunks ws tr :
  fst (indexLoop E chunks ws tr) = fst (embedLoop E chunks ws tr) /\
  (snd (indexLoop E chunks ws tr) = None <-> snd (embedLoop E chunks ws tr) = None).
Proof.
  revert tr. induction ws as [|[i j] ws IH]; intros tr; [done|].
  cbn [indexLoop embedLoop].
  destruct (indexBatch E (slice chunks i j) tr) as [tr1 [msg|]]; [done|apply IH].
Qed.



(** X16. The outcomes of [IndexDirectory]. The walk reads the files that
    it takes (see [plainWalkFiles]) in the order in which it meets them.
    If it reaches an entry that it cannot read, the run ends with the
    error of the walk and nothing is embedded or stored. Otherwise every
    such file has been read; if they yield no chunk (also when files
    were found but are blank or unreadable) the error is
    [no files found to index] and no call is made; else the chunks are
    embedded and stored in batches of 100: all of them, in the order of
    the walk, when no error is returned, and with an error those of the
    batches before the failing one. *)
Theorem IndexDirectory_outcome (E : Env) (path : string)
    (extensions : list string) (tr tr' : list Event) (err : option string) :
  IndexDirectory E path extensions tr = (tr', err) ->
  let files := plainWalkFiles E path extensions in
  let chunks := concat (map (chunksOf E) files) in
  exists reads indexing,
    tr' = tr ++ map EvReadFile reads ++ indexing /\
    reads `prefix_of` files /\
    Forall (fun ev => storeCall ev = true) indexing /\
    match head (reachedBy skippedPlain (tree E path)) with
    | Some msg =>
        err = Some ("failed to walk directory: " +:+ msg) /\ indexing = []
    | None =>
        reads = files /\
        (chunks = [] -> err = Some "no files found to index" /\ indexing = []) /\
        (chunks <> [] -> err = None -> storedChunks indexing = chunks) /\
        (chunks <> [] -> err <> None -> exists m,
           (m * 100 < length chunks)%nat /\
           storedChunks indexing = firstn (m * 100) chunks)
    end.
Proof.
  unfold IndexDirectory, plainWalkFiles.
  destruct (walkAndChunk E extensions path (tree E path) (tr, []))
    as [[tr1 chunks1] err1] eqn:Hwalk.
  apply walkAndChunk_spec in Hwalk as (Herr1 & reads & -> & -> & Hpre & Hall).
  rewrite <- Herr1. cbn [app]. destruct err1 as [msg|].
  { intros [= <- <-]. exists reads, []. by rewrite app_nil_r. }
  rewrite (Hall eq_refl) in *. clear Hall Hpre Herr1.
  set (files := map (pathFrom path) _).
  set (chunks := concat (map (chunksOf E) files)). cbn zeta.
  destruct (length chunks =? 0)%nat eqn:Hlen.
  { intros [= <- <-]. apply Nat.eqb_eq, nil_length_inv in Hlen.
    exists files, []. rewrite app_nil_r. by repeat split. }
  apply Nat.eqb_neq in Hlen.
  destruct (indexLoop_embedLoop E chunks (windows 100 100 (length chunks) 0)
              (tr ++ map EvReadFile files)) as [Htrace Hnone].
  intros Hloop. rewrite Hloop in Htrace, Hnone. cbn [fst snd] in Htrace, Hnone.
  destruct (embedLoop E chunks _ _) as [tr2 err2] eqn:Hembed.
  cbn [fst snd] in Htrace, Hnone. subst tr2.
  destruct (embedLoop_spec _ _ _ _ _ _ Hembed) as (new & -> & Hcalls & _).
  destruct (embedLoop_stored _ _ _ _ _ _ _ Hembed) as (new' & Hnew & Hok & Hfail).
  apply app_inv_head in Hnew as <-.
  exists files, new. rewrite <- app_assoc. split; [done|]. split; [done|].
  split; [|split; [done|split; [|split]]].
  - eapply Forall_impl; [exact Hcalls|]. by intros ev [? _].
  - intros Hnil. by rewrite Hnil in Hlen.
  - intros _ Herr. rewrite Hok by by apply Hnone. apply slice_all.
  - intros _ Herr. destruct Hfail as (m & Hm & Hstored).
    { intros Hnone2. by apply Herr, Hnone. }
    exists m. split; [lia|]. by rewrite Hstored, slice_firstn.
Qed.

Lemma IndexDirectory_outcome_witness :
  exists reads indexing,
    fst (IndexDirectory demoEnv "/repo" [".go"] []) =
      [] ++ map EvReadFile reads ++ indexing /\
    reads `prefix_of` plainWalkFiles demoEnv "/repo" [".go"] /\
    Forall (fun ev => storeCall ev = true) indexing.
Proof.
  destruct (IndexDirectory demoEnv "/repo" [".go"] []) as [tr' err] eqn:Hrun.
  destruct (IndexDirectory_outcome demoEnv "/repo" [".go"] [] tr' err Hrun)
    as (reads & indexing & Htrace & Hpre & Hcalls & _).
  by exists reads, indexing.
Defined.



End PlainRunFacts.

(** ** [LocalEmbedder.EmbedBatch]: what is sent to the service *)

Section EmbedFacts.
Import GoStrings Embedder.
Context {V : Type}.
Implicit Types (direct : list (list string) -> list string -> string + list V).

Lemma totalChars_acc texts acc :
  fold_left (fun totalChars text => totalChars + Z.of_nat (String.length text))%Z
            texts acc =
  (acc + fold_left (fun totalChars text => totalChars + Z.of_nat (String.length text))%Z
                   texts 0)%Z.
Proof.
  revert acc. induction texts as [|t texts IH]; intros acc; cbn [fold_left]; [lia|].
  rewrite (IH (acc + _)%Z), (IH (0 + _)%Z). lia.
Qed.

Lemma totalChars_bound texts size :
  Forall (fun text => (Z.of_nat (String.length text) <= size)%Z) texts ->
  (0 <= fold_left (fun totalChars text => totalChars + Z.of_nat (String.length text))%Z
                  texts 0
     <= size * Z.of_nat (length texts))%Z.
Proof.
  induction 1 as [|t texts Ht _ IH]; cbn [fold_left length]; [lia|].
  rewrite totalChars_acc. nia.
Qed.

(** Twenty texts of at most 5500 bytes are within the hint. *)
Lemma estimateTokens_small texts :
  Forall (fun text => (Z.of_nat (String.length text) <= 5500)%Z) texts ->
  (length texts <= maxBatchSize)%nat ->
  (estimateTokens texts <= maxTokensHint)%Z.
Proof.
  intros Hsmall%totalChars_bound Hlen. unfold estimateTokens, maxBatchSize,
    maxTokensHint in *. cbn zeta.
  apply Z.quot_le_upper_bound; lia.
Qed.

Lemma estimateTokens_nonneg texts : (0 <= estimateTokens texts)%Z.
Proof.
  unfold estimateTokens. cbn zeta. apply Z.quot_pos; [|lia].
  assert (forall acc, (0 <= acc)%Z ->
            (0 <= fold_left (fun totalChars text =>
                               totalChars + Z.of_nat (String.length text))%Z
                            texts acc)%Z) as Hpos.
  { induction texts as [|t texts IH]; intros acc Hacc; cbn [fold_left]; [done|].
    apply IH. lia. }
  specialize (Hpos 0%Z). lia.
Qed.

(** A sub-batch is never empty and never reaches beyond its window. *)
Lemma subBatchEnd_bounds texts w :
  (fst w < length texts)%nat ->
  snd w = Nat.min (fst w + maxBatchSize) (length texts) ->
  (fst w < subBatchEnd texts w <= snd w)%nat.
Proof.
  destruct w as [i e]. cbn [fst snd]. intros Hw He. unfold subBatchEnd, maxBatchSize,
    maxTokensHint in *.
  set (est := estimateTokens (slice texts i e)).
  destruct (Z.gtb_spec est 28000) as [Hbig|Hok]; [|lia].
  assert (0 <= Z.of_nat 20 * 28000 ÷ est <= 19)%Z as Hred.
  { split; [apply Z.quot_pos; lia|].
    apply Z.lt_succ_r, Z.quot_lt_upper_bound; lia. }
  destruct (Z.ltb_spec (Z.of_nat 20 * 28000 ÷ est) 1);
    match goal with |- context [(?a >? ?b)%Z] => destruct (Z.gtb_spec a b) end; lia.
Qed.

Lemma subBatchEnd_within texts w :
  (estimateTokens (slice texts (fst w) (snd w)) <= maxTokensHint)%Z ->
  subBatchEnd texts w = snd w.
Proof.
  destruct w as [i e]. cbn [fst snd]. unfold subBatchEnd. intros Hok.
  by destruct (Z.gtb_spec (estimateTokens (slice texts i e)) maxTokensHint); [lia|].
Qed.

Lemma slice_length {A} (l : list A) i j :
  (i <= j <= length l)%nat -> length (slice l i j) = (j - i)%nat.
Proof. intros Hij. unfold slice. rewrite length_firstn, length_skipn. lia. Qed.

Lemma slice_small (texts : list string) size i j :
  Forall (fun text => (Z.of_nat (String.length text) <= size)%Z) texts ->
  Forall (fun text => (Z.of_nat (String.length text) <= size)%Z) (slice texts i j).
Proof.
  rewrite !Forall_forall. intros Hall t Ht. by apply Hall, (slice_subseteq texts i j).
Qed.

(** The windows of a loop with equal size and stride cut the slice into
    consecutive pieces. *)
Lemma windows_concat {A} (l : list A) s i :
  concat (map (fun w => slice l (fst w) (snd w))
              (windows (S s) (S s) (length l) i)) = skipn i l.
Proof.
  remember (length l - i)%nat as k eqn:Hk. revert i Hk.
  induction k as [k IH] using lt_wf_ind. intros i Hk.
  rewrite windows_step. destruct (lt_dec i (length l)) as [Hlt|Hge].
  - cbn [map concat fst snd].
    rewrite (IH (length l - (i + S s))%nat) by lia.
    destruct (decide (i + S s <= length l)%nat).
    + rewrite Nat.min_l by done. symmetry. apply skipn_slice. lia.
    + rewrite Nat.min_r by lia. rewrite (skipn_all2 (n := i + S s)) by lia.
      rewrite (skipn_slice l i (length l)) by lia. by rewrite skipn_all.
  - cbn. by rewrite skipn_all2 by lia.
Qed.

Lemma subBatchLoop_calls direct texts ws calls acc calls' embeddings :
  subBatchLoop direct texts ws calls acc = (calls', inr embeddings) ->
  calls' = calls ++ map (subBatch texts) ws.
Proof.
  revert calls acc. induction ws as [|w ws IH]; intros calls acc; cbn [subBatchLoop map].
  - intros [= <- _]. by rewrite app_nil_r.
  - destruct (direct calls (subBatch texts w)) as [err|vs]; [done|].
    intros ->%IH. by rewrite <- app_assoc.
Qed.

Lemma subBatchLoop_answers direct texts ws calls acc :
  answersAll direct ->
  exists embeddings,
    subBatchLoop direct texts ws calls acc =
      (calls ++ map (subBatch texts) ws, inr embeddings) /\
    length embeddings = (length acc + length (concat (map (subBatch texts) ws)))%nat.
Proof.
  intros Hall. revert calls acc.
  induction ws as [|w ws IH]; intros calls acc; cbn [subBatchLoop map concat].
  - exists acc. rewrite app_nil_r. split; [done|]. cbn. lia.
  - destruct (Hall calls (subBatch texts w)) as (vs & -> & Hvs).
    destruct (IH (calls ++ [subBatch texts w]) (acc ++ vs)) as (embeddings & -> & Hlen).
    exists embeddings. rewrite <- app_assoc. split; [done|].
    rewrite Hlen, !length_app. lia.
Qed.

Lemma subBatchLoop_map direct (v : string -> V) texts ws calls acc :
  (forall calls batch, direct calls batch = inr (map v batch)) ->
  subBatchLoop direct texts ws calls acc =
  (calls ++ map (subBatch texts) ws,
   inr (acc ++ map v (concat (map (subBatch texts) ws)))).
Proof.
  intros Hmap. revert calls acc.
  induction ws as [|w ws IH]; intros calls acc; cbn [subBatchLoop map concat].
  - by rewrite !app_nil_r.
  - rewrite Hmap, IH, map_app, <- !app_assoc. done.
Qed.

(** The sub-batches of texts of at most 5500 bytes are the windows. *)
Lemma subBatch_small texts :
  Forall (fun text => (Z.of_nat (String.length text) <= 5500)%Z) texts ->
  map (subBatch texts) (windows maxBatchSize maxBatchSize (length texts) 0) =
  map (fun w => slice texts (fst w) (snd w))
      (windows maxBatchSize maxBatchSize (length texts) 0).
Proof.
  intros Hsmall. apply map_ext_in. intros w Hw%list_elem_of_In.
  apply windows_bounds in Hw as (_ & Hlt & Hle & Hend); [|unfold maxBatchSize; lia].
  unfold subBatch. rewrite subBatchEnd_within; [done|].
  apply estimateTokens_small; [by apply slice_small|].
  rewrite slice_length by lia. lia.
Qed.

(** The sub-batches never hold more texts than there are; they hold
    fewer as soon as one of them ends before its window. *)
Lemma subBatch_total texts i :
  (length (concat (map (subBatch texts)
                       (windows maxBatchSize maxBatchSize (length texts) i)))
   <= length texts - i)%nat /\
  forall w,
    w ∈ windows maxBatchSize maxBatchSize (length texts) i ->
    (subBatchEnd texts w < snd w)%nat ->
    (length (concat (map (subBatch texts)
                         (windows maxBatchSize maxBatchSize (length texts) i)))
     < length texts - i)%nat.
Proof.
  remember (length texts - i)%nat as k eqn:Hk. revert i Hk.
  induction k as [k IH] using lt_wf_ind. intros i Hk.
  rewrite windows_step. unfold maxBatchSize at 1 3.
  destruct (lt_dec i (length texts)) as [Hlt|Hge].
  2:{ split; [cbn; lia|]. by intros w ?%elem_of_nil. }
  cbn [map concat]. rewrite !length_app.
  destruct (IH (length texts - (i + maxBatchSize))%nat ltac:(unfold maxBatchSize; lia)
              (i + maxBatchSize)%nat eq_refl) as [Hrest Hcut].
  pose proof (subBatchEnd_bounds texts (i, Nat.min (i + maxBatchSize) (length texts)))
    as Hend. cbn [fst snd] in Hend.
  specialize (Hend Hlt eq_refl).
  assert (length (subBatch texts (i, Nat.min (i + maxBatchSize) (length texts)))
          = (subBatchEnd texts (i, Nat.min (i + maxBatchSize) (length texts)) - i)%nat)
    as Hfirst.
  { unfold subBatch. cbn [fst]. apply slice_length. lia. }
  unfold maxBatchSize in *. split; [rewrite Hfirst; lia|].
  intros w [->|Hw]%elem_of_cons Hshort; cbn [map concat]; rewrite length_app, Hfirst.
  - cbn [snd] in Hshort. lia.
  - specialize (Hcut w Hw Hshort). lia.
Qed.

(** X18. Texts of at most 5500 bytes each are all sent, once and in
    order: when [EmbedBatch] returns vectors, the requests it made are
    consecutive pieces of the texts, of at most 20 texts each, that
    together are the texts; and with a service that answers each text
    with its vector, the result is the vectors of the texts in order. *)
Theorem EmbedBatch_small_texts direct (texts : list string)
    (calls : list (list string)) :
  Forall (fun text => (Z.of_nat (String.length text) <= 5500)%Z) texts ->
  (forall calls' embeddings,
     EmbedBatch direct texts calls = (calls', inr embeddings) ->
     exists requests,
       calls' = calls ++ requests /\ concat requests = texts /\
       Forall (fun batch => (length batch <= maxBatchSize)%nat) requests) /\
  (forall v : string -> V,
     (forall calls batch, direct calls batch = inr (map v batch)) ->
     snd (EmbedBatch direct texts calls) = inr (map v texts)).
Proof.
  intros Hsmall. unfold EmbedBatch.
  destruct (length texts <=? maxBatchSize)%nat eqn:Hlen; cbn [andb].
  - apply Nat.leb_le in Hlen.
    rewrite (proj2 (Z.leb_le _ _) (estimateTokens_small texts Hsmall Hlen)).
    split.
    + intros calls' embeddings [= <- _]. exists [texts]. cbn. rewrite app_nil_r.
      split; [done|]. split; [done|]. by constructor.
    + intros v Hmap. cbn. apply Hmap.
  - apply Nat.leb_gt in Hlen. split.
    + intros calls' embeddings ->%subBatchLoop_calls. eexists. split; [done|].
      rewrite subBatch_small by done. split; [apply (windows_concat texts 19 0)|].
      apply Forall_forall. intros batch (w & -> & Hw)%list_elem_of_fmap.
      apply windows_bounds in Hw as (_ & Hlt & Hle & Hend); [|unfold maxBatchSize; lia].
      rewrite slice_length by lia. lia.
    + intros v Hmap. rewrite (subBatchLoop_map direct v) by done. cbn [snd app].
      rewrite subBatch_small by done. unfold maxBatchSize.
      by rewrite (windows_concat texts 19 0).
Qed.

(** X19. Texts are lost when a window of 20 texts is estimated above the
    hint: its sub-batch is cut down to the first [560000 / estimate]
    texts (at least one), and the loop goes on with the next window, so
    the other texts of the window are in no request. With a service
    that answers every request with one vector per text, [EmbedBatch]
    then returns without an error fewer vectors than there are texts. *)
Theorem EmbedBatch_drops_texts direct (texts : list string)
    (calls : list (list string)) (w : nat * nat) :
  answersAll direct ->
  w ∈ windows maxBatchSize maxBatchSize (length texts) 0 ->
  let estimate := estimateTokens (slice texts (fst w) (snd w)) in
  (estimate > maxTokensHint)%Z ->
  (Z.of_nat (fst w) + Z.max 1 (560000 ÷ estimate) < Z.of_nat (snd w))%Z ->
  exists requests embeddings,
    EmbedBatch direct texts calls = (calls ++ requests, inr embeddings) /\
    (length (concat requests) < length texts)%nat /\
    (length embeddings < length texts)%nat.
Proof.
  intros Hall Hw estimate Hbig Hcut.
  assert (subBatchEnd texts w < snd w)%nat as Hshort.
  { pose proof Hw as (_ & Hlt & Hle & _)%windows_bounds; [|unfold maxBatchSize; lia].
    destruct w as [i e]. cbn [fst snd] in *. unfold subBatchEnd.
    fold estimate. unfold maxBatchSize, maxTokensHint in *.
    destruct (Z.gtb_spec estimate 28000); [|lia].
    change (Z.of_nat 20 * 28000)%Z with 560000%Z.
    destruct (Z.ltb_spec (560000 ÷ estimate) 1);
      match goal with |- context [(?a >? ?b)%Z] => destruct (Z.gtb_spec a b) end; lia. }
  unfold EmbedBatch.
  assert ((length texts <=? maxBatchSize)%nat
          && (estimateTokens texts <=? maxTokensHint)%Z = false) as ->.
  { apply andb_false_iff.
    destruct (Nat.leb_spec (length texts) maxBatchSize) as [Hlen|]; [right|by left].
    apply Z.leb_gt. rewrite windows_single in Hw.
    - apply list_elem_of_singleton in Hw as ->. cbn [fst snd] in *.
      unfold estimate in Hbig. rewrite slice_all in Hbig. lia.
    - split; [|done]. destruct texts; [|cbn; lia].
      rewrite windows_step in Hw. by apply elem_of_nil in Hw. }
  destruct (subBatchLoop_answers direct texts
              (windows maxBatchSize maxBatchSize (length texts) 0) calls [] Hall)
    as (embeddings & -> & Hlen).
  destruct (subBatch_total texts 0) as [_ Hless]. specialize (Hless w Hw Hshort).
  eexists _, embeddings. split; [done|]. cbn [length] in Hlen. lia.
Qed.

(** X20. [Embed] makes exactly one request, which carries the text and
    nothing else, however long the text is: a single text is never cut
    by the token hint. *)
Theorem Embed_one_request direct (text : string) (calls : list (list string)) :
  fst (Embed direct text calls) = calls ++ [[text]].
Proof.
  unfold Embed, EmbedBatch, maxBatchSize. cbn [length Nat.leb andb].
  destruct (estimateTokens [text] <=? maxTokensHint)%Z.
  - by destruct (direct calls [text]) as [err|[|v vs]].
  - rewrite (windows_single 20 1) by lia. cbn [subBatchLoop].
    pose proof (subBatchEnd_bounds [text] (0, 1)%nat) as Hend.
    cbn [fst snd length] in Hend. unfold maxBatchSize in Hend.
    specialize (Hend ltac:(lia) eq_refl).
    assert (subBatch [text] (0, 1)%nat = [text]) as ->.
    { unfold subBatch. cbn [fst].
      replace (subBatchEnd [text] (0, 1)%nat) with 1%nat by lia. done. }
    by destruct (direct calls [text]) as [err|[|v vs]].
Qed.

End EmbedFacts.

Section EmbedWitnesses.
Import GoStrings Embedder.

Lemma EmbedBatch_small_texts_witness :
  snd (EmbedBatch lengthService ["package a"; "package b"] []) = inr [9; 9]%nat.
Proof.
  apply (proj2 (EmbedBatch_small_texts lengthService ["package a"; "package b"] []
                  ltac:(repeat constructor; cbn; lia))
               String.length).
  reflexivity.
Defined.

Lemma EmbedBatch_drops_texts_witness :
  exists requests embeddings,
    EmbedBatch lengthService longTexts [] = ([] ++ requests, inr embeddings) /\
    (length (concat requests) < length longTexts)%nat /\
    (length embeddings < length longTexts)%nat.
Proof.
  apply (EmbedBatch_drops_texts lengthService longTexts [] (0, 20)%nat).
  - intros calls batch. eexists. split; [reflexivity|]. apply length_map.
  - vm_compute. left.
  - vm_compute. reflexivity.
  - vm_compute. reflexivity.
Defined.

End EmbedWitnesses.

(** ** Re-indexing on request *)

Section HookFacts.
Import GoStrings State Chunker Pipeline Hooks.

(** The events of a [ReindexFiles] call are about the paths it is given. *)
Lemma ReindexFiles_files E filePaths tr tr' err :
  ReindexFiles E filePaths tr = (tr', err) ->
  exists new, tr' = tr ++ new /\ Forall (fun ev => eventFiles ev ⊆ filePaths) new.
Proof.
  unfold ReindexFiles. rewrite reindexLoop_fold. cbn [app].
  set (loop := concat (map (reindexEvents E) filePaths)).
  set (allChunks := concat (map (reindexChunks E) filePaths)).
  assert (Forall (fun ev => eventFiles ev ⊆ filePaths) loop) as Hloop.
  { apply Forall_forall. intros ev (evs & Hevs & Hev)%elem_of_concat.
    apply list_elem_of_fmap in Hevs as (p & -> & Hp).
    unfold reindexEvents in Hev.
    assert (ev = EvDelete p \/ ev = EvStat p \/ ev = EvReadFile p) as [-> | [-> | ->]].
    { destruct (notExist E p); cbn in Hev;
        repeat (apply elem_of_cons in Hev as [->|Hev]; [tauto|]);
        by apply elem_of_nil in Hev. }
    all: cbn; by intros ? ->%list_elem_of_singleton. }
  assert (map FilePath allChunks ⊆ filePaths) as Hchunks.
  { intros f (c & -> & Hc)%list_elem_of_fmap.
    apply elem_of_concat in Hc as (cs & Hcs & Hc).
    apply list_elem_of_fmap in Hcs as (p & -> & Hp).
    unfold reindexChunks in Hc. destruct (notExist E p); [by apply elem_of_nil in Hc|].
    by rewrite (chunksOf_FilePath _ _ _ Hc). }
  destruct (length allChunks =? 0)%nat.
  { intros [= <- <-]. exists loop. by split. }
  unfold indexBatch. destruct (embedBatch E _ allChunks) as [msg|].
  - intros [= <- <-]. exists (loop ++ [EvEmbedBatch allChunks (Some msg)]).
    rewrite app_assoc. split; [done|]. apply Forall_app. split; [done|].
    by constructor.
  - destruct (upsert E _ allChunks) as [msg|]; intros [= <- <-];
      eexists (loop ++ [EvEmbedBatch allChunks None; EvUpsert allChunks _]);
      (split; [by rewrite <- !app_assoc|]); apply Forall_app; split; try done;
      by repeat constructor.
Qed.

(** The loop of the handlers, read off the calls that fail. *)
Lemma collectLoop_spec E filePaths tr errors successCount :
  exists new newErrors,
    fold_left (collectStep E) filePaths (tr, errors, successCount) =
      (tr ++ new, errors ++ newErrors,
       (successCount + Z.of_nat (length filePaths)
        - Z.of_nat (length (failing E filePaths tr)))%Z) /\
    length newErrors = length (failing E filePaths tr) /\
    Forall (fun ev => eventFiles ev ⊆ filePaths) new.
Proof.
  revert tr errors successCount.
  induction filePaths as [|p filePaths IH]; intros tr errors successCount.
  - exists [], []. cbn. rewrite !app_nil_r. split; [f_equal; lia|done].
  - cbn [fold_left collectStep failing].
    destruct (ReindexFiles E [p] tr) as [tr1 err] eqn:Hrun.
    apply ReindexFiles_files in Hrun as (new1 & -> & Hnew1).
    assert (Forall (fun ev => eventFiles ev ⊆ p :: filePaths) new1) as Hfiles1.
    { eapply Forall_impl; [exact Hnew1|]. cbn. intros ev Hev x Hx.
      apply Hev, list_elem_of_singleton in Hx as ->. left. }
    destruct err as [msg|].
    + destruct (IH (tr ++ new1) (errors ++ [p +:+ ": " +:+ msg]) successCount)
        as (new & newErrors & -> & Hlen & Hnew).
      exists (new1 ++ new), ((p +:+ ": " +:+ msg) :: newErrors).
      rewrite <- !app_assoc. cbn [app length]. split; [f_equal; lia|].
      split; [lia|]. apply Forall_app. split; [done|].
      eapply Forall_impl; [exact Hnew|]. cbn. intros ev Hev x Hx.
      right. by apply Hev.
    + destruct (IH (tr ++ new1) errors (successCount + 1)%Z)
        as (new & newErrors & -> & Hlen & Hnew).
      exists (new1 ++ new), newErrors.
      rewrite <- !app_assoc. cbn [length]. split; [f_equal; lia|].
      split; [done|]. apply Forall_app. split; [done|].
      eapply Forall_impl; [exact Hnew|]. cbn. intros ev Hev x Hx.
      right. by apply Hev.
Qed.

(** The loop at start-up makes the same calls. *)
Lemma countLoop_spec E filePaths tr errors successCount :
  fold_left (countStep E) filePaths (tr, successCount) =
  (fst (fst (fold_left (collectStep E) filePaths (tr, errors, successCount))),
   snd (fold_left (collectStep E) filePaths (tr, errors, successCount))).
Proof.
  revert tr errors successCount.
  induction filePaths as [|p filePaths IH]; intros tr errors successCount; [done|].
  cbn [fold_left]. unfold countStep at 2, collectStep at 2 4. cbn [fst snd].
  destruct (ReindexFiles E [p] tr) as [tr1 [msg|]]; apply IH.
Qed.

Lemma trimLoop_spec L E files acc :
  fold_left (trimStep L E) files acc =
  fold_left (collectStep E) (requestPaths L files) acc.
Proof.
  unfold requestPaths. revert acc.
  induction files as [|f files IH]; intros acc; [done|].
  cbn [fold_left map List.filter]. unfold trimStep at 2.
  destruct (String.eqb (TrimSpace L f) ""); cbn [negb]; apply IH.
Qed.

(** X21. The marker file at start-up and through the HTTP API. Both
    [processPendingReindex] and [handleReindexPending] re-index the paths
    of the marker file one by one, each with a [ReindexFiles] call of its
    own, and make the same calls. They differ in what becomes of the
    marker file: at start-up it is removed whenever it could be read,
    also when re-indexing failed for some or all paths; the handler
    removes it only when no path failed (and its reply says so). A
    marker file that cannot be read leads to no call and no removal. *)
Theorem marker_file_runs (L : Lib) (E : Env) (marker : markerRead)
    (tr : list Event) :
  let atStart := processPendingReindex L E marker tr in
  let byApi := handleReindexPending L E "POST" marker tr in
  events atStart = events byApi /\
  match marker with
  | MarkerData data =>
      let filePaths := markerPaths L data in
      markerRemoved atStart = true /\
      (markerRemoved byApi = true <-> failing E filePaths tr = []) /\
      (exists new, events byApi = tr ++ new /\
                   Forall (fun ev => eventFiles ev ⊆ filePaths) new) /\
      answer atStart =
        (Z.of_nat (length filePaths) - Z.of_nat (length (failing E filePaths tr)))%Z /\
      exists status resp,
        answer byApi = Json status resp /\
        (Success resp = true <-> failing E filePaths tr = []) /\
        (status = 200%Z <-> failing E filePaths tr = []) /\
        FilesIndexed resp = answer atStart /\
        (filePaths <> [] -> length (Errors resp) = length (failing E filePaths tr))
  | _ => events byApi = tr /\ markerRemoved atStart = false /\
         markerRemoved byApi = false
  end.
Proof.
  cbn zeta. destruct marker as [data| |]; [|done..].
  unfold processPendingReindex, handleReindexPending.
  change (String.eqb "POST" "POST") with true. cbn [negb].
  set (filePaths := markerPaths L data).
  destruct (length filePaths =? 0)%nat eqn:Hlen.
  { apply Nat.eqb_eq, nil_length_inv in Hlen. rewrite Hlen. cbn.
    split; [done|]. split; [done|]. split; [done|].
    split; [exists []; by rewrite app_nil_r|]. split; [done|].
    eexists _, _. split; [done|]. cbn. by repeat split. }
  rewrite (countLoop_spec E filePaths tr []).
  destruct (collectLoop_spec E filePaths tr [] 0) as (new & errs & -> & Herrs & Hnew).
  cbn [fst snd events markerRemoved answer app].
  assert (failing E filePaths tr = [] <-> length errs = 0%nat) as Hnone.
  { rewrite Herrs. split; [by intros ->|apply nil_length_inv]. }
  split; [done|]. split; [done|].
  split; [by rewrite Nat.eqb_eq, Hnone|].
  split; [by exists new|]. split; [lia|].
  unfold reindexReply. eexists _, _. split; [done|]. cbn [Success FilesIndexed Errors].
  split; [by rewrite Nat.eqb_eq, Hnone|].
  split; [|split; [lia|done]].
  rewrite Hnone. destruct errs; cbn; [done|]. split; [done|lia].
Qed.

(** X22. [handleReindex] on a POST request whose body decodes to a list
    of paths that is not empty: the paths are trimmed and the empty ones
    passed over, each of the others is re-indexed with a [ReindexFiles]
    call of its own, and no event concerns another path. The reply
    counts the calls without error in [FilesIndexed] and has one entry
    of [Errors] for each call with an error; [Success] and the status
    200 (else 206) say that no call failed. The total in [Message] is
    the length of the request, empty paths included. *)
Theorem handleReindex_reply (L : Lib) (E : Env) (files : list string)
    (tr : list Event) :
  files <> [] ->
  let filePaths := requestPaths L files in
  let run := handleReindex L E "POST" (Some files) tr in
  (exists new, events run = tr ++ new /\
               Forall (fun ev => eventFiles ev ⊆ filePaths) new) /\
  markerRemoved run = false /\
  exists status resp,
    answer run = Json status resp /\
    FilesIndexed resp =
      (Z.of_nat (length filePaths) - Z.of_nat (length (failing E filePaths tr)))%Z /\
    length (Errors resp) = length (failing E filePaths tr) /\
    (Success resp = true <-> failing E filePaths tr = []) /\
    (status = 200%Z <-> failing E filePaths tr = []) /\
    (status = 206%Z <-> failing E filePaths tr <> []) /\
    Message resp = reindexedMessage (FilesIndexed resp) (length files).
Proof.
  intros Hfiles. cbn zeta. unfold handleReindex.
  change (String.eqb "POST" "POST") with true. cbn [negb].
  destruct files as [|f files]; [done|]. cbn [length Nat.eqb].
  rewrite trimLoop_spec.
  destruct (collectLoop_spec E (requestPaths L (f :: files)) tr [] 0)
    as (new & errs & -> & Herrs & Hnew).
  cbn [events markerRemoved answer app].
  assert (failing E (requestPaths L (f :: files)) tr = [] <-> length errs = 0%nat)
    as Hnone.
  { rewrite Herrs. split; [by intros ->|apply nil_length_inv]. }
  split; [by exists new|]. split; [done|].
  unfold reindexReply. eexists _, _. split; [done|].
  cbn [Success FilesIndexed Errors Message].
  split; [lia|]. split; [done|].
  split; [by rewrite Nat.eqb_eq, Hnone|].
  rewrite Hnone. destruct errs; cbn; repeat split; try done; lia.
Qed.

Lemma handleReindex_reply_witness :
  exists status resp,
    answer (handleReindex plainLib deafEnv "POST" (Some ["/repo/main.go"; ""]) []) =
      Json status resp /\
    length (Errors resp) =
      length (failing deafEnv (requestPaths plainLib ["/repo/main.go"; ""]) []).
Proof.
  destruct (handleReindex_reply plainLib deafEnv ["/repo/main.go"; ""] [])
    as (_ & _ & status & resp & Hanswer & _ & Herrors & _); [done|].
  by exists status, resp.
Defined.

End HookFacts.

(** ** From a chunk to a search hit, and the excerpt of a hit *)

Section HitFacts.
Import GoStrings.

(** The pieces of a string with a separator in it are those before and
    those after the separator. *)
Lemma Split_app_sep s1 s2 sep :
  Split (s1 +:+ String sep s2) sep = Split s1 sep ++ Split s2 sep.
Proof.
  induction s1 as [|c s1 IH].
  - rewrite app_Empty. cbn. by rewrite Ascii.eqb_refl.
  - rewrite app_String. cbn [Split]. rewrite IH.
    destruct (Ascii.eqb c sep); [done|].
    pose proof (Split_nonempty s1 sep). by destruct (Split s1 sep).
Qed.

(** Splitting what was joined gives the pieces back, when none of them
    holds the separator. *)
Lemma Split_Join lines sep :
  Forall (fun line => all_bytes (byte_isnt sep) line = true) lines ->
  lines <> [] -> Split (Join lines sep) sep = lines.
Proof.
  induction 1 as [|e rest He Hrest IH]; [done|]. intros _.
  destruct rest as [|e' rest]; [by apply Split_none|].
  cbn [Join]. rewrite Split_first by done. f_equal. by apply IH.
Qed.

(** X23. A chunk comes back from the store as it went in: the payload
    that [indexBatch] gives the point of a chunk, with the time stamp that
    [Upsert] adds, is read by [Search] into a hit with the path, the
    content, the language and the line numbers of the chunk (the two
    sides use the same five keys); so a search over stored chunks is the
    de-duplication of the hits that show these chunks. *)
Theorem payload_round_trip :
  (forall id score indexedAt chunk,
      Payload.resultOf (Payload.storedPoint id score indexedAt chunk) =
      Payload.hitOf id score chunk) /\
  (forall stored : list (string * Q * string * Chunker.CodeChunk),
      Payload.Search
        (inr (map (fun p => Payload.storedPoint (fst (fst (fst p))) (snd (fst (fst p)))
                                                (snd (fst p)) (snd p)) stored)) =
      inr (Dedup.deduplicateResults
             (map (fun p => Payload.hitOf (fst (fst (fst p))) (snd (fst (fst p))) (snd p))
                  stored))).
Proof.
  assert (forall id score indexedAt chunk,
             Payload.resultOf (Payload.storedPoint id score indexedAt chunk) =
             Payload.hitOf id score chunk) as Hpoint.
  { intros id score indexedAt [filePath content lineStart lineEnd language].
    unfold Payload.resultOf, Payload.storedPoint, Payload.hitOf,
      Payload.upsertPayload, Payload.chunkPayload.
    cbn [Payload.Payload Payload.Id Payload.Score Chunker.FilePath Chunker.Content
         Chunker.LineStart Chunker.LineEnd Chunker.Language].
    by simplify_map_eq. }
  split; [exact Hpoint|]. intros stored. cbn [Payload.Search]. do 2 f_equal.
  rewrite map_map. apply map_ext. intros p. apply Hpoint.
Qed.

(** X24. The excerpt of a hit in the full mode of the semantic search:
    with a positive number of excerpt lines below the number of lines of
    the content, it is the first so many lines of the content followed
    by one line that tells how many lines are left out; in every other
    case (no limit, a negative one, or enough lines) it is the content
    itself. *)
Theorem excerpt_lines (content : string) (excerptLines : Z) :
  let lines := Split content "010" in
  if (0 <? excerptLines)%Z && (excerptLines <? Z.of_nat (length lines))%Z
  then Split (Tools.excerpt content excerptLines) "010" =
         firstn (Z.to_nat excerptLines) lines ++
         ["... (" +:+ Itoa (Z.of_nat (length lines) - excerptLines)
                  +:+ " more lines)"]
  else Tools.excerpt content excerptLines = content.
Proof.
  cbn zeta. unfold Tools.excerpt. set (lines := Split content "010").
  destruct (Z.ltb_spec 0 excerptLines) as [Hpos|Hneg];
    destruct (Z.gtb_spec excerptLines 0); try lia; cbn [andb]; [|done].
  destruct (Z.ltb_spec excerptLines (Z.of_nat (length lines))) as [Hcut|Hall];
    destruct (Z.gtb_spec (Z.of_nat (length lines)) excerptLines); try lia; [|done].
  rewrite Split_app_sep, slice_firstn. f_equal.
  - apply Split_Join.
    + apply Forall_forall. intros line Hline.
      eapply Split_pieces, (subseteq_take (Z.to_nat excerptLines)).
      exact Hline.
    + destruct lines as [|l ls]; [cbn in Hcut; lia|].
      destruct (Z.to_nat excerptLines) eqn:Hn; [lia|done].
  - apply Split_none. rewrite !all_bytes_app.
    rewrite digits_free by (done || lia). done.
Qed.

End HitFacts.

(** ** The progress record of a resumed run *)

Section ResumeFacts.
Import GoStrings State Chunker Pipeline.



End ResumeFacts.
